(** * A channel-based coroutine engine (package [coroutine])

    The Go package emulates coroutines with one goroutine per coroutine body
    and two single-slot channels.  The development models

    - the data of [coroutine.go]: [Status], the [Coroutine] struct and its two
      buffered channels;
    - the closures that [Resume] and [Yield] hand to [safe.Do], one Go
      statement per step, so that goroutines interleave between statements;
    - [Create] and [Start], the goroutine that [Create] spawns, and a
      controller goroutine issuing resumes;
    - a scheduler-indexed step function over the whole system;
    - the same system with a body that may also wait with a deadline
      ([YieldWithTimeout]), in [Timed];
    - the package-level calls of the registry variant, in [Calls].

    Sequential consistency is assumed for the [status] field. *)

From stdpp Require Import base decidable option list strings numbers gmap pretty.
From Stdlib Require Import Lia.

Set Default Proof Using "Type".
Open Scope string_scope.
Open Scope list_scope.

(** ** Values, errors and panics *)

(** Elements of a [[]any].  The engine never inspects them. *)
Inductive any : Type :=
| ANil                      (* the nil interface value *)
| AStr (s : string)
| AInt (n : Z).

#[global] Instance any_eq_dec : EqDecision any.
Proof. solve_decision. Defined.

(** A [[]any].  A nil slice and an empty slice are both [[]]: the engine
    only ranges over and forwards slices. *)
Definition slice : Type := list any.

(** What a goroutine can panic with. *)
Inductive panic_value : Type :=
| PSendOnClosedChannel      (* runtime: send on closed channel *)
| PCloseOfClosedChannel     (* runtime: close of closed channel *)
| PUser (v : any).          (* panic(v) in user code *)

#[global] Instance panic_value_eq_dec : EqDecision panic_value.
Proof. solve_decision. Defined.

Inductive error : Type :=
| ErrCoroutineIsClosed      (* errors.New("coroutine is closed") *)
| ErrInvalidFunction        (* errors.New("invalid function") *)
| ErrDeadlineExceeded       (* the error of an expired deadline *)
| ErrRecovered (p : panic_value)  (* a recovered panic turned into an error *)
| ErrApp (msg : string).    (* an error made by user code *)

#[global] Instance error_eq_dec : EqDecision error.
Proof. solve_decision. Defined.

(** ** Status *)

Inductive Status : Type := CREATED | RUNNING | SUSPENDED | CLOSED.

#[global] Instance Status_eq_dec : EqDecision Status.
Proof. solve_decision. Defined.

(** [Status] is an [int] counted by [iota]. *)
Definition Status_code (s : Status) : Z :=
  match s with CREATED => 0 | RUNNING => 1 | SUSPENDED => 2 | CLOSED => 3 end.

Definition Status_String (s : Status) : string :=
  match s with
  | CREATED => "Created"
  | SUSPENDED => "Suspended"
  | RUNNING => "Running"
  | CLOSED => "Closed"
  end.

(** ** Channels: [make(chan []any, 1)] *)

Record chan : Type := Chan {
  buf : list slice;         (* queued messages, oldest first *)
  closed : bool
}.

#[global] Instance chan_eq_dec : EqDecision chan.
Proof. solve_decision. Defined.

Definition chan_cap : nat := 1.

Definition make_chan : chan := Chan [] false.

Inductive send_result : Type :=
| SendBlocks
| SendOk (ch : chan)
| SendPanics.

(** [ch <- v]: panics on a closed channel, blocks while the buffer is full. *)
Definition chan_send (ch : chan) (v : slice) : send_result :=
  if closed ch then SendPanics
  else if decide (length (buf ch) < chan_cap) then SendOk (Chan (buf ch ++ [v]) false)
  else SendBlocks.

(** [<-ch]: a queued message first; the zero value (a nil slice) once the
    channel is closed and drained; blocks otherwise. *)
Definition chan_recv (ch : chan) : option (slice * chan) :=
  match buf ch with
  | v :: rest => Some (v, Chan rest (closed ch))
  | [] => if closed ch then Some ([], ch) else None
  end.

(** [close(ch)]: [None] is the panic on closing twice. *)
Definition chan_close (ch : chan) : option chan :=
  if closed ch then None else Some (Chan (buf ch) true).

(** ** The handle *)

(** The struct behind a [*Coroutine].  The [function] field is only read by
    the spawned goroutine and is kept with that goroutine ([BodyTask]). *)
Record Coroutine : Type := MkCoroutine {
  status : Status;
  inputCh : chan;
  outputCh : chan
}.

#[global] Instance Coroutine_eq_dec : EqDecision Coroutine.
Proof. solve_decision. Defined.

Definition set_status (c : Coroutine) (s : Status) : Coroutine :=
  MkCoroutine s (inputCh c) (outputCh c).
Definition set_inputCh (c : Coroutine) (ch : chan) : Coroutine :=
  MkCoroutine (status c) ch (outputCh c).
Definition set_outputCh (c : Coroutine) (ch : chan) : Coroutine :=
  MkCoroutine (status c) (inputCh c) ch.

(** ** Steps of a closure *)

(** What one statement does to the shared handle. *)
Inductive action : Type :=
| AReadStatus (s : Status)
| AWriteStatus (s : Status)
| ASendOutput (v : slice)   (* c.outputCh <- v *)
| ARecvOutput (v : slice)   (* v = <-c.outputCh *)
| ASendInput (v : slice)    (* c.inputCh <- v *)
| ARecvInput (v : slice)    (* v = <-c.inputCh *)
| AFault.                   (* the statement panicked *)

#[global] Instance action_eq_dec : EqDecision action.
Proof. solve_decision. Defined.

Definition is_chan_action (a : action) : bool :=
  match a with
  | ASendOutput _ | ARecvOutput _ | ASendInput _ | ARecvInput _ => true
  | _ => false
  end.

(** The outcome of running the next statement of a closure whose local
    variables and program point are an [F]. *)
Inductive outcome (F : Type) : Type :=
| Blocked
| Goes (a : action) (c : Coroutine) (f : F)
| Returns (a : action) (c : Coroutine) (f : F) (err : option error)
| Panics (a : action) (c : Coroutine) (f : F) (v : panic_value).
Arguments Blocked {F}.
Arguments Goes {F} a c f.
Arguments Returns {F} a c f err.
Arguments Panics {F} a c f v.

(** Modelled from the spec: [safe.Do] lives in github.com/cloudlibraries/safe,
    which is not part of this repository.  It is "the panic/error-normalization
    boundary that executes a function and converts an abnormal runtime failure
    into an ordinary error value": a panic of the closure becomes the error
    result, everything else passes through. *)
Definition safe_Do {F : Type} (o : outcome F) : outcome F :=
  match o with
  | Panics a c f v => Returns a c f (Some (ErrRecovered v))
  | _ => o
  end.

(** *** Resume *)

Inductive ResumePC : Type := RSwitch | RRecv | RSend.

#[global] Instance ResumePC_eq_dec : EqDecision ResumePC.
Proof. solve_decision. Defined.

(** The variables of a [Resume] call: the argument [input], the named result
    [output] and the next statement of the closure. *)
Record ResumeFrame : Type := MkResumeFrame {
  r_input : slice;
  r_output : slice;
  r_pc : ResumePC
}.

#[global] Instance ResumeFrame_eq_dec : EqDecision ResumeFrame.
Proof. solve_decision. Defined.

Definition Resume_entry (input : slice) : ResumeFrame := MkResumeFrame input [] RSwitch.

(** The closure of [Resume], [ResumeWithContext] and [ResumeWithTimeout]:
<<
    switch c.status {
    case CLOSED:
        return ErrCoroutineIsClosed
    default:
        output = <-c.outputCh
        c.inputCh <- input
    }
    return nil
>> *)
Definition Resume_closure (c : Coroutine) (f : ResumeFrame) : outcome ResumeFrame :=
  match r_pc f with
  | RSwitch =>
      match status c with
      | CLOSED => Returns (AReadStatus CLOSED) c f (Some ErrCoroutineIsClosed)
      | st => Goes (AReadStatus st) c (MkResumeFrame (r_input f) (r_output f) RRecv)
      end
  | RRecv =>
      match chan_recv (outputCh c) with
      | None => Blocked
      | Some (v, ch) =>
          Goes (ARecvOutput v) (set_outputCh c ch) (MkResumeFrame (r_input f) v RSend)
      end
  | RSend =>
      match chan_send (inputCh c) (r_input f) with
      | SendBlocks => Blocked
      | SendOk ch => Returns (ASendInput (r_input f)) (set_inputCh c ch) f None
      | SendPanics => Panics AFault c f PSendOnClosedChannel
      end
  end.

(** [err = safe.Do(closure)]. *)
Definition Resume_step (c : Coroutine) (f : ResumeFrame) : outcome ResumeFrame :=
  safe_Do (Resume_closure c f).

(** *** Yield *)

Inductive YieldPC : Type := YSwitch | YSetSuspended | YSend | YRecv | YSetRunning.

#[global] Instance YieldPC_eq_dec : EqDecision YieldPC.
Proof. solve_decision. Defined.

(** The variables of a [Yield] call: the argument [output], the named result
    [input] and the next statement of the closure. *)
Record YieldFrame : Type := MkYieldFrame {
  y_output : slice;
  y_input : slice;
  y_pc : YieldPC
}.

#[global] Instance YieldFrame_eq_dec : EqDecision YieldFrame.
Proof. solve_decision. Defined.

Definition Yield_entry (output : slice) : YieldFrame := MkYieldFrame output [] YSwitch.

Definition y_at (f : YieldFrame) (pc : YieldPC) : YieldFrame :=
  MkYieldFrame (y_output f) (y_input f) pc.

(** The closure of [Yield], [YieldWithContext] and [YieldWithTimeout]:
<<
    switch c.status {
    case CLOSED:
        return ErrCoroutineIsClosed
    case CREATED:
        c.outputCh <- output
        input = <-c.inputCh
        c.status = RUNNING
    default:
        c.status = SUSPENDED
        c.outputCh <- output
        input = <-c.inputCh
        c.status = RUNNING
    }
    return nil
>>
    The three statements that end the [CREATED] case and the [default] case
    are the same and share their program points. *)
Definition Yield_closure (c : Coroutine) (f : YieldFrame) : outcome YieldFrame :=
  match y_pc f with
  | YSwitch =>
      match status c with
      | CLOSED => Returns (AReadStatus CLOSED) c f (Some ErrCoroutineIsClosed)
      | CREATED => Goes (AReadStatus CREATED) c (y_at f YSend)
      | st => Goes (AReadStatus st) c (y_at f YSetSuspended)
      end
  | YSetSuspended =>
      Goes (AWriteStatus SUSPENDED) (set_status c SUSPENDED) (y_at f YSend)
  | YSend =>
      match chan_send (outputCh c) (y_output f) with
      | SendBlocks => Blocked
      | SendOk ch => Goes (ASendOutput (y_output f)) (set_outputCh c ch) (y_at f YRecv)
      | SendPanics => Panics AFault c f PSendOnClosedChannel
      end
  | YRecv =>
      match chan_recv (inputCh c) with
      | None => Blocked
      | Some (v, ch) =>
          Goes (ARecvInput v) (set_inputCh c ch) (MkYieldFrame (y_output f) v YSetRunning)
      end
  | YSetRunning =>
      Returns (AWriteStatus RUNNING) (set_status c RUNNING) f None
  end.

Definition Yield_step (c : Coroutine) (f : YieldFrame) : outcome YieldFrame :=
  safe_Do (Yield_closure c f).

(** ** Entry points *)

(** User code as seen by the engine: it returns, panics, or calls
    [co.Yield(output...)] and goes on with what [Yield] returned. *)
Inductive Body (R : Type) : Type :=
| BReturn (r : R)
| BPanic (v : panic_value)
| BYield (output : slice) (k : slice -> option error -> Body R).
Arguments BReturn {R} r.
Arguments BPanic {R} v.
Arguments BYield {R} output k.

(** Run [b] and return [r] instead of its result. *)
Fixpoint Body_returning {R R' : Type} (r : R') (b : Body R) : Body R' :=
  match b with
  | BReturn _ => BReturn r
  | BPanic v => BPanic v
  | BYield output k => BYield output (fun input err => Body_returning r (k input err))
  end.

(** Parameter types that occur in the signatures below. *)
Inductive ptype : Type := PCoroutine | PVariadicAny | PInt | PString.

#[global] Instance ptype_eq_dec : EqDecision ptype.
Proof. solve_decision. Defined.

(** Dynamic types of the values handed to [Create]. *)
Inductive gotype : Type :=
| TFunc (params : list ptype) (returns_error : bool)
| TInt
| TString
| TNil.

#[global] Instance gotype_eq_dec : EqDecision gotype.
Proof. solve_decision. Defined.

(** The [v any] handed to [Create] and [Start]. *)
Inductive value : Type :=
| VFunc_Co_Args_Err (f : slice -> Body (option error)) (* func(c *Coroutine, ...any) error *)
| VFunc_Co_Args (f : slice -> Body unit)               (* func(c *Coroutine, ...any) *)
| VFunc_Co_Err (f : Body (option error))               (* func(c *Coroutine) error *)
| VFunc_Co (f : Body unit)                             (* func(c *Coroutine) *)
| VFunc_Err (f : Body (option error))                  (* func() error *)
| VFunc (f : Body unit)                                (* func() *)
| VFunc_Int_String                                     (* some func(int, string) *)
| VFunc_String_Err                                     (* some func(string) error *)
| VInt (n : Z)
| VString (s : string)
| VNil.

Definition type_of (v : value) : gotype :=
  match v with
  | VFunc_Co_Args_Err _ => TFunc [PCoroutine; PVariadicAny] true
  | VFunc_Co_Args _ => TFunc [PCoroutine; PVariadicAny] false
  | VFunc_Co_Err _ => TFunc [PCoroutine] true
  | VFunc_Co _ => TFunc [PCoroutine] false
  | VFunc_Err _ => TFunc [] true
  | VFunc _ => TFunc [] false
  | VFunc_Int_String => TFunc [PInt; PString] false
  | VFunc_String_Err => TFunc [PString] true
  | VInt _ => TInt
  | VString _ => TString
  | VNil => TNil
  end.

(** The six shapes of the interface: [(Handle, ...args) error],
    [(Handle, ...args)], [(Handle) error], [(Handle)], [() error], [()]. *)
Definition supported_shapes : list gotype :=
  [ TFunc [PCoroutine; PVariadicAny] true;
    TFunc [PCoroutine; PVariadicAny] false;
    TFunc [PCoroutine] true;
    TFunc [PCoroutine] false;
    TFunc [] true;
    TFunc [] false ].

(** The type switch of [Create]: the [func(c *Coroutine, ...any) error] stored
    in [c.function], or [None] for the [default] case. *)
Definition normalize (v : value) : option (slice -> Body (option error)) :=
  match v with
  | VFunc_Co_Args_Err f => Some f
  | VFunc_Co_Args f => Some (fun args => Body_returning None (f args))
  | VFunc_Co_Err f => Some (fun _ => f)
  | VFunc_Co f => Some (fun _ => Body_returning None f)
  | VFunc_Err f => Some (fun _ => f)
  | VFunc f => Some (fun _ => Body_returning None f)
  | _ => None
  end.

(** ** The goroutine spawned by [Create] *)

(** How the function given to [safe.Do] ended. *)
Inductive exit : Type :=
| ExitReturn (err : option error)
| ExitPanic (v : panic_value).

Definition exit_error (r : exit) : option error :=
  match r with
  | ExitReturn err => err
  | ExitPanic v => Some (ErrRecovered v)
  end.

(** Program points of
<<
    go safe.Do(func() error {
        defer func() {
            c.status = CLOSED
            close(c.inputCh)
            close(c.outputCh)
        }()
        input, err := c.Yield()
        if err != nil {
            return err
        }
        return c.function(c, input...)
    })
>>
    [BodyDone err] holds what [safe.Do] returned; the [go] statement drops it. *)
Inductive BodyTask : Type :=
| InYield (f : YieldFrame) (k : slice -> option error -> Body (option error))
| DeferStatus (r : exit)
| DeferCloseInput (r : exit)
| DeferCloseOutput (r : exit)
| BodyDone (err : option error).

(** User code runs up to its next [Yield], its return or its panic. *)
Definition run_body (b : Body (option error)) : BodyTask :=
  match b with
  | BReturn err => DeferStatus (ExitReturn err)
  | BPanic v => DeferStatus (ExitPanic v)
  | BYield output k => InYield (Yield_entry output) k
  end.

Definition spawn (function : slice -> Body (option error)) : BodyTask :=
  InYield (Yield_entry [])
    (fun input err =>
       match err with
       | Some e => BReturn (Some e)
       | None => function input
       end).

(** [Create]: the handle and the spawned goroutine with a nil error, or no
    handle and [ErrInvalidFunction]. *)
Definition Create (v : value) : option (Coroutine * BodyTask) * option error :=
  match normalize v with
  | Some function => (Some (MkCoroutine CREATED make_chan make_chan, spawn function), None)
  | None => (None, Some ErrInvalidFunction)
  end.

(** ** The controller *)

(** A goroutine holding the handle: it resumes, with or without a timeout,
    and goes on with what the call returned, until it returns an error
    value of its own. *)
Inductive Ctl : Type :=
| CReturn (err : option error)
| CResume (input : slice) (k : slice -> option error -> Ctl)
| CResumeWithTimeout (input : slice) (k : slice -> option error -> Ctl).

(** Modelled from the spec: [safe.DoWithTimeout] lives in
    github.com/cloudlibraries/safe, which is not part of this repository.  It
    "races the channel operation against a timer": the closure runs under
    [safe.Do] on a goroutine of its own while the caller waits for its error
    or for the timer, and returns the deadline error when the timer wins.  A
    goroutine blocked on a channel cannot be stopped, so a closure that lost
    the race stays ([zombies] below).  The duration is abstracted: the timer
    may fire at any moment of the wait. *)
Inductive CtlTask : Type :=
| CtlDone (err : option error)
| CtlCrashed (v : panic_value)          (* an unrecovered panic reached the caller *)
| InResume (f : ResumeFrame) (k : slice -> option error -> Ctl)
| InTimed (f : ResumeFrame) (k : slice -> option error -> Ctl)
| InTimedDone (f : ResumeFrame) (err : option error) (k : slice -> option error -> Ctl).

Definition run_ctl (p : Ctl) : CtlTask :=
  match p with
  | CReturn err => CtlDone err
  | CResume input k => InResume (Resume_entry input) k
  | CResumeWithTimeout input k => InTimed (Resume_entry input) k
  end.

(** ** The system *)

Inductive event : Type :=
| EvAction (a : action)
| EvResume (output : slice) (err : option error)   (* a Resume call returned *)
| EvYield (input : slice) (err : option error).    (* a Yield call returned *)

#[global] Instance event_eq_dec : EqDecision event.
Proof. solve_decision. Defined.

Record State : Type := MkState {
  co : Coroutine;
  body : BodyTask;
  ctl : CtlTask;
  zombies : list ResumeFrame;     (* closures of timed-out resumes *)
  trace : list event
}.

Definition system (c : Coroutine) (b : BodyTask) (p : Ctl) : State :=
  MkState c b (run_ctl p) [] [EvAction (AWriteStatus CREATED)].

(** Who moves next. *)
Inductive task : Type := TBody | TCtl | TTimer | TZombie (i : nat).

Definition step_body (s : State) : option State :=
  match body s with
  | InYield f k =>
      match Yield_step (co s) f with
      | Blocked => None
      | Goes a c f' =>
          Some (MkState c (InYield f' k) (ctl s) (zombies s) (trace s ++ [EvAction a]))
      | Returns a c f' err =>
          Some (MkState c (run_body (k (y_input f') err)) (ctl s) (zombies s)
                  (trace s ++ [EvAction a; EvYield (y_input f') err]))
      | Panics a c f' v =>
          Some (MkState c (DeferStatus (ExitPanic v)) (ctl s) (zombies s)
                  (trace s ++ [EvAction a]))
      end
  | DeferStatus r =>
      Some (MkState (set_status (co s) CLOSED) (DeferCloseInput r) (ctl s) (zombies s)
              (trace s ++ [EvAction (AWriteStatus CLOSED)]))
  | DeferCloseInput r =>
      match chan_close (inputCh (co s)) with
      | Some ch =>
          Some (MkState (set_inputCh (co s) ch) (DeferCloseOutput r) (ctl s) (zombies s) (trace s))
      | None =>
          Some (MkState (co s) (BodyDone (Some (ErrRecovered PCloseOfClosedChannel)))
                  (ctl s) (zombies s) (trace s ++ [EvAction AFault]))
      end
  | DeferCloseOutput r =>
      match chan_close (outputCh (co s)) with
      | Some ch =>
          Some (MkState (set_outputCh (co s) ch) (BodyDone (exit_error r)) (ctl s) (zombies s)
                  (trace s))
      | None =>
          Some (MkState (co s) (BodyDone (Some (ErrRecovered PCloseOfClosedChannel)))
                  (ctl s) (zombies s) (trace s ++ [EvAction AFault]))
      end
  | BodyDone _ => None
  end.

Definition step_ctl (s : State) : option State :=
  match ctl s with
  | InResume f k =>
      match Resume_step (co s) f with
      | Blocked => None
      | Goes a c f' =>
          Some (MkState c (body s) (InResume f' k) (zombies s) (trace s ++ [EvAction a]))
      | Returns a c f' err =>
          Some (MkState c (body s) (run_ctl (k (r_output f') err)) (zombies s)
                  (trace s ++ [EvAction a; EvResume (r_output f') err]))
      | Panics a c f' v =>
          Some (MkState c (body s) (CtlCrashed v) (zombies s) (trace s ++ [EvAction a]))
      end
  | InTimed f k =>
      match Resume_step (co s) f with
      | Blocked => None
      | Goes a c f' =>
          Some (MkState c (body s) (InTimed f' k) (zombies s) (trace s ++ [EvAction a]))
      | Returns a c f' err =>
          Some (MkState c (body s) (InTimedDone f' err k) (zombies s) (trace s ++ [EvAction a]))
      | Panics a c f' v =>
          Some (MkState c (body s) (CtlCrashed v) (zombies s) (trace s ++ [EvAction a]))
      end
  | InTimedDone f err k =>
      Some (MkState (co s) (body s) (run_ctl (k (r_output f) err)) (zombies s)
              (trace s ++ [EvResume (r_output f) err]))
  | CtlDone _ | CtlCrashed _ => None
  end.

(** The timer of a pending [ResumeWithTimeout] fires: the call returns the
    current [output] with the deadline error and leaves its closure behind. *)
Definition step_timer (s : State) : option State :=
  match ctl s with
  | InTimed f k =>
      Some (MkState (co s) (body s) (run_ctl (k (r_output f) (Some ErrDeadlineExceeded)))
              (zombies s ++ [f]) (trace s ++ [EvResume (r_output f) (Some ErrDeadlineExceeded)]))
  | InTimedDone f _ k =>
      Some (MkState (co s) (body s) (run_ctl (k (r_output f) (Some ErrDeadlineExceeded)))
              (zombies s) (trace s ++ [EvResume (r_output f) (Some ErrDeadlineExceeded)]))
  | _ => None
  end.

Definition step_zombie (i : nat) (s : State) : option State :=
  match zombies s !! i with
  | None => None
  | Some f =>
      match Resume_step (co s) f with
      | Blocked => None
      | Goes a c f' =>
          Some (MkState c (body s) (ctl s) (<[i:=f']> (zombies s)) (trace s ++ [EvAction a]))
      | Returns a c f' err =>
          Some (MkState c (body s) (ctl s) (delete i (zombies s)) (trace s ++ [EvAction a]))
      | Panics a c f' v =>
          Some (MkState c (body s) (CtlCrashed v) (delete i (zombies s)) (trace s ++ [EvAction a]))
      end
  end.

Definition step (t : task) (s : State) : option State :=
  match t with
  | TBody => step_body s
  | TCtl => step_ctl s
  | TTimer => step_timer s
  | TZombie i => step_zombie i s
  end.

(** Run a schedule; [None] when a scheduled task cannot move. *)
Fixpoint run (sched : list task) (s : State) : option State :=
  match sched with
  | [] => Some s
  | t :: sched' =>
      match step t s with
      | Some s' => run sched' s'
      | None => None
      end
  end.

(** [Create(v)] followed by the controller [p]. *)
Definition launch (v : value) (p : Ctl) : State + error :=
  match Create v with
  | (Some (c, b), _) => inl (system c b p)
  | (None, Some e) => inr e
  | (None, None) => inr ErrInvalidFunction
  end.

(** [Start]:
<<
    c, err := Create(v)
    if err != nil {
        return err
    }
    _, err = c.Resume(nil)
    return err
>>
    [c.Resume(nil)] passes one argument to the variadic [input ...any]: the
    slice is [[]any{nil}]. *)
Definition Start (v : value) : State + error :=
  launch v (CResume [ANil] (fun _ err => CReturn err)).

(** The logs read off the trace. *)
Definition ev_status (e : event) : option Status :=
  match e with EvAction (AWriteStatus st) => Some st | _ => None end.
Definition ev_resume (e : event) : option (slice * option error) :=
  match e with EvResume o err => Some (o, err) | _ => None end.
Definition ev_yield (e : event) : option (slice * option error) :=
  match e with EvYield i err => Some (i, err) | _ => None end.
Definition ev_sent (e : event) : option slice :=
  match e with EvAction (ASendInput v) => Some v | _ => None end.

(** The statuses written to [c.status], oldest first. *)
Definition status_log (s : State) : list Status := omap ev_status (trace s).
(** What the [Resume] calls of the controller returned. *)
Definition resume_log (s : State) : list (slice * option error) := omap ev_resume (trace s).
(** What the [Yield] calls of the body returned. *)
Definition yield_log (s : State) : list (slice * option error) := omap ev_yield (trace s).
(** The inputs that [Resume] calls put on [c.inputCh]. *)
Definition sent_log (s : State) : list slice := omap ev_sent (trace s).

(** ** A call seen from its own goroutine *)

(** The actions of a [Yield] call from a program point to its return.  The
    handle met by each statement is whatever the other goroutines made of it
    in the meantime. *)
Inductive Yield_exec : YieldFrame -> list action -> YieldFrame -> option error -> Prop :=
| Yield_exec_return c f a c' f' err :
    Yield_step c f = Returns a c' f' err ->
    Yield_exec f [a] f' err
| Yield_exec_go c f a c' f1 acts f' err :
    Yield_step c f = Goes a c' f1 ->
    Yield_exec f1 acts f' err ->
    Yield_exec f (a :: acts) f' err.

(** A [Yield] call run with no other goroutine in between; [None] when it
    blocks or the fuel runs out. *)
Fixpoint Yield_alone (fuel : nat) (c : Coroutine) (f : YieldFrame)
  : option (list action * Coroutine * YieldFrame * option error) :=
  match fuel with
  | 0 => None
  | S fuel' =>
      match Yield_step c f with
      | Blocked => None
      | Goes a c' f' =>
          match Yield_alone fuel' c' f' with
          | Some (acts, c'', f'', err) => Some (a :: acts, c'', f'', err)
          | None => None
          end
      | Returns a c' f' err => Some ([a], c', f', err)
      | Panics _ _ _ _ => None
      end
  end.

(** ** Status sequences *)

(** [(Suspended, Running)] repeated [n] times. *)
Fixpoint cycles (n : nat) : list Status :=
  match n with
  | 0 => []
  | S n' => SUSPENDED :: RUNNING :: cycles n'
  end.

(** [Created, Running, (Suspended, Running)^n, Closed]. *)
Definition lifecycle (n : nat) : list Status :=
  CREATED :: RUNNING :: cycles n ++ [CLOSED].

(** ** Invariants of the handoff *)

(** A resume that took an output and has not handed its input over yet. *)
Definition holding (f : ResumeFrame) : nat :=
  match r_pc f with RSend => 1 | _ => 0 end.

Definition ctl_holding (t : CtlTask) : nat :=
  match t with
  | InResume f _ | InTimed f _ => holding f
  | _ => 0
  end.

Definition resumers_holding (s : State) : nat :=
  ctl_holding (ctl s) + sum_list_with holding (zombies s).

(** The input a [Yield] took from the channel and has not returned yet. *)
Definition received (b : BodyTask) : list slice :=
  match b with
  | InYield f _ => match y_pc f with YSetRunning => [y_input f] | _ => [] end
  | _ => []
  end.

Definition living_log (l : list Status) : Prop :=
  exists n, l = CREATED :: RUNNING :: cycles n.
Definition suspended_log (l : list Status) : Prop :=
  exists n, l = CREATED :: RUNNING :: cycles n ++ [SUSPENDED].
Definition closed_log (l : list Status) : Prop :=
  exists n, l = lifecycle n.

(** Where the body's goroutine stands fixes the status, the statuses written
    so far and which channels are closed. *)
Definition phase_at (c : Coroutine) (b : BodyTask) (stl : list Status) : Prop :=
  match b with
  | InYield f _ =>
      closed (inputCh c) = false /\ closed (outputCh c) = false /\
      match y_pc f with
      | YSwitch =>
          (status c = CREATED /\ stl = [CREATED]) \/ (status c = RUNNING /\ living_log stl)
      | YSetSuspended => status c = RUNNING /\ living_log stl
      | _ =>
          (status c = CREATED /\ stl = [CREATED]) \/ (status c = SUSPENDED /\ suspended_log stl)
      end
  | DeferStatus _ =>
      closed (inputCh c) = false /\ closed (outputCh c) = false /\
      status c = RUNNING /\ living_log stl
  | DeferCloseInput _ =>
      closed (inputCh c) = false /\ closed (outputCh c) = false /\
      status c = CLOSED /\ closed_log stl
  | DeferCloseOutput _ =>
      closed (inputCh c) = true /\ closed (outputCh c) = false /\
      status c = CLOSED /\ closed_log stl
  | BodyDone _ =>
      closed (inputCh c) = true /\ closed (outputCh c) = true /\
      status c = CLOSED /\ closed_log stl
  end.

(** One message at most is on its way, and only while the body waits for
    its input: it sits in the output channel, with a resume, or in the input
    channel.  [K] counts the resumes that hold it. *)
Definition tokens_at (c : Coroutine) (b : BodyTask) (K : nat) : Prop :=
  match b with
  | InYield f _ =>
      length (buf (outputCh c)) + length (buf (inputCh c)) + K =
      match y_pc f with YRecv => 1 | _ => 0 end
  | BodyDone _ => buf (inputCh c) = [] /\ buf (outputCh c) = []
  | _ => length (buf (outputCh c)) + length (buf (inputCh c)) + K = 0
  end.

(** The inputs sent are the inputs returned by [Yield], then the one taken
    and not yet returned, then the one still in the channel; no [Yield]
    returned an error. *)
Definition fifo_at (c : Coroutine) (b : BodyTask) (snt : list slice)
    (yl : list (slice * option error)) : Prop :=
  snt = yl.*1 ++ received b ++ buf (inputCh c) /\ Forall (fun r => r.2 = None) yl.

Definition handoff_inv (s : State) : Prop :=
  phase_at (co s) (body s) (status_log s) /\
  tokens_at (co s) (body s) (resumers_holding s) /\
  fifo_at (co s) (body s) (sent_log s) (yield_log s).

(** ** Exploring a concrete system *)

#[global] Instance exit_eq_dec : EqDecision exit.
Proof. solve_decision. Defined.

(** A state without its continuations, which have no decidable equality. *)
Definition body_shape (b : BodyTask) : nat * option YieldFrame * option exit * option error :=
  match b with
  | InYield f _ => (0, Some f, None, None)
  | DeferStatus r => (1, None, Some r, None)
  | DeferCloseInput r => (2, None, Some r, None)
  | DeferCloseOutput r => (3, None, Some r, None)
  | BodyDone e => (4, None, None, e)
  end.

Definition ctl_shape (t : CtlTask)
  : nat * option ResumeFrame * option error * option panic_value :=
  match t with
  | CtlDone e => (0, None, e, None)
  | CtlCrashed v => (1, None, None, Some v)
  | InResume f _ => (2, Some f, None, None)
  | InTimed f _ => (3, Some f, None, None)
  | InTimedDone f e _ => (4, Some f, e, None)
  end.

(** What a state is made of, the trace cut down to what the calls returned. *)
Record View : Type := MkView {
  v_co : Coroutine;
  v_body : BodyTask;
  v_ctl : CtlTask;
  v_zombies : list ResumeFrame;
  v_resumes : list (slice * option error);
  v_yields : list (slice * option error)
}.

Definition view (s : State) : View :=
  MkView (co s) (body s) (ctl s) (zombies s) (resume_log s) (yield_log s).

Definition same_view (s1 s2 : State) : bool :=
  bool_decide
    ((co s1, body_shape (body s1), ctl_shape (ctl s1), zombies s1, resume_log s1, yield_log s1)
   = (co s2, body_shape (body s2), ctl_shape (ctl s2), zombies s2, resume_log s2, yield_log s2)).

Definition tasks_of (s : State) : list task :=
  [TBody; TCtl; TTimer] ++ (TZombie <$> seq 0 (length (zombies s))).

Definition successors (s : State) : list State :=
  omap (fun t => step t s) (tasks_of s).

Fixpoint add_new (seen : list State) (cands : list State) : list State :=
  match cands with
  | [] => []
  | s :: rest =>
      if existsb (same_view s) seen then add_new seen rest
      else s :: add_new (seen ++ [s]) rest
  end.

(** Breadth-first search; it only proposes the set that is then proved
    closed under [step]. *)
Fixpoint explore (fuel : nat) (seen frontier : list State) : list State :=
  match fuel with
  | 0 => seen
  | S fuel' =>
      match add_new seen (concat (successors <$> frontier)) with
      | [] => seen
      | new => explore fuel' (seen ++ new) new
      end
  end.

(** Both goroutines are through. *)
Definition finished (s : State) : bool :=
  match ctl s, body s with
  | CtlDone _, BodyDone _ => true
  | _, _ => false
  end.

(** ** The scenario of [TestCreate] *)

(** The handle that [Create] makes. *)
Definition created : Coroutine := MkCoroutine CREATED make_chan make_chan.

(** The body of the test: it yields ["Hello"], hands an error of [Yield]
    on, and returns nil. *)
Definition HelloWorld_function : slice -> Body (option error) :=
  fun _ =>
    BYield [AStr "Hello"] (fun output err =>
      match err with
      | Some e => BReturn (Some e)
      | None => BReturn None
      end).

Definition HelloWorld : value := VFunc_Co_Args_Err HelloWorld_function.

(** The test itself: [co.Resume()], then [co.Resume("World")]; a failed
    assertion on [err] stops it. *)
Definition HelloWorld_controller : Ctl :=
  CResume [] (fun _ err =>
    match err with
    | Some e => CReturn (Some e)
    | None => CResume [AStr "World"] (fun _ err' => CReturn err')
    end).

Definition HelloWorld_system : State :=
  system created (spawn HelloWorld_function) HelloWorld_controller.

Definition HelloWorld_views : list View :=
  Eval vm_compute in view <$> explore 100 [HelloWorld_system] [HelloWorld_system].

(** One schedule that runs the scenario to its end. *)
Definition HelloWorld_schedule : list task :=
  [TBody; TBody; TCtl; TCtl; TCtl; TBody; TBody; TBody; TBody; TBody;
   TCtl; TCtl; TCtl; TBody; TBody; TBody; TBody; TBody].

(** ** A timed resume that expires *)

Definition Patient_controller : Ctl :=
  CResumeWithTimeout [] (fun _ _ => CResume [] (fun _ err => CReturn err)).

Definition Patient_system : State :=
  system created (spawn HelloWorld_function) Patient_controller.

(** The timer fires at once; then the body starts and the next [Resume]
    goes through. *)
Definition Patient_schedule : list task :=
  [TTimer; TBody; TBody; TCtl; TCtl; TCtl].

(** ** A body that fails *)

(** [func() error { return errors.New("boom") }] *)
Definition Failing : value := VFunc_Err (BReturn (Some (ErrApp "boom"))).

Definition Twice_controller : Ctl :=
  CResume [] (fun _ _ => CResume [] (fun _ err => CReturn err)).

Definition Failing_system : State :=
  system created (spawn (fun _ => BReturn (Some (ErrApp "boom")))) Twice_controller.

(** The second [Resume] is waiting for an output when the body ends. *)
Definition Failing_schedule : list task :=
  [TBody; TBody; TCtl; TCtl; TCtl; TBody; TCtl; TBody; TBody; TBody; TBody; TCtl; TCtl].



(** ** Start, as the interface describes it *)

(** The interface's [Start]: [Create], then one [Resume] with no arguments.
    It follows the words of the specification and is what [Start] is
    compared with. *)
Definition Start_spec (v : value) : State + error :=
  launch v (CResume [] (fun _ err => CReturn err)).

Definition NoArguments_function : slice -> Body (option error) :=
  fun args =>
    match args with
    | [] => BReturn None
    | _ => BReturn (Some (ErrApp "unexpected arguments"))
    end.

(** A body that refuses arguments:
    [func(co *Coroutine, args ...any) error] returning an error when
    [len(args) != 0]. *)
Definition NoArguments : value := VFunc_Co_Args_Err NoArguments_function.

Definition Start_schedule : list task :=
  [TBody; TBody; TCtl; TCtl; TCtl; TBody; TBody; TBody; TBody; TBody].

(** ** The registry variant *)

Module Registry.

(** [StatusType] is a string. *)
Definition Created : string := "Created".
Definition Suspended : string := "Suspended".
Definition Running : string := "Running".
Definition Dead : string := "Dead".

(** The struct of the registry variant, without its two mutexes. *)
Record Coroutine : Type := MkCoroutine {
  id : string;
  status : string;
  inCh : chan;
  outCh : chan
}.

(** Which case of a [select] ran: the channel operation, or
    [<-time.After(expire seconds)]. *)
Inductive select_case : Type := CaseChannel | CaseTimer.

Inductive resume_pc : Type :=
| ResumeRecv
| ResumeSend (outData : slice).

Inductive resume_outcome : Type :=
| ResumeBlocked
| ResumeGoes (c : Coroutine) (pc : resume_pc)
| ResumeReturns (c : Coroutine) (outData : slice)
| ResumePanics (c : Coroutine) (msg : string).

(** [func (c *Coroutine) resume(inData)]: two [select]s, each racing a
    channel operation against the timer, whose case panics. *)
Definition resume (which : select_case) (c : Coroutine) (inData : slice)
    (pc : resume_pc) : resume_outcome :=
  match which with
  | CaseTimer => ResumePanics c "coroutine suspended timeout"
  | CaseChannel =>
      match pc with
      | ResumeRecv =>
          match chan_recv (outCh c) with
          | Some (v, ch) => ResumeGoes (MkCoroutine (id c) (status c) (inCh c) ch) (ResumeSend v)
          | None => ResumeBlocked
          end
      | ResumeSend outData =>
          match chan_send (inCh c) inData with
          | SendOk ch => ResumeReturns (MkCoroutine (id c) (status c) ch (outCh c)) outData
          | SendBlocks => ResumeBlocked
          | SendPanics => ResumePanics c "send on closed channel"
          end
      end
  end.

End Registry.

(** ** More on the handle *)

Definition ev_yielded (e : event) : option slice :=
  match e with EvAction (ASendOutput v) => Some v | _ => None end.
Definition ev_taken (e : event) : option slice :=
  match e with EvAction (ARecvOutput v) => Some v | _ => None end.

(** The outputs that [Yield] calls put on [c.outputCh]. *)
Definition yielded_log (s : State) : list slice := omap ev_yielded (trace s).
(** What the [Resume] closures got from [c.outputCh]. *)
Definition taken_log (s : State) : list slice := omap ev_taken (trace s).

(** The outputs taken, then the one still in the channel, are the outputs
    yielded, then one nil slice for each receive from the closed channel. *)
Definition outputs_at (s : State) : Prop :=
  exists m, taken_log s ++ buf (outputCh (co s)) = yielded_log s ++ replicate m [] /\
            (closed (outputCh (co s)) = false -> m = 0).

(** Until the first [Resume] of the controller has returned, the body is in
    the [Yield] that its goroutine starts with. *)
Definition first_resume_at (s : State) : Prop :=
  match resume_log s with
  | [] =>
      exists f k fy kb, ctl s = InResume f k /\ zombies s = [] /\ body s = InYield fy kb /\
        y_output fy = [] /\ (y_pc fy = YSwitch \/ y_pc fy = YSend \/ y_pc fy = YRecv) /\
        status (co s) = CREATED /\
        closed (inputCh (co s)) = false /\ buf (inputCh (co s)) = [] /\
        closed (outputCh (co s)) = false /\ Forall (fun o => o = []) (buf (outputCh (co s))) /\
        (r_pc f = RSend -> r_output f = [])
  | r :: _ => r = ([], None)
  end.

(** The controller of [Start] is in its [Resume], or has returned what the
    [Resume] returned. *)
Definition Start_at (s : State) : Prop :=
  (exists f, ctl s = InResume f (fun _ err => CReturn err) /\ resume_log s = []) \/
  (exists o err, ctl s = CtlDone err /\ resume_log s = [(o, err)]).

(** The body reaches the send of its first [Yield], the [Resume] goes through. *)
Definition First_schedule : list task := [TBody; TBody; TCtl; TCtl; TCtl].

(** A controller that never resumes with a timeout. *)
Inductive untimed : Ctl -> Prop :=
| untimed_return err : untimed (CReturn err)
| untimed_resume input k : (forall o e, untimed (k o e)) -> untimed (CResume input k).

Definition ctl_untimed (t : CtlTask) : Prop :=
  match t with
  | CtlDone _ => True
  | InResume _ k => forall o e, untimed (k o e)
  | _ => False
  end.

(** ** The names of the statuses *)

(** [var statusStringMap = map[Status]string{...}], keyed by the [int]
    behind a [Status]. *)
Definition statusStringMap : gmap Z string :=
  {[ Status_code CREATED := "Created";
     Status_code SUSPENDED := "Suspended";
     Status_code RUNNING := "Running";
     Status_code CLOSED := "Closed" ]}.

(** [func (s Status) String() string] on any [int], a [Status] constant or
    not: the entry of the map, or [fmt.Sprintf("Unknown Status: %d", s)]. *)
Definition Status_String_int (s : Z) : string :=
  match statusStringMap !! s with
  | Some v => v
  | None => "Unknown Status: " +:+ pretty s
  end.

(** ** The calls of the registry variant *)

Module Calls.

Import Registry.

Definition ID : Type := string.

(** What was given to [panic]: an error made with [fmt.Errorf], or a value
    of user code. *)
Inductive thrown : Type :=
| ThrownError (e : error)
| ThrownValue (v : any).

(** Modelled from its use: [cast.ToError] lives in
    github.com/cloudlibraries/cast, which is not part of this repository.  An
    error stays what it is; any other value becomes an error that holds it. *)
Definition ToError (t : thrown) : error :=
  match t with
  | ThrownError e => e
  | ThrownValue v => ErrRecovered (PUser v)
  end.

(** The two channels of a [*Coroutine]. *)
Inductive chan_of : Type := InCh (c : nat) | OutCh (c : nat).

(** How a [select] between a send and the timer ended: the value is in the
    channel, the timer won, or the channel was closed and the send panicked. *)
Inductive sending : Type := Sent | TimerWon | ClosedChannel.

(** Code of the package and of its users, as the statements that touch the
    shared memory, each with what runs after it, a panic of the statement
    included.  A [*Coroutine] is the address of its struct.  [c.mutexStatus]
    is held for a single read or write of [c.status], so that [GetStatus] and
    [SetStatus] are one step each.  The two [select] statements race a
    channel against [time.After(expire seconds)]; their result says which
    case ran. *)
Inductive Prog (R : Type) : Type :=
| Ret (r : R)                                             (* return r *)
| Throw (t : thrown)                                      (* panic(t) *)
| MapLoad (id : ID) (k : option nat -> Prog R)            (* coroutines.Load(id) *)
| MapStore (id : ID) (c : nat) (k : Prog R)               (* coroutines.Store(id, c) *)
| MapDelete (id : ID) (k : Prog R)                        (* coroutines.Delete(id) *)
| New (c : Coroutine) (fn : ID -> slice -> Prog (option error)) (k : nat -> Prog R)
                                                          (* &Coroutine{...} *)
| GetId (c : nat) (k : ID -> Prog R)                      (* c.id *)
| GetStatus (c : nat) (k : string -> Prog R)              (* c.status under mutexStatus *)
| SetStatus (c : nat) (s : string) (k : Prog R)           (* c.status = s under mutexStatus *)
| Lock (c : nat) (k : Prog R)                             (* c.mutexResume.Lock() *)
| Unlock (c : nat) (k : Prog R)                           (* c.mutexResume.Unlock() *)
| SelectRecv (ch : chan_of) (k : option slice -> Prog R)  (* case v = <-ch, or the timer *)
| SelectSend (ch : chan_of) (v : slice) (k : sending -> Prog R)  (* case ch <- v, or the timer *)
| CallFn (c : nat) (id : ID) (args : slice) (k : option error + thrown -> Prog R)
                                                          (* c.fn(id, args...) *)
| Go (p : Prog unit) (k : Prog R)                         (* go p *)
| MakeErrCh (k : nat -> Prog R)                           (* make(chan error, 1) *)
| SendErr (ch : nat) (e : error) (k : Prog R).            (* ch <- e *)
Arguments Ret {R} r.
Arguments Throw {R} t.
Arguments MapLoad {R} id k.
Arguments MapStore {R} id c k.
Arguments MapDelete {R} id k.
Arguments New {R} c fn k.
Arguments GetId {R} c k.
Arguments GetStatus {R} c k.
Arguments SetStatus {R} c s k.
Arguments Lock {R} c k.
Arguments Unlock {R} c k.
Arguments SelectRecv {R} ch k.
Arguments SelectSend {R} ch v k.
Arguments CallFn {R} c id args k.
Arguments Go {R} p k.
Arguments MakeErrCh {R} k.
Arguments SendErr {R} ch e k.

(** Run [p], then [k] on how it ended: its result, or the value of its
    panic. *)
Fixpoint handle {A B : Type} (p : Prog A) (k : A + thrown -> Prog B) : Prog B :=
  match p with
  | Ret r => k (inl r)
  | Throw t => k (inr t)
  | MapLoad id k' => MapLoad id (fun v => handle (k' v) k)
  | MapStore id c k' => MapStore id c (handle k' k)
  | MapDelete id k' => MapDelete id (handle k' k)
  | New c fn k' => New c fn (fun a => handle (k' a) k)
  | GetId c k' => GetId c (fun i => handle (k' i) k)
  | GetStatus c k' => GetStatus c (fun s => handle (k' s) k)
  | SetStatus c s k' => SetStatus c s (handle k' k)
  | Lock c k' => Lock c (handle k' k)
  | Unlock c k' => Unlock c (handle k' k)
  | SelectRecv ch k' => SelectRecv ch (fun v => handle (k' v) k)
  | SelectSend ch v k' => SelectSend ch v (fun r => handle (k' r) k)
  | CallFn c id args k' => CallFn c id args (fun o => handle (k' o) k)
  | Go q k' => Go q (handle k' k)
  | MakeErrCh k' => MakeErrCh (fun ch => handle (k' ch) k)
  | SendErr ch e k' => SendErr ch e (handle k' k)
  end.

Definition ended {A : Type} (o : A + thrown) : Prog A :=
  match o with
  | inl r => Ret r
  | inr t => Throw t
  end.

(** [p; f]: a panic of [p] goes past [f]. *)
Definition bind {A B : Type} (p : Prog A) (f : A -> Prog B) : Prog B :=
  handle p (fun o => match o with inl r => f r | inr t => Throw t end).

#[global] Instance Prog_ret : MRet Prog := @Ret.
#[global] Instance Prog_bind : MBind Prog := fun A B f p => bind p f.

(** [defer cleanup()] before [p]: [cleanup] runs when [p] returns and when
    it panics, and the panic goes on after it. *)
Definition finally {A : Type} (p : Prog A) (cleanup : Prog unit) : Prog A :=
  handle p (fun o => bind cleanup (fun _ => ended o)).

(** [defer func() { if v := recover(); v != nil { ... } }()] before [p]. *)
Definition catch {A : Type} (p : Prog A) (recovered : thrown -> Prog A) : Prog A :=
  handle p (fun o => match o with inl r => Ret r | inr t => recovered t end).

(** *** The package *)

Definition Coroutine_String (c : nat) : Prog string :=
  GetId c (fun i => Ret ("[" +:+ i +:+ "]")).

Definition findCoroutine (id : ID) : Prog nat :=
  MapLoad id (fun v =>
    match v with
    | None => Throw (ThrownError (ErrApp ("coroutine missing: [" +:+ id +:+ "]")))
    | Some c => Ret c
    end).

Definition writeSyncStatus (c : nat) (status : string) : Prog unit :=
  SetStatus c status (Ret tt).

Definition readSyncStatus (c : nat) : Prog string :=
  GetStatus c Ret.

(** The panic of the runtime when a send meets a closed channel. *)
Definition send_on_closed : thrown :=
  ThrownError (ErrApp "send on closed channel").

(** [panic(fmt.Errorf("coroutine suspended timeout: %v", c))] *)
Definition suspended_timeout {A : Type} (c : nat) : Prog A :=
  s ← Coroutine_String c;
  Throw (ThrownError (ErrApp ("coroutine suspended timeout: " +:+ s))).

Definition resume (c : nat) (inData : slice) : Prog slice :=
  SelectRecv (OutCh c) (fun r =>
    match r with
    | None => suspended_timeout c
    | Some outData =>
        SelectSend (InCh c) inData (fun r =>
          match r with
          | Sent => Ret outData
          | TimerWon => suspended_timeout c
          | ClosedChannel => Throw send_on_closed
          end)
    end).

Definition yield (c : nat) (outData : slice) : Prog slice :=
  SelectSend (OutCh c) outData (fun r =>
    match r with
    | Sent =>
        SelectRecv (InCh c) (fun r =>
          match r with
          | Some inData => Ret inData
          | None => writeSyncStatus c Dead;; suspended_timeout c
          end)
    | TimerWon => writeSyncStatus c Dead;; suspended_timeout c
    | ClosedChannel => Throw send_on_closed
    end).

(** The identifier that [uuid.NewV4().String()] made is the argument [id]. *)
Definition Wrap (id : ID) (fn : ID -> slice -> Prog (option error)) : Prog ID :=
  c ← New (MkCoroutine id Created make_chan make_chan) fn Ret;
  MapStore id c (Ret tt);;
  Ret id.

Definition Call (id : ID) (args : slice) : Prog (option error) :=
  c ← findCoroutine id;
  writeSyncStatus c Running;;
  catch
    (finally (CallFn c id args ended) (MapDelete id (Ret tt)))
    (fun v => Ret (Some (ToError v))).

Definition Start (id : ID) (fn : ID -> Prog (option error)) : Prog (option error) :=
  id ← Wrap id (fun id _ => fn id);
  Call id [].

Definition Yield (id : ID) (outData : slice) : Prog slice :=
  c ← findCoroutine id;
  writeSyncStatus c Suspended;;
  inData ← yield c outData;
  writeSyncStatus c Running;;
  Ret inData.

Definition Create (id : ID) (fn : ID -> slice -> Prog (option error)) : Prog ID :=
  id ← Wrap id (fun id _ => inData ← Yield id []; fn id inData);
  Go (Call id [];; Ret tt) (Ret tt);;
  Ret id.

Definition Resume (id : ID) (inData : slice) : Prog (slice * bool) :=
  c ← findCoroutine id;
  Lock c (Ret tt);;
  finally
    (st ← readSyncStatus c;
     if decide (st = Dead) then Ret ([], false)
     else outData ← resume c inData; Ret (outData, true))
    (Unlock c (Ret tt)).

Definition TryResume (id : ID) (inData : slice) : Prog (slice * bool) :=
  c ← findCoroutine id;
  Lock c (Ret tt);;
  finally
    (st ← readSyncStatus c;
     if decide (st <> Suspended) then Ret ([], false)
     else outData ← resume c inData; Ret (outData, true))
    (Unlock c (Ret tt)).

Definition AsyncResume (id : ID) (fn : slice -> Prog unit) (inData : slice) : Prog nat :=
  errCh ← MakeErrCh Ret;
  Go (catch
        (co ← findCoroutine id;
         Lock co (Ret tt);;
         finally
           (st ← readSyncStatus co;
            if decide (st = Dead) then
              s ← Coroutine_String co;
              Throw (ThrownError (ErrApp ("coroutine is dead: " +:+ s)))
            else outData ← resume co inData; fn outData)
           (Unlock co (Ret tt)))
        (fun v => SendErr errCh (ToError v) (Ret tt)))
     (Ret tt);;
  Ret errCh.

Definition Status (id : ID) : Prog string :=
  MapLoad id (fun v =>
    match v with
    | None => Ret Dead
    | Some c => readSyncStatus c
    end).

(** *** The shared memory *)

(** A [Coroutine] struct with the fields that [Registry.Coroutine] leaves out. *)
Record Object : Type := MkObject {
  obj : Coroutine;
  fn : ID -> slice -> Prog (option error);
  mutexResume : bool                      (* locked *)
}.

Record Store : Type := MkStore {
  heap : list Object;                     (* the structs, by address *)
  coroutines : gmap ID nat;               (* var coroutines sync.Map *)
  errchs : list (list error)              (* the channels of AsyncResume *)
}.

Definition empty_store : Store := MkStore [] ∅ [].

Definition set_obj (o : Object) (c : Coroutine) : Object :=
  MkObject c (fn o) (mutexResume o).
Definition set_mutexResume (o : Object) (b : bool) : Object :=
  MkObject (obj o) (fn o) b.
Definition set_heap (st : Store) (h : list Object) : Store :=
  MkStore h (coroutines st) (errchs st).
Definition set_coroutines (st : Store) (m : gmap ID nat) : Store :=
  MkStore (heap st) m (errchs st).

Definition addr_of (ch : chan_of) : nat :=
  match ch with InCh c | OutCh c => c end.
Definition get_chan (ch : chan_of) (c : Coroutine) : chan :=
  match ch with InCh _ => inCh c | OutCh _ => outCh c end.
Definition set_chan (ch : chan_of) (c : Coroutine) (x : chan) : Coroutine :=
  match ch with
  | InCh _ => MkCoroutine (id c) (status c) x (outCh c)
  | OutCh _ => MkCoroutine (id c) (status c) (inCh c) x
  end.

(** What a statement did. *)
Inductive stmt : Type :=
| SLoad (id : ID) (found : option nat)
| SStore (id : ID) (c : nat)
| SDelete (id : ID)
| SNew (c : nat)
| SGetId (c : nat) (i : ID)
| SGetStatus (c : nat) (s : string)
| SSetStatus (c : nat) (s : string)
| SLock (c : nat)
| SUnlock (c : nat)
| SRecv (ch : chan_of) (got : option slice)     (* [None]: the timer won *)
| SSend (ch : chan_of) (v : slice) (r : sending)
| SCallFn (c : nat)
| SGo
| SMakeErrCh (ch : nat)
| SSendErr (ch : nat) (e : error).

(** One statement of a goroutine: what it did, the memory after it, what
    the goroutine goes on with, and the goroutines it started.  [None]: the
    statement waits, or the goroutine is through.  [which] is the case that a
    [select] takes; the timer may win at any moment, the channel only when it
    is ready.  An address that holds no struct and the unlocking of a mutex
    that is not locked do not occur in the package; they are [None] too. *)
Definition tstep {R : Type} (which : select_case) (st : Store) (p : Prog R)
  : option (stmt * Store * Prog R * list (Prog unit)) :=
  match p with
  | Ret _ | Throw _ => None
  | MapLoad id k =>
      Some (SLoad id (coroutines st !! id), st, k (coroutines st !! id), [])
  | MapStore id c k =>
      Some (SStore id c, set_coroutines st (<[id:=c]> (coroutines st)), k, [])
  | MapDelete id k =>
      Some (SDelete id, set_coroutines st (delete id (coroutines st)), k, [])
  | New c fn k =>
      Some (SNew (length (heap st)), set_heap st (heap st ++ [MkObject c fn false]),
            k (length (heap st)), [])
  | GetId c k => o ← heap st !! c; Some (SGetId c (id (obj o)), st, k (id (obj o)), [])
  | GetStatus c k =>
      o ← heap st !! c; Some (SGetStatus c (status (obj o)), st, k (status (obj o)), [])
  | SetStatus c s k =>
      o ← heap st !! c;
      Some (SSetStatus c s,
            set_heap st
              (<[c:=set_obj o (MkCoroutine (id (obj o)) s (inCh (obj o)) (outCh (obj o)))]>
                 (heap st)),
            k, [])
  | Lock c k =>
      o ← heap st !! c;
      if mutexResume o then None
      else Some (SLock c, set_heap st (<[c:=set_mutexResume o true]> (heap st)), k, [])
  | Unlock c k =>
      o ← heap st !! c;
      if mutexResume o
      then Some (SUnlock c, set_heap st (<[c:=set_mutexResume o false]> (heap st)), k, [])
      else None
  | SelectRecv ch k =>
      match which with
      | CaseTimer => Some (SRecv ch None, st, k None, [])
      | CaseChannel =>
          o ← heap st !! addr_of ch;
          '(v, x) ← chan_recv (get_chan ch (obj o));
          Some (SRecv ch (Some v),
                set_heap st (<[addr_of ch:=set_obj o (set_chan ch (obj o) x)]> (heap st)),
                k (Some v), [])
      end
  | SelectSend ch v k =>
      match which with
      | CaseTimer => Some (SSend ch v TimerWon, st, k TimerWon, [])
      | CaseChannel =>
          o ← heap st !! addr_of ch;
          match chan_send (get_chan ch (obj o)) v with
          | SendOk x =>
              Some (SSend ch v Sent,
                    set_heap st (<[addr_of ch:=set_obj o (set_chan ch (obj o) x)]> (heap st)),
                    k Sent, [])
          | SendBlocks => None
          | SendPanics => Some (SSend ch v ClosedChannel, st, k ClosedChannel, [])
          end
      end
  | CallFn c id args k =>
      o ← heap st !! c; Some (SCallFn c, st, handle (fn o id args) k, [])
  | Go q k => Some (SGo, st, k, [q])
  | MakeErrCh k =>
      Some (SMakeErrCh (length (errchs st)),
            MkStore (heap st) (coroutines st) (errchs st ++ [[]]), k (length (errchs st)), [])
  | SendErr ch e k =>
      b ← errchs st !! ch;
      if decide (length b < chan_cap)
      then Some (SSendErr ch e,
                 MkStore (heap st) (coroutines st) (<[ch:=b ++ [e]]> (errchs st)), k, [])
      else None
  end.

(** The goroutine has returned or panicked. *)
Definition through {R : Type} (p : Prog R) : bool :=
  match p with
  | Ret _ | Throw _ => true
  | _ => false
  end.

(** A goroutine on its own, one statement for each entry of [ws]. *)
Fixpoint run_alone {R : Type} (ws : list select_case) (st : Store) (p : Prog R)
  : option (list stmt * Store * Prog R * list (Prog unit)) :=
  match ws with
  | [] => Some ([], st, p, [])
  | w :: ws' =>
      '(a, st', p', gs) ← tstep w st p;
      '(tr, st'', p'', gs') ← run_alone ws' st' p';
      Some (a :: tr, st'', p'', gs ++ gs')
  end.

(** A goroutine among others: the statements it ran, the goroutines it
    started, the memory after its last statement and what it goes on with.
    The memory that each statement meets is whatever the other goroutines
    made of it in the meantime. *)
Inductive texec {R : Type} :
    Prog R -> list stmt -> list (Prog unit) -> Store -> Prog R -> Prop :=
| texec_last w st p a st' p' gs :
    tstep w st p = Some (a, st', p', gs) ->
    texec p [a] gs st' p'
| texec_cons w st p a st1 p1 gs tr gs' st' p' :
    tstep w st p = Some (a, st1, p1, gs) ->
    texec p1 tr gs' st' p' ->
    texec p (a :: tr) (gs ++ gs') st' p'.

(** The goroutines of a program and the memory they share: the one that
    [main] runs on, and those started with [go]. *)
Record State (R : Type) : Type := MkState {
  store : Store;
  main : Prog R;
  goroutines : list (Prog unit)
}.
Arguments MkState {R} store main goroutines.
Arguments store {R} s.
Arguments main {R} s.
Arguments goroutines {R} s.

(** Goroutine [i] runs its next statement; [0] is the main one. *)
Definition step {R : Type} (i : nat) (which : select_case) (s : State R) : option (State R) :=
  match i with
  | 0 =>
      '(_, st', p', gs) ← tstep which (store s) (main s);
      Some (MkState st' p' (goroutines s ++ gs))
  | S j =>
      p ← goroutines s !! j;
      '(_, st', p', gs) ← tstep which (store s) p;
      Some (MkState st' (main s) (<[j:=p']> (goroutines s) ++ gs))
  end.

Fixpoint run {R : Type} (sched : list (nat * select_case)) (s : State R) : option (State R) :=
  match sched with
  | [] => Some s
  | (i, w) :: sched' => s' ← step i w s; run sched' s'
  end.

(** A registry with one coroutine, suspended, whose output is waiting. *)
Definition waiting_store : Store :=
  MkStore
    [MkObject (MkCoroutine "a" Suspended make_chan (Chan [[AStr "Hello"]] false))
       (fun _ _ => Ret None) false]
    {[ "a" := 0 ]} [].

(** A registry with one coroutine, running. *)
Definition running_store : Store :=
  MkStore [MkObject (MkCoroutine "a" Running make_chan make_chan) (fun _ _ => Ret None) false]
    {[ "a" := 0 ]} [].

(** *** What the calls panic with *)

(** The identifier is missing from the registry. *)
Definition missing (id : ID) : thrown :=
  ThrownError (ErrApp ("coroutine missing: [" +:+ id +:+ "]")).

(** The timer of a [select] won, for the coroutine whose identifier is [i]. *)
Definition timed_out (i : ID) : thrown :=
  ThrownError (ErrApp ("coroutine suspended timeout: " +:+ ("[" +:+ i +:+ "]"))).

(** [AsyncResume] met status Dead, for the coroutine whose identifier is [i]. *)
Definition is_dead (i : ID) : thrown :=
  ThrownError (ErrApp ("coroutine is dead: " +:+ ("[" +:+ i +:+ "]"))).

(** *** Shapes of code *)

(** Every way through [p] ends in a return that follows [coroutines.Delete(id)]. *)
Fixpoint closes {R : Type} (id : ID) (p : Prog R) : Prop :=
  match p with
  | Ret _ | Throw _ => False
  | MapDelete id' k => (id' = id /\ exists r, k = Ret r) \/ closes id k
  | MapLoad _ k => forall v, closes id (k v)
  | MapStore _ _ k => closes id k
  | New _ _ k => forall a, closes id (k a)
  | GetId _ k => forall i, closes id (k i)
  | GetStatus _ k => forall s, closes id (k s)
  | SetStatus _ _ k => closes id k
  | Lock _ k => closes id k
  | Unlock _ k => closes id k
  | SelectRecv _ k => forall v, closes id (k v)
  | SelectSend _ _ k => forall r, closes id (k r)
  | CallFn _ _ _ k => forall o, closes id (k o)
  | Go _ k => closes id k
  | MakeErrCh k => forall ch, closes id (k ch)
  | SendErr _ _ k => closes id k
  end.

(** *** Runs of a piece of code *)

(** [q], run by a goroutine among others, runs the statements [tr] and ends
    as [o]: with a result, or with the value of a panic. *)
Definition runs {R : Type} (q : Prog R) (tr : list stmt) (o : R + thrown) : Prop :=
  (tr = [] /\ q = ended o) \/ exists gs st, texec q tr gs st (ended o).

(** [p] is [q] with [K] after it, some statements into [handle q K]: the
    handlers that [q] is inside of go on inside [K]. *)
Inductive inside {A B : Type} (K : A + thrown -> Prog B) : Prog A -> Prog B -> Prop :=
| inside_here q : inside K q (handle q K)
| inside_handle {C : Type} (f : Prog C) k1 k2 :
    (forall o, inside K (k1 o) (k2 o)) -> inside K (handle f k1) (handle f k2).

(** A registry whose coroutine ["a"] has a function that panics. *)
Definition panicking_store : Store :=
  MkStore [MkObject (MkCoroutine "a" Created make_chan make_chan)
             (fun _ _ => Throw (ThrownValue (AStr "boom"))) false]
    {["a" := 0]} [].

End Calls.

(** ** The arguments of the calls *)

(** The controller [p] once its calls have returned [rl], oldest first. *)
Fixpoint after (p : Ctl) (rl : list (slice * option error)) {struct rl} : Ctl :=
  match rl, p with
  | (o, e) :: rl', (CResume _ k | CResumeWithTimeout _ k) => after (k o e) rl'
  | _, _ => p
  end.

(** The [input] of the call that [p] begins with. *)
Definition argument (p : Ctl) : list slice :=
  match p with
  | CReturn _ => []
  | CResume input _ | CResumeWithTimeout input _ => [input]
  end.

(** The [input]s of the calls that [p] has begun once its calls have
    returned [rl], in the order of the calls. *)
Fixpoint asked (p : Ctl) (rl : list (slice * option error)) {struct rl} : list slice :=
  argument p ++
  match rl, p with
  | (o, e) :: rl', (CResume _ k | CResumeWithTimeout _ k) => asked (k o e) rl'
  | _, _ => []
  end.

(** The [input]s of those calls of [p] that returned a nil error. *)
Fixpoint answered (p : Ctl) (rl : list (slice * option error)) {struct rl} : list slice :=
  match rl, p with
  | (o, e) :: rl', (CResume input k | CResumeWithTimeout input k) =>
      match e with None => [input] | Some _ => [] end ++ answered (k o e) rl'
  | _, _ => []
  end.

(** ** Yields with a deadline *)

Module Timed.

(** User code that may also call [co.YieldWithTimeout(timeout, output...)]. *)
Inductive Body (R : Type) : Type :=
| BReturn (r : R)
| BPanic (v : panic_value)
| BYield (output : slice) (k : slice -> option error -> Body R)
| BYieldWithTimeout (output : slice) (k : slice -> option error -> Body R).
Arguments BReturn {R} r.
Arguments BPanic {R} v.
Arguments BYield {R} output k.
Arguments BYieldWithTimeout {R} output k.

(** The goroutine spawned by [Create], as above.  [YieldWithTimeout] hands
    the closure of [Yield] to [safe.DoWithTimeout], modelled from the spec as
    for [ResumeWithTimeout]: the closure runs under [safe.Do] on a goroutine
    of its own while the body waits for its error or for the timer
    ([InTimedYield], then [InTimedYieldDone] once the closure has returned),
    and the call returns the deadline error when the timer wins.
    [YieldWithContext] is the same call with the end of the context in place
    of the timer. *)
Inductive BodyTask : Type :=
| InYield (f : YieldFrame) (k : slice -> option error -> Body (option error))
| InTimedYield (f : YieldFrame) (k : slice -> option error -> Body (option error))
| InTimedYieldDone (f : YieldFrame) (err : option error)
    (k : slice -> option error -> Body (option error))
| DeferStatus (r : exit)
| DeferCloseInput (r : exit)
| DeferCloseOutput (r : exit)
| BodyDone (err : option error).

Definition run_body (b : Body (option error)) : BodyTask :=
  match b with
  | BReturn err => DeferStatus (ExitReturn err)
  | BPanic v => DeferStatus (ExitPanic v)
  | BYield output k => InYield (Yield_entry output) k
  | BYieldWithTimeout output k => InTimedYield (Yield_entry output) k
  end.

Definition spawn (function : slice -> Body (option error)) : BodyTask :=
  InYield (Yield_entry [])
    (fun input err =>
       match err with
       | Some e => BReturn (Some e)
       | None => function input
       end).

Record State : Type := MkState {
  co : Coroutine;
  body : BodyTask;
  ctl : CtlTask;
  zombies : list ResumeFrame;     (* closures of timed-out resumes *)
  late : list YieldFrame;         (* closures of timed-out yields *)
  trace : list event
}.

(** Who moves next: the body or the closure it waits for, the timer of its
    [YieldWithTimeout], a closure that this timer left behind, and the tasks
    of the controller as above. *)
Inductive task : Type :=
| TBody | TBodyTimer | TLate (i : nat) | TCtl | TTimer | TZombie (i : nat).

#[global] Instance task_eq_dec : EqDecision task.
Proof. solve_decision. Defined.

Definition step_body (s : State) : option State :=
  match body s with
  | InYield f k =>
      match Yield_step (co s) f with
      | Blocked => None
      | Goes a c f' =>
          Some (MkState c (InYield f' k) (ctl s) (zombies s) (late s) (trace s ++ [EvAction a]))
      | Returns a c f' err =>
          Some (MkState c (run_body (k (y_input f') err)) (ctl s) (zombies s) (late s)
                  (trace s ++ [EvAction a; EvYield (y_input f') err]))
      | Panics a c f' v =>
          Some (MkState c (DeferStatus (ExitPanic v)) (ctl s) (zombies s) (late s)
                  (trace s ++ [EvAction a]))
      end
  | InTimedYield f k =>
      match Yield_step (co s) f with
      | Blocked => None
      | Goes a c f' =>
          Some (MkState c (InTimedYield f' k) (ctl s) (zombies s) (late s)
                  (trace s ++ [EvAction a]))
      | Returns a c f' err =>
          Some (MkState c (InTimedYieldDone f' err k) (ctl s) (zombies s) (late s)
                  (trace s ++ [EvAction a]))
      | Panics a c f' v =>
          Some (MkState c (DeferStatus (ExitPanic v)) (ctl s) (zombies s) (late s)
                  (trace s ++ [EvAction a]))
      end
  | InTimedYieldDone f err k =>
      Some (MkState (co s) (run_body (k (y_input f) err)) (ctl s) (zombies s) (late s)
              (trace s ++ [EvYield (y_input f) err]))
  | DeferStatus r =>
      Some (MkState (set_status (co s) CLOSED) (DeferCloseInput r) (ctl s) (zombies s) (late s)
              (trace s ++ [EvAction (AWriteStatus CLOSED)]))
  | DeferCloseInput r =>
      match chan_close (inputCh (co s)) with
      | Some ch =>
          Some (MkState (set_inputCh (co s) ch) (DeferCloseOutput r) (ctl s) (zombies s) (late s)
                  (trace s))
      | None =>
          Some (MkState (co s) (BodyDone (Some (ErrRecovered PCloseOfClosedChannel)))
                  (ctl s) (zombies s) (late s) (trace s ++ [EvAction AFault]))
      end
  | DeferCloseOutput r =>
      match chan_close (outputCh (co s)) with
      | Some ch =>
          Some (MkState (set_outputCh (co s) ch) (BodyDone (exit_error r)) (ctl s) (zombies s)
                  (late s) (trace s))
      | None =>
          Some (MkState (co s) (BodyDone (Some (ErrRecovered PCloseOfClosedChannel)))
                  (ctl s) (zombies s) (late s) (trace s ++ [EvAction AFault]))
      end
  | BodyDone _ => None
  end.

(** The timer of a pending [YieldWithTimeout] fires: the call returns the
    current [input] with the deadline error and leaves its closure behind. *)
Definition step_body_timer (s : State) : option State :=
  match body s with
  | InTimedYield f k =>
      Some (MkState (co s) (run_body (k (y_input f) (Some ErrDeadlineExceeded))) (ctl s)
              (zombies s) (late s ++ [f])
              (trace s ++ [EvYield (y_input f) (Some ErrDeadlineExceeded)]))
  | InTimedYieldDone f _ k =>
      Some (MkState (co s) (run_body (k (y_input f) (Some ErrDeadlineExceeded))) (ctl s)
              (zombies s) (late s)
              (trace s ++ [EvYield (y_input f) (Some ErrDeadlineExceeded)]))
  | _ => None
  end.

(** A closure that a timed-out [YieldWithTimeout] left behind goes on. *)
Definition step_late (i : nat) (s : State) : option State :=
  match late s !! i with
  | None => None
  | Some f =>
      match Yield_step (co s) f with
      | Blocked => None
      | Goes a c f' =>
          Some (MkState c (body s) (ctl s) (zombies s) (<[i:=f']> (late s))
                  (trace s ++ [EvAction a]))
      | Returns a c f' err =>
          Some (MkState c (body s) (ctl s) (zombies s) (delete i (late s))
                  (trace s ++ [EvAction a]))
      | Panics a c f' v =>
          Some (MkState c (body s) (CtlCrashed v) (zombies s) (delete i (late s))
                  (trace s ++ [EvAction a]))
      end
  end.

Definition step_ctl (s : State) : option State :=
  match ctl s with
  | InResume f k =>
      match Resume_step (co s) f with
      | Blocked => None
      | Goes a c f' =>
          Some (MkState c (body s) (InResume f' k) (zombies s) (late s) (trace s ++ [EvAction a]))
      | Returns a c f' err =>
          Some (MkState c (body s) (run_ctl (k (r_output f') err)) (zombies s) (late s)
                  (trace s ++ [EvAction a; EvResume (r_output f') err]))
      | Panics a c f' v =>
          Some (MkState c (body s) (CtlCrashed v) (zombies s) (late s) (trace s ++ [EvAction a]))
      end
  | InTimed f k =>
      match Resume_step (co s) f with
      | Blocked => None
      | Goes a c f' =>
          Some (MkState c (body s) (InTimed f' k) (zombies s) (late s) (trace s ++ [EvAction a]))
      | Returns a c f' err =>
          Some (MkState c (body s) (InTimedDone f' err k) (zombies s) (late s)
                  (trace s ++ [EvAction a]))
      | Panics a c f' v =>
          Some (MkState c (body s) (CtlCrashed v) (zombies s) (late s) (trace s ++ [EvAction a]))
      end
  | InTimedDone f err k =>
      Some (MkState (co s) (body s) (run_ctl (k (r_output f) err)) (zombies s) (late s)
              (trace s ++ [EvResume (r_output f) err]))
  | CtlDone _ | CtlCrashed _ => None
  end.

Definition step_timer (s : State) : option State :=
  match ctl s with
  | InTimed f k =>
      Some (MkState (co s) (body s) (run_ctl (k (r_output f) (Some ErrDeadlineExceeded)))
              (zombies s ++ [f]) (late s)
              (trace s ++ [EvResume (r_output f) (Some ErrDeadlineExceeded)]))
  | InTimedDone f _ k =>
      Some (MkState (co s) (body s) (run_ctl (k (r_output f) (Some ErrDeadlineExceeded)))
              (zombies s) (late s)
              (trace s ++ [EvResume (r_output f) (Some ErrDeadlineExceeded)]))
  | _ => None
  end.

Definition step_zombie (i : nat) (s : State) : option State :=
  match zombies s !! i with
  | None => None
  | Some f =>
      match Resume_step (co s) f with
      | Blocked => None
      | Goes a c f' =>
          Some (MkState c (body s) (ctl s) (<[i:=f']> (zombies s)) (late s)
                  (trace s ++ [EvAction a]))
      | Returns a c f' err =>
          Some (MkState c (body s) (ctl s) (delete i (zombies s)) (late s)
                  (trace s ++ [EvAction a]))
      | Panics a c f' v =>
          Some (MkState c (body s) (CtlCrashed v) (delete i (zombies s)) (late s)
                  (trace s ++ [EvAction a]))
      end
  end.

Definition step (t : task) (s : State) : option State :=
  match t with
  | TBody => step_body s
  | TBodyTimer => step_body_timer s
  | TLate i => step_late i s
  | TCtl => step_ctl s
  | TTimer => step_timer s
  | TZombie i => step_zombie i s
  end.

Fixpoint run (sched : list task) (s : State) : option State :=
  match sched with
  | [] => Some s
  | t :: sched' =>
      match step t s with
      | Some s' => run sched' s'
      | None => None
      end
  end.

(** [Create] of a [func(c *Coroutine, args ...any) error], followed by the
    controller [p]. *)
Definition launch (function : slice -> Body (option error)) (p : Ctl) : State :=
  MkState created (spawn function) (run_ctl p) [] [] [EvAction (AWriteStatus CREATED)].

Definition status_log (s : State) : list Status := omap ev_status (trace s).
Definition resume_log (s : State) : list (slice * option error) := omap ev_resume (trace s).
Definition yield_log (s : State) : list (slice * option error) := omap ev_yield (trace s).

(** No [YieldWithTimeout] of the schedule runs into its deadline. *)
Definition in_time (sched : list task) : Prop := TBodyTimer ∉ sched.

(** Where the body's goroutine stands, as above; a closure that has returned
    to a [YieldWithTimeout] has written Running. *)
Definition phase_at (c : Coroutine) (b : BodyTask) (stl : list Status) : Prop :=
  match b with
  | InYield f _ | InTimedYield f _ =>
      closed (inputCh c) = false /\ closed (outputCh c) = false /\
      match y_pc f with
      | YSwitch =>
          (status c = CREATED /\ stl = [CREATED]) \/ (status c = RUNNING /\ living_log stl)
      | YSetSuspended => status c = RUNNING /\ living_log stl
      | _ =>
          (status c = CREATED /\ stl = [CREATED]) \/ (status c = SUSPENDED /\ suspended_log stl)
      end
  | InTimedYieldDone _ err _ =>
      closed (inputCh c) = false /\ closed (outputCh c) = false /\
      err = None /\ status c = RUNNING /\ living_log stl
  | DeferStatus _ =>
      closed (inputCh c) = false /\ closed (outputCh c) = false /\
      status c = RUNNING /\ living_log stl
  | DeferCloseInput _ =>
      closed (inputCh c) = false /\ closed (outputCh c) = false /\
      status c = CLOSED /\ closed_log stl
  | DeferCloseOutput _ =>
      closed (inputCh c) = true /\ closed (outputCh c) = false /\
      status c = CLOSED /\ closed_log stl
  | BodyDone _ =>
      closed (inputCh c) = true /\ closed (outputCh c) = true /\
      status c = CLOSED /\ closed_log stl
  end.

(** The deferred function of the body's goroutine has written Closed. *)
Definition closing (b : BodyTask) : Prop :=
  match b with
  | DeferCloseInput _ | DeferCloseOutput _ | BodyDone _ => True
  | _ => False
  end.

(** The inputs that [Resume] calls put on [c.inputCh]. *)
Definition sent_log (s : State) : list slice := omap ev_sent (trace s).

Definition resumers_holding (s : State) : nat :=
  ctl_holding (ctl s) + sum_list_with holding (zombies s).

(** The input a closure of [Yield] took from the channel and that its call
    has not returned yet. *)
Definition received (b : BodyTask) : list slice :=
  match b with
  | InYield f _ | InTimedYield f _ =>
      match y_pc f with YSetRunning => [y_input f] | _ => [] end
  | InTimedYieldDone f _ _ => [y_input f]
  | _ => []
  end.

Definition tokens_at (c : Coroutine) (b : BodyTask) (K : nat) : Prop :=
  match b with
  | InYield f _ | InTimedYield f _ =>
      length (buf (outputCh c)) + length (buf (inputCh c)) + K =
      match y_pc f with YRecv => 1 | _ => 0 end
  | BodyDone _ => buf (inputCh c) = [] /\ buf (outputCh c) = []
  | _ => length (buf (outputCh c)) + length (buf (inputCh c)) + K = 0
  end.

Definition fifo_at (c : Coroutine) (b : BodyTask) (snt : list slice)
    (yl : list (slice * option error)) : Prop :=
  snt = yl.*1 ++ received b ++ buf (inputCh c) /\ Forall (fun r => r.2 = None) yl.

(** The invariants of the handoff, as above, while no closure of a [Yield]
    is left behind. *)
Definition handoff_inv (s : State) : Prop :=
  late s = [] /\
  phase_at (co s) (body s) (status_log s) /\
  tokens_at (co s) (body s) (resumers_holding s) /\
  fifo_at (co s) (body s) (sent_log s) (yield_log s).

(** The closures of [Resume] that are under way: the call of the controller
    and the closures left behind by expired timeouts. *)
Definition resuming (s : State) (f : ResumeFrame) : Prop :=
  (exists k, ctl s = InResume f k \/ ctl s = InTimed f k) \/ f ∈ zombies s.

(** The outputs that closures of [Yield] put on [c.outputCh]. *)
Definition yielded_log (s : State) : list slice := omap ev_yielded (trace s).

(** The outputs of the [Resume] calls that returned a nil error. *)
Definition returned_log (s : State) : list slice :=
  omap (fun r : slice * option error => match r.2 with None => Some r.1 | Some _ => None end)
    (resume_log s).

(** The output that the [Resume] in progress took and is about to return. *)
Definition held (s : State) : list slice :=
  match ctl s with
  | InResume f _ =>
      match r_pc f with
      | RSend => if closed (inputCh (co s)) then [] else [r_output f]
      | _ => []
      end
  | _ => []
  end.

Definition returns_at (s : State) : Prop :=
  ctl_untimed (ctl s) /\ zombies s = [] /\
  returned_log s ++ held s ++ buf (outputCh (co s)) = yielded_log s /\
  Forall (fun r : slice * option error => r.2 <> None -> r.1 = []) (resume_log s) /\
  (forall f k, ctl s = InResume f k -> r_pc f <> RSend \/ closed (inputCh (co s)) = true ->
     r_output f = []).

(** The task of the controller is where [p] stands after the calls that
    have returned. *)
Definition ctl_at (p : Ctl) (s : State) : Prop :=
  match ctl s with
  | CtlDone err => after p (resume_log s) = CReturn err
  | CtlCrashed _ => False
  | InResume f k => after p (resume_log s) = CResume (r_input f) k
  | InTimed f k | InTimedDone f _ k =>
      after p (resume_log s) = CResumeWithTimeout (r_input f) k
  end.

(** The inputs of the closures of [Resume] that have not come to their
    send: that of the call in progress and those left behind by deadlines. *)
Definition unsent (s : State) : list slice :=
  match ctl s with
  | InResume f _ | InTimed f _ => [r_input f]
  | _ => []
  end ++ (r_input <$> zombies s).

(** Every call begun has sent its input, has yet to, or has failed. *)
Definition calls_at (p : Ctl) (s : State) : Prop :=
  ctl_at p s /\
  exists failed, asked p (resume_log s) ≡ₚ sent_log s ++ unsent s ++ failed.

(** Without timed resumes, the inputs sent are those of the calls that
    returned a nil error. *)
Definition answered_at (p : Ctl) (s : State) : Prop :=
  ctl_untimed (ctl s) /\ zombies s = [] /\ sent_log s = answered p (resume_log s).

(** Closed is written by the deferred function only. *)
Definition settled (s : State) : Prop := status (co s) = CLOSED -> closing (body s).

(** *** A deadline that passes *)

(** [co.Resume()], [co.Resume("v")], [co.Resume("w")]. *)
Definition Losing_controller : Ctl :=
  CResume [] (fun _ _ =>
    CResume [AStr "v"] (fun _ _ => CResume [AStr "w"] (fun _ err => CReturn err))).

(** [func(co *Coroutine, args ...any) error {
        _, err := co.YieldWithTimeout(timeout, "x"); return err }] *)
Definition Impatient_function : slice -> Body (option error) :=
  fun _ => BYieldWithTimeout [AStr "x"] (fun _ err => BReturn err).

Definition Impatient_system : State := launch Impatient_function Twice_controller.

(** The first [Resume] starts the body.  The closure of [YieldWithTimeout]
    sends its output and waits for an input; the deadline passes, the body
    returns the deadline error and its deferred function closes the handle. *)
Definition Impatient_schedule : list task :=
  [TBody; TBody; TCtl; TCtl; TCtl; TBody; TBody;
   TBody; TBody; TBody; TBodyTimer;
   TBody; TBody; TBody].

(** The same body and three resumes, the second of which answers the
    [YieldWithTimeout] in time; the body has closed the handle before the
    third begins. *)
Definition In_time_system : State := launch Impatient_function Losing_controller.

Definition In_time_schedule : list task :=
  [TBody; TBody; TCtl; TCtl; TCtl; TBody; TBody;
   TBody; TBody; TBody; TCtl; TCtl; TCtl; TBody; TBody; TBody;
   TBody; TBody; TBody].

(** [co.Resume()], then [co.Resume("a", 1, nil)], which answers the
    [YieldWithTimeout] in time. *)
Definition Triple_controller : Ctl :=
  CResume [] (fun _ _ => CResume [AStr "a"; AInt 1; ANil] (fun _ err => CReturn err)).

Definition Triple_system : State := launch Impatient_function Triple_controller.

(** The closure of [YieldWithTimeout] has sent its output. *)
Definition Waiting_schedule : list task :=
  [TBody; TBody; TCtl; TCtl; TCtl; TBody; TBody; TBody; TBody; TBody].

(** The [YieldWithTimeout] was answered and the function has returned. *)
Definition Returning_schedule : list task :=
  [TBody; TBody; TCtl; TCtl; TCtl; TBody; TBody;
   TBody; TBody; TBody; TCtl; TCtl; TCtl; TBody; TBody; TBody].

(** The closure left behind receives from the closed input channel and sets
    the status. *)
Definition Late_schedule : list task := [TLate 0; TLate 0].

(** [func(co *Coroutine, args ...any) error {
        co.YieldWithTimeout(timeout, "x"); _, err := co.Yield("y"); return err }] *)
Definition Losing_function : slice -> Body (option error) :=
  fun _ =>
    BYieldWithTimeout [AStr "x"] (fun _ _ => BYield [AStr "y"] (fun _ err => BReturn err)).

Definition Losing_system : State := launch Losing_function Losing_controller.

(** The deadline of [YieldWithTimeout] passes while its closure waits for an
    input; the closure takes the input of the second [Resume], and the
    [Yield] of the body gets that of the third. *)
Definition Losing_schedule : list task :=
  [TBody; TBody; TCtl; TCtl; TCtl; TBody; TBody;
   TBody; TBody; TBody; TBodyTimer;
   TBody; TBody; TCtl; TCtl; TCtl; TBody;
   TLate 0; TLate 0;
   TCtl; TCtl; TCtl; TBody; TBody].

End Timed.


(** * Properties *)

(** ** Channels and closures *)


(** ** Closures *)

Lemma Resume_step_no_panic c f a c' f' v : Resume_step c f <> Panics a c' f' v.
Proof. unfold Resume_step. by destruct (Resume_closure c f). Qed.

Lemma Yield_step_no_panic c f a c' f' v : Yield_step c f <> Panics a c' f' v.
Proof. unfold Yield_step. by destruct (Yield_closure c f). Qed.

(** ** The handoff invariant *)

Lemma cycles_snoc n : cycles n ++ [SUSPENDED; RUNNING] = cycles (S n).
Proof. induction n as [|n IH]; [done|]. simpl in *. by rewrite IH. Qed.

Lemma living_after_created : living_log [CREATED; RUNNING].
Proof. by exists 0. Qed.

Lemma living_after_suspended l : suspended_log l -> living_log (l ++ [RUNNING]).
Proof.
  intros [n ->]. exists (S n). rewrite <-cycles_snoc. simpl.
  by rewrite <-app_assoc.
Qed.

Lemma suspended_after_living l : living_log l -> suspended_log (l ++ [SUSPENDED]).
Proof. intros [n ->]. by exists n. Qed.

Lemma closed_after_living l : living_log l -> closed_log (l ++ [CLOSED]).
Proof. intros [n ->]. by exists n. Qed.

Ltac inv_auto :=
  destruct_and?; destruct_or?; destruct_and?; simplify_eq/=; rewrite ?app_nil_r in *;
  split_and?;
  try first
    [ done | lia | congruence | tauto
    | solve [eauto 6 using living_after_created, living_after_suspended,
               suspended_after_living, closed_after_living] ].

(** A statement of a [Resume] closure keeps the invariant, whoever runs it. *)
Lemma resumer_keeps c b K0 stl snt yl f :
  phase_at c b stl -> tokens_at c b (holding f + K0) -> fifo_at c b snt yl ->
  match Resume_step c f with
  | Blocked => True
  | Goes a c' f' =>
      phase_at c' b stl /\ tokens_at c' b (holding f' + K0) /\
      fifo_at c' b (snt ++ omap ev_sent [EvAction a]) yl /\ ev_status (EvAction a) = None
  | Returns a c' f' err =>
      phase_at c' b stl /\ tokens_at c' b K0 /\
      fifo_at c' b (snt ++ omap ev_sent [EvAction a]) yl /\ ev_status (EvAction a) = None
  | Panics _ _ _ _ => False
  end.
Proof.
  intros Hp Ht [Hf Hy]. unfold Resume_step, Resume_closure.
  destruct f as [inp out []]; simpl.
  - destruct (status c); simpl; rewrite ?app_nil_r; done.
  - unfold chan_recv.
    destruct (buf (outputCh c)) as [|v rest] eqn:Hb; [destruct (closed (outputCh c)) eqn:Hc|]; simpl.
    + unfold fifo_at, tokens_at, phase_at, holding in *.
      destruct b as [[yo yi []] k| | | |]; simpl in *; rewrite ?Hb in *; inv_auto.
    + done.
    + unfold fifo_at, tokens_at, phase_at, holding in *.
      destruct b as [[yo yi []] k| | | |]; simpl in *; rewrite ?Hb in *; simpl in *; inv_auto.
  - unfold chan_send.
    destruct (closed (inputCh c)) eqn:Hc; simpl.
    + unfold fifo_at, tokens_at, phase_at, holding in *.
      destruct b as [[yo yi []] k| | | |]; simpl in *; inv_auto.
    + case_decide as Hl; simpl; [|done]. unfold chan_cap in Hl.
      destruct (buf (inputCh c)) as [|? ?] eqn:Hb; simpl in Hl; [|lia].
      unfold fifo_at, tokens_at, phase_at, holding in *.
      destruct b as [[yo yi []] k| | | |]; simpl in *; rewrite ?Hb in *; simpl in *; inv_auto.
Qed.

Lemma body_keeps s s' : handoff_inv s -> step_body s = Some s' -> handoff_inv s'.
Proof.
  destruct s as [c b ct zs tr]. unfold handoff_inv, step_body, status_log, sent_log,
    yield_log, resumers_holding. simpl.
  intros (Hp & Ht & Hf & Hy) Hs. destruct b as [[yo yi pc] k|r|r|r|e]; simpl in *.
  - unfold Yield_step, Yield_closure in Hs. destruct pc; simpl in Hs.
    + destruct (status c) eqn:Hst; simplify_eq/=; rewrite !omap_app; simpl;
        unfold fifo_at; simpl; inv_auto.
    + simplify_eq/=. rewrite !omap_app; simpl. unfold fifo_at; simpl. inv_auto.
    + unfold chan_send in Hs. destruct Hp as (Hci & Hco & Hp). rewrite Hco in Hs.
      case_decide as Hl; simplify_eq/=. unfold chan_cap in Hl.
      destruct (buf (outputCh c)) as [|??] eqn:Hb; simpl in Hl; [|lia].
      rewrite !omap_app; simpl. unfold fifo_at; simpl. simpl in *. inv_auto.
    + unfold chan_recv in Hs. destruct Hp as (Hci & Hco & Hp). rewrite Hci in Hs.
      destruct (buf (inputCh c)) as [|v rest] eqn:Hb; simplify_eq/=.
      rewrite !omap_app; simpl. unfold fifo_at; simpl. inv_auto.
    + simplify_eq/=. rewrite !omap_app; simpl.
      assert (Hrun : closed (inputCh c) = false /\ closed (outputCh c) = false /\
                     living_log (omap ev_status tr ++ [RUNNING])).
      { destruct Hp as (? & ? & [[? Hl]|[? Hl]]); split_and!; try done;
          [rewrite Hl; apply living_after_created | by apply living_after_suspended]. }
      destruct Hrun as (Hci & Hco & Hl).
      unfold fifo_at. rewrite fmap_app, Forall_app, Forall_singleton. simpl.
      destruct (k yi None) as [e|v|out k']; simpl; unfold Yield_entry; simpl;
        rewrite <-?app_assoc; simpl; inv_auto.
  - simplify_eq/=. rewrite !omap_app; simpl. unfold fifo_at; simpl. inv_auto.
  - unfold chan_close in Hs. destruct Hp as (Hci & Hco & Hp). rewrite Hci in Hs.
    simplify_eq/=. unfold fifo_at; simpl. inv_auto.
  - unfold chan_close in Hs. destruct Hp as (Hci & Hco & Hp). rewrite Hco in Hs.
    simplify_eq/=. unfold fifo_at; simpl.
    destruct (buf (inputCh c)), (buf (outputCh c)); simpl in *; inv_auto.
  - done.
Qed.

Lemma ctl_holding_run_ctl p : ctl_holding (run_ctl p) = 0.
Proof. by destruct p. Qed.

Lemma holding_delete (zs : list ResumeFrame) i f :
  zs !! i = Some f ->
  sum_list_with holding zs = holding f + sum_list_with holding (delete i zs).
Proof.
  revert i. induction zs as [|z zs IH]; intros [|i] Hi; simplify_eq/=; [done|].
  rewrite (IH i Hi). lia.
Qed.

Lemma holding_insert (zs : list ResumeFrame) i f f' :
  zs !! i = Some f ->
  sum_list_with holding (<[i:=f']> zs) = holding f' + sum_list_with holding (delete i zs).
Proof.
  revert i. induction zs as [|z zs IH]; intros [|i] Hi; simplify_eq/=; [done|].
  rewrite (IH i Hi). lia.
Qed.

Lemma tokens_at_eq c b K K' : K = K' -> tokens_at c b K -> tokens_at c b K'.
Proof. by intros ->. Qed.

Ltac logs_simpl :=
  unfold handoff_inv, status_log, sent_log, yield_log, resumers_holding; simpl;
  rewrite ?omap_app; simpl.

Lemma ctl_keeps s s' : handoff_inv s -> step_ctl s = Some s' -> handoff_inv s'.
Proof.
  destruct s as [c b ct zs tr]. unfold step_ctl. simpl.
  intros (Hp & Ht & Hf) Hs. unfold status_log, sent_log, yield_log, resumers_holding in *.
  simpl in *.
  destruct ct as [e|v|f k|f k|f e k]; simpl in *; try done.
  - pose proof (resumer_keeps _ _ _ _ _ _ f Hp Ht Hf) as Hk.
    destruct (Resume_step c f) as [|a c' f'|a c' f' err|]; simplify_eq/=;  try done;
      destruct Hk as (Hp' & Ht' & Hf' & Ha); logs_simpl;
      rewrite ?ctl_holding_run_ctl;
      destruct a; simplify_eq/=; rewrite ?app_nil_r in *; done.
  - pose proof (resumer_keeps _ _ _ _ _ _ f Hp Ht Hf) as Hk.
    destruct (Resume_step c f) as [|a c' f'|a c' f' err|]; simplify_eq/=;  try done;
      destruct Hk as (Hp' & Ht' & Hf' & Ha); logs_simpl;
      destruct a; simplify_eq/=; rewrite ?app_nil_r in *; done.
  - simplify_eq/=. logs_simpl. rewrite ?app_nil_r, ctl_holding_run_ctl. done.
Qed.

Lemma timer_keeps s s' : handoff_inv s -> step_timer s = Some s' -> handoff_inv s'.
Proof.
  destruct s as [c b ct zs tr]. unfold step_timer. simpl.
  intros (Hp & Ht & Hf) Hs. unfold status_log, sent_log, yield_log, resumers_holding in *.
  simpl in *.
  destruct ct as [e|v|f k|f k|f e k]; simplify_eq/=; logs_simpl;
    rewrite ?app_nil_r, ctl_holding_run_ctl; split_and!; try done.
  eapply tokens_at_eq; [|exact Ht]. rewrite sum_list_with_app. simpl. lia.
Qed.

Lemma zombie_keeps i s s' : handoff_inv s -> step_zombie i s = Some s' -> handoff_inv s'.
Proof.
  destruct s as [c b ct zs tr]. unfold step_zombie. simpl.
  intros (Hp & Ht & Hf) Hs. unfold status_log, sent_log, yield_log, resumers_holding in *.
  simpl in *.
  destruct (zs !! i) as [f|] eqn:Hi; [|done].
  eapply tokens_at_eq in Ht;
    [|rewrite (holding_delete _ _ _ Hi), Nat.add_assoc, (Nat.add_comm (ctl_holding ct)),
        <-Nat.add_assoc; reflexivity].
  pose proof (resumer_keeps _ _ _ _ _ _ f Hp Ht Hf) as Hk.
  destruct (Resume_step c f) as [|a c' f'|a c' f' err|]; simplify_eq/=;  try done;
    destruct Hk as (Hp' & Ht' & Hf' & Ha); logs_simpl;
    rewrite ?(holding_insert _ _ _ _ Hi);
    destruct a; simplify_eq/=; rewrite ?app_nil_r in *; split_and!; try done;
    (eapply tokens_at_eq; [|exact Ht']; lia).
Qed.

Lemma step_keeps t s s' : handoff_inv s -> step t s = Some s' -> handoff_inv s'.
Proof.
  destruct t; simpl; eauto using body_keeps, ctl_keeps, timer_keeps, zombie_keeps.
Qed.

Lemma run_keeps sched s s' : handoff_inv s -> run sched s = Some s' -> handoff_inv s'.
Proof.
  revert s. induction sched as [|t sched IH]; intros s Hs Hr; simplify_eq/=; [done|].
  destruct (step t s) as [s1|] eqn:Hst; [|done]. eauto using step_keeps.
Qed.

Lemma launch_inv v p s : launch v p = inl s -> handoff_inv s.
Proof.
  unfold launch, Create. destruct (normalize v) as [fn|]; [|done].
  intros [= <-]. unfold handoff_inv, system, spawn, status_log, sent_log, yield_log,
    resumers_holding, fifo_at. simpl. rewrite ctl_holding_run_ctl. split_and!; auto.
Qed.

Lemma reachable_inv v p sched s0 s :
  launch v p = inl s0 -> run sched s0 = Some s -> handoff_inv s.
Proof. eauto using launch_inv, run_keeps. Qed.

(** ** A resume leaves the status alone *)

Lemma Resume_step_quiet c f :
  match Resume_step c f with
  | Goes a c' _ | Returns a c' _ _ => status c' = status c /\ ev_status (EvAction a) = None
  | Blocked => True
  | Panics _ _ _ _ => False
  end.
Proof.
  unfold Resume_step, Resume_closure, chan_recv, chan_send.
  destruct f as [inp out []]; simpl.
  - by destruct (status c) eqn:E; simpl.
  - by destruct (buf (outputCh c)), (closed (outputCh c)); simpl.
  - destruct (closed (inputCh c)); simpl; [done|]. by case_decide; simpl.
Qed.

(** ** No panic reaches a caller *)

Lemma not_crashed_run_ctl p v : run_ctl p <> CtlCrashed v.
Proof. by destruct p. Qed.

Lemma step_no_crash t s s' :
  (forall v, ctl s <> CtlCrashed v) -> step t s = Some s' -> forall v, ctl s' <> CtlCrashed v.
Proof.
  destruct s as [c b ct zs tr]. simpl. intros Hn Hs v.
  destruct t as [| | |i]; simpl in Hs.
  - unfold step_body in Hs. simpl in Hs.
    destruct b as [f k|r|r|r|e]; simpl in *; try done.
    + destruct (Yield_step c f); by simplify_eq/=.
    + by simplify_eq/=.
    + destruct (chan_close (inputCh c)); by simplify_eq/=.
    + destruct (chan_close (outputCh c)); by simplify_eq/=.
  - unfold step_ctl in Hs. simpl in Hs.
    destruct ct as [e|v'|f k|f k|f e k]; simpl in *; try done.
    + pose proof (Resume_step_no_panic c f) as Hq.
      destruct (Resume_step c f); simplify_eq/=; try done; try apply not_crashed_run_ctl.
      by destruct (Hq a c0 f0 v0).
    + pose proof (Resume_step_no_panic c f) as Hq.
      destruct (Resume_step c f); simplify_eq/=; try done.
      by destruct (Hq a c0 f0 v0).
    + simplify_eq/=. apply not_crashed_run_ctl.
  - unfold step_timer in Hs. simpl in Hs.
    destruct ct as [e|v'|f k|f k|f e k]; simplify_eq/=; apply not_crashed_run_ctl.
  - unfold step_zombie in Hs. simpl in Hs. destruct (zs !! i) as [f|]; [|done].
    pose proof (Resume_step_no_panic c f) as Hq.
    destruct (Resume_step c f); simplify_eq/=; try done.
    by destruct (Hq a c0 f0 v0).
Qed.

Lemma run_no_crash sched s s' :
  (forall v, ctl s <> CtlCrashed v) -> run sched s = Some s' -> forall v, ctl s' <> CtlCrashed v.
Proof.
  revert s. induction sched as [|t sched IH]; intros s Hn Hr; simplify_eq/=; [done|].
  destruct (step t s) as [s1|] eqn:Hst; [|done]. eauto using step_no_crash.
Qed.

Lemma launch_no_crash v p s : launch v p = inl s -> forall pv, ctl s <> CtlCrashed pv.
Proof.
  unfold launch, Create. destruct (normalize v); [|done]. intros [= <-] pv. simpl.
  apply not_crashed_run_ctl.
Qed.

(** ** The scenario of [TestCreate] runs *)

Lemma HelloWorld_launch : launch HelloWorld HelloWorld_controller = inl HelloWorld_system.
Proof. reflexivity. Qed.

(** ** Create *)

(** C7: [Create] accepts exactly the six supported shapes.  For a value of
    one of them it returns a handle in state Created (both channels empty and
    open), the goroutine of the body at its startup [Yield], and no error; for
    any other value it returns [ErrInvalidFunction], no handle and no
    goroutine. *)
Theorem Create_supported_shapes (v : value) :
  match Create v with
  | (Some (c, b), err) =>
      type_of v ∈ supported_shapes /\ err = None /\
      c = MkCoroutine CREATED make_chan make_chan /\ status c = CREATED /\
      exists function, normalize v = Some function /\ b = spawn function
  | (None, err) =>
      (type_of v ∉ supported_shapes) /\ err = Some ErrInvalidFunction
  end.
Proof.
  unfold Create, supported_shapes.
  destruct v; simpl;
    (split; [apply (bool_decide_unpack _); vm_compute; exact I|]); eauto 10.
Qed.

(** ** The panic boundary *)

(** C10: no statement of [Resume] or [Yield] (the closure is the same for
    the timeout and context variants) ends in a panic once it runs under the
    boundary: a fault becomes the error result.  Sending the input after the
    body has closed the channels is such a fault: the closure panics with
    "send on closed channel" and the call returns the recovered error.  In the
    running system the controller is never taken down by a panic. *)
Theorem no_panic_reaches_caller :
  (forall c f a c' f' pv, Resume_step c f <> Panics a c' f' pv) /\
  (forall c f a c' f' pv, Yield_step c f <> Panics a c' f' pv) /\
  (forall c f, r_pc f = RSend -> closed (inputCh c) = true ->
     Resume_closure c f = Panics AFault c f PSendOnClosedChannel /\
     Resume_step c f = Returns AFault c f (Some (ErrRecovered PSendOnClosedChannel))) /\
  (forall v p sched s0 s, launch v p = inl s0 -> run sched s0 = Some s ->
     forall pv, ctl s <> CtlCrashed pv).
Proof.
  split_and!.
  - intros. apply Resume_step_no_panic.
  - intros. apply Yield_step_no_panic.
  - intros c f Hpc Hc. unfold Resume_step, Resume_closure, chan_send. by rewrite Hpc, Hc.
  - intros v p sched s0 s Hl Hr. eapply run_no_crash; [|exact Hr]. by eapply launch_no_crash.
Qed.

Lemma no_panic_reaches_caller_witness :
  exists s,
    run Failing_schedule Failing_system = Some s /\
    resume_log s = [([], None); ([], Some (ErrRecovered PSendOnClosedChannel))] /\
    forall pv, ctl s <> CtlCrashed pv.
Proof.
  eexists. split; [vm_compute; reflexivity|]. split; [reflexivity|].
  refine (proj2 (proj2 (proj2 no_panic_reaches_caller)) Failing Twice_controller
            Failing_schedule Failing_system _ eq_refl _).
  vm_compute; reflexivity.
Defined.

(** ** The order of the statements of Yield *)

Lemma Yield_exec_from f acts f' err :
  Yield_exec f acts f' err ->
  match y_pc f with
  | YSwitch =>
      (acts = [AReadStatus CLOSED] /\ err = Some ErrCoroutineIsClosed) \/
      (acts = [AReadStatus CREATED; ASendOutput (y_output f); ARecvInput (y_input f');
               AWriteStatus RUNNING] /\ err = None) \/
      (acts = [AReadStatus CREATED; AFault] /\
       err = Some (ErrRecovered PSendOnClosedChannel)) \/
      (exists st, st <> CREATED /\ st <> CLOSED /\
         ((acts = [AReadStatus st; AWriteStatus SUSPENDED; ASendOutput (y_output f);
                   ARecvInput (y_input f'); AWriteStatus RUNNING] /\ err = None) \/
          (acts = [AReadStatus st; AWriteStatus SUSPENDED; AFault] /\
           err = Some (ErrRecovered PSendOnClosedChannel))))
  | YSetSuspended =>
      (acts = [AWriteStatus SUSPENDED; ASendOutput (y_output f); ARecvInput (y_input f');
               AWriteStatus RUNNING] /\ err = None) \/
      (acts = [AWriteStatus SUSPENDED; AFault] /\
       err = Some (ErrRecovered PSendOnClosedChannel))
  | YSend =>
      (acts = [ASendOutput (y_output f); ARecvInput (y_input f'); AWriteStatus RUNNING] /\
       err = None) \/
      (acts = [AFault] /\ err = Some (ErrRecovered PSendOnClosedChannel))
  | YRecv => acts = [ARecvInput (y_input f'); AWriteStatus RUNNING] /\ err = None
  | YSetRunning => acts = [AWriteStatus RUNNING] /\ err = None /\ f' = f
  end.
Proof.
  induction 1 as [c f a c' f' err Hs|c f a c' f1 acts f' err Hs _ IH].
  - unfold Yield_step, Yield_closure, chan_send, chan_recv in Hs.
    destruct f as [yo yi []]; simpl in *.
    + destruct (status c); simplify_eq/=. by left.
    + done.
    + destruct (closed (outputCh c)); simplify_eq/=; [by right|].
      case_decide; simplify_eq/=.
    + destruct (buf (inputCh c)), (closed (inputCh c)); simplify_eq/=.
    + by simplify_eq/=.
  - unfold Yield_step, Yield_closure, chan_send, chan_recv in Hs.
    destruct f as [yo yi []]; simpl in *.
    + destruct (status c) eqn:Hst; simplify_eq/=.
      * destruct IH as [[-> ->]|[-> ->]]; eauto.
      * right; right; right. exists RUNNING.
        destruct IH as [[-> ->]|[-> ->]]; eauto 10.
      * right; right; right. exists SUSPENDED.
        destruct IH as [[-> ->]|[-> ->]]; eauto 10.
    + simplify_eq/=. destruct IH as [[-> ->]|[-> ->]]; eauto.
    + destruct (closed (outputCh c)); simplify_eq/=.
      case_decide; simplify_eq/=. destruct IH as [-> ->]. eauto.
    + destruct (buf (inputCh c)), (closed (inputCh c)); simplify_eq/=;
        destruct IH as (-> & -> & ->); eauto.
    + by simplify_eq/=.
Qed.

(** C6: a [Yield] that meets status Created sends its output, then
    receives its input, then sets the status to Running; one that meets any
    other status but Closed first sets the status to Suspended and then does
    the same three things.  This is the list of the statements of every call
    that returns without error, whatever the other goroutines do in between;
    and when the output channel has room and the input is there, a call on
    its own does run through these statements and returns the input. *)
Theorem Yield_statement_order (output : slice) :
  (forall acts f',
     Yield_exec (Yield_entry output) acts f' None ->
     exists st, st <> CLOSED /\
       acts = AReadStatus st ::
              (if decide (st = CREATED) then [] else [AWriteStatus SUSPENDED]) ++
              [ASendOutput output; ARecvInput (y_input f'); AWriteStatus RUNNING]) /\
  (forall c i,
     status c <> CLOSED -> outputCh c = make_chan -> buf (inputCh c) = [i] ->
     Yield_alone 5 c (Yield_entry output) =
       Some (AReadStatus (status c) ::
             (if decide (status c = CREATED) then [] else [AWriteStatus SUSPENDED]) ++
             [ASendOutput output; ARecvInput i; AWriteStatus RUNNING],
             MkCoroutine RUNNING (Chan [] (closed (inputCh c))) (Chan [output] false),
             MkYieldFrame output i YSetRunning, None)).
Proof.
  split.
  - intros acts f' He. apply Yield_exec_from in He. simpl in He.
    destruct He as [[_ ?]|[[-> _]|[[_ ?]|(st & Hn1 & Hn2 & [[-> _]|[_ ?]])]]]; try done.
    + by exists CREATED.
    + exists st. split; [done|]. by rewrite decide_False.
  - intros [st cin cout] i Hst Hout Hin. simpl in *. subst cout.
    destruct cin as [bin clin]. simpl in *. subst bin.
    destruct st; try done; reflexivity.
Qed.

Lemma Yield_statement_order_witness :
  Yield_exec (Yield_entry [AStr "Hello"])
    [AReadStatus RUNNING; AWriteStatus SUSPENDED; ASendOutput [AStr "Hello"];
     ARecvInput [AStr "World"]; AWriteStatus RUNNING]
    (MkYieldFrame [AStr "Hello"] [AStr "World"] YSetRunning) None /\
  exists st, st <> CLOSED /\
    [AReadStatus RUNNING; AWriteStatus SUSPENDED; ASendOutput [AStr "Hello"];
     ARecvInput [AStr "World"]; AWriteStatus RUNNING] =
    AReadStatus st :: (if decide (st = CREATED) then [] else [AWriteStatus SUSPENDED]) ++
      [ASendOutput [AStr "Hello"]; ARecvInput [AStr "World"]; AWriteStatus RUNNING].
Proof.
  assert (He : Yield_exec (Yield_entry [AStr "Hello"])
    [AReadStatus RUNNING; AWriteStatus SUSPENDED; ASendOutput [AStr "Hello"];
     ARecvInput [AStr "World"]; AWriteStatus RUNNING]
    (MkYieldFrame [AStr "Hello"] [AStr "World"] YSetRunning) None).
  { eapply (Yield_exec_go (MkCoroutine RUNNING make_chan make_chan)); [reflexivity|].
    eapply (Yield_exec_go (MkCoroutine RUNNING make_chan make_chan)); [reflexivity|].
    eapply (Yield_exec_go (MkCoroutine SUSPENDED make_chan make_chan)); [reflexivity|].
    eapply (Yield_exec_go (MkCoroutine SUSPENDED (Chan [[AStr "World"]] false) make_chan));
      [reflexivity|].
    eapply (Yield_exec_return (MkCoroutine SUSPENDED make_chan make_chan)). reflexivity. }
  split; [exact He|].
  exact (proj1 (Yield_statement_order [AStr "Hello"]) _ _ He).
Defined.

(** ** The scenario of [TestCreate], under every schedule *)

Ltac find_view := repeat first [left; reflexivity | right]; fail.

Lemma HelloWorld_views_closed s t s' :
  In (view s) HelloWorld_views -> step t s = Some s' -> In (view s') HelloWorld_views.
Proof.
  destruct s as [c b ct zs tr]. unfold HelloWorld_views, view, resume_log, yield_log.
  simpl. intros Hin Hs.
  repeat (destruct Hin as [Heq|Hin];
    [injection Heq as <- <- <- <- Hr Hy;
     destruct t; simpl in Hs; first [discriminate Hs | injection Hs as <-];
     simpl; rewrite ?omap_app, <-?Hr, <-?Hy; simpl; find_view|]).
  done.
Qed.

Lemma HelloWorld_views_reach sched s :
  run sched HelloWorld_system = Some s -> In (view s) HelloWorld_views.
Proof.
  assert (H0 : In (view HelloWorld_system) HelloWorld_views) by (left; reflexivity).
  revert H0. generalize HelloWorld_system. induction sched as [|t sched IH]; intros s0 H0 Hr.
  - by simplify_eq/=.
  - simpl in Hr. destruct (step t s0) as [s1|] eqn:Hs; [|done].
    eauto using HelloWorld_views_closed.
Qed.

Lemma HelloWorld_views_results s :
  In (view s) HelloWorld_views ->
  resume_log s `prefix_of` [([], None); ([AStr "Hello"], None)] /\
  yield_log s `prefix_of` [([], None); ([AStr "World"], None)] /\
  (finished s = true ->
     resume_log s = [([], None); ([AStr "Hello"], None)] /\
     yield_log s = [([], None); ([AStr "World"], None)] /\
     ctl s = CtlDone None /\ body s = BodyDone None).
Proof.
  destruct s as [c b ct zs tr]. unfold HelloWorld_views, view, finished. simpl.
  generalize (resume_log (MkState c b ct zs tr)) (yield_log (MkState c b ct zs tr)).
  intros rl yl Hin.
  repeat (destruct Hin as [Heq|Hin];
    [injection Heq as <- <- <- <- <- <-;
     split_and!; [by eexists|by eexists|first [discriminate | done]]|]).
  done.
Qed.

Lemma HelloWorld_views_progress s :
  In (view s) HelloWorld_views -> finished s = false -> exists t s', step t s = Some s'.
Proof.
  destruct s as [c b ct zs tr]. unfold HelloWorld_views, view, finished. simpl.
  intros Hin Hf.
  repeat (destruct Hin as [Heq|Hin];
    [injection Heq as <- <- <- <- _ _;
     first [ discriminate Hf
           | exists TBody; eexists; reflexivity
           | exists TCtl; eexists; reflexivity ]|]).
  done.
Qed.

(** C3: with the body of the test, which yields ["Hello"], whatever the
    schedule: the first [Resume], with no arguments, returns the empty output
    and no error; the second, [Resume("World")], returns ["Hello"] and no
    error; the startup [Yield] returns the empty input of the first resume and
    the [Yield("Hello")] of the body returns exactly ["World"].  No run gets
    stuck before both goroutines are through, and the body returns nil. *)
Theorem HelloWorld_handoff s0 sched s :
  launch HelloWorld HelloWorld_controller = inl s0 -> run sched s0 = Some s ->
  resume_log s `prefix_of` [([], None); ([AStr "Hello"], None)] /\
  yield_log s `prefix_of` [([], None); ([AStr "World"], None)] /\
  (finished s = true ->
     resume_log s = [([], None); ([AStr "Hello"], None)] /\
     yield_log s = [([], None); ([AStr "World"], None)] /\
     ctl s = CtlDone None /\ body s = BodyDone None) /\
  (finished s = false -> exists t s', step t s = Some s').
Proof.
  intros [= <-] Hr. apply HelloWorld_views_reach in Hr.
  destruct (HelloWorld_views_results _ Hr) as (? & ? & ?).
  split_and!; try done. by apply HelloWorld_views_progress.
Qed.

Lemma HelloWorld_handoff_witness :
  launch HelloWorld HelloWorld_controller = inl HelloWorld_system /\
  exists s, run HelloWorld_schedule HelloWorld_system = Some s /\
    finished s = true /\
    resume_log s = [([], None); ([AStr "Hello"], None)] /\
    yield_log s = [([], None); ([AStr "World"], None)].
Proof.
  split; [reflexivity|]. eexists. split; [vm_compute; reflexivity|].
  split; [reflexivity|].
  match goal with
  | |- resume_log ?s = _ /\ _ =>
      pose proof (HelloWorld_handoff HelloWorld_system HelloWorld_schedule s eq_refl
                    ltac:(vm_compute; reflexivity)) as (_ & _ & H & _)
  end.
  destruct (H eq_refl) as (H1 & H2 & _). by split.
Defined.

(** ** A timed resume that expires *)

(** C1, as stated, fails: the timer of [ResumeWithTimeout] fires before the
    body has produced anything; the call returns the deadline error, yet the
    status is still Created, and the next [Resume] succeeds. *)
Lemma timed_out_resume_counterexample :
  launch HelloWorld Patient_controller = inl Patient_system /\
  ((fun s => (status (co s), resume_log s)) <$> run [TTimer] Patient_system) =
    Some (CREATED, [([], Some ErrDeadlineExceeded)]) /\
  (resume_log <$> run Patient_schedule Patient_system) =
    Some [([], Some ErrDeadlineExceeded); ([], None)].
Proof. split_and!; vm_compute; reflexivity. Qed.

(** C1, amended: when the timer of a [ResumeWithTimeout] fires before the
    handoff is complete, the call returns the deadline error, with the output
    it has so far, and nothing else happens: the handle, with its status, is
    as it was, no status is written, and the closure of the call stays behind.
    The handle is not closed by it: a later [Resume] on it can succeed.  In
    the registry variant the timer case of [resume] panics with the timeout
    error instead of returning, whatever the state of the call. *)
Theorem timed_out_resume_leaves_handle s f k :
  ctl s = InTimed f k ->
  (exists s', step TTimer s = Some s' /\
     co s' = co s /\ body s' = body s /\ status_log s' = status_log s /\
     resume_log s' = resume_log s ++ [(r_output f, Some ErrDeadlineExceeded)] /\
     ctl s' = run_ctl (k (r_output f) (Some ErrDeadlineExceeded)) /\
     zombies s' = zombies s ++ [f]) /\
  (exists sched s1 s2,
     run [TTimer] Patient_system = Some s1 /\ status (co s1) = CREATED /\
     run sched s1 = Some s2 /\
     resume_log s2 = [([], Some ErrDeadlineExceeded); ([], None)]) /\
  (forall c inData pc,
     Registry.resume Registry.CaseTimer c inData pc =
       Registry.ResumePanics c "coroutine suspended timeout").
Proof.
  intros Hc. split_and!.
  - destruct s as [c b ct zs tr]. simpl in *. subst ct. unfold step_timer. simpl.
    eexists. split; [reflexivity|]. unfold status_log, resume_log. simpl.
    rewrite !omap_app. simpl. by rewrite app_nil_r.
  - exists (tail Patient_schedule). eexists. eexists.
    split; [vm_compute; reflexivity|]. split; [reflexivity|].
    split; [vm_compute; reflexivity|]. reflexivity.
  - done.
Qed.

Lemma timed_out_resume_leaves_handle_witness :
  exists f k, ctl Patient_system = InTimed f k /\
  exists s', step TTimer Patient_system = Some s' /\ co s' = co Patient_system.
Proof.
  eexists. eexists. split; [reflexivity|].
  destruct (proj1 (timed_out_resume_leaves_handle Patient_system _ _ eq_refl))
    as (s' & Hs & Hco & _).
  exists s'. by split.
Defined.

(** ** The error of the body *)








(** ** Start *)

(** C9: [Start] is [Create] followed by [c.Resume(nil)], and that call's
    variadic input is the one-element slice holding nil, not the empty one.
    With a body that refuses arguments, [Start] makes the body fail where
    [Create] followed by a [Resume] with no arguments makes it return nil;
    the value that [Start] returns is nil in both.  For a value of no
    supported shape [Start] returns the error of [Create]. *)
Theorem Start_resumes_with_nil :
  Start NoArguments =
    inl (system created (spawn NoArguments_function)
           (CResume [ANil] (fun _ err => CReturn err))) /\
  Start_spec NoArguments =
    inl (system created (spawn NoArguments_function)
           (CResume [] (fun _ err => CReturn err))) /\
  ((fun s => (yield_log s, body s, ctl s)) <$>
     run Start_schedule
       (system created (spawn NoArguments_function)
          (CResume [ANil] (fun _ err => CReturn err)))) =
    Some ([([ANil], None)], BodyDone (Some (ErrApp "unexpected arguments")), CtlDone None) /\
  ((fun s => (yield_log s, body s, ctl s)) <$>
     run Start_schedule
       (system created (spawn NoArguments_function)
          (CResume [] (fun _ err => CReturn err)))) =
    Some ([([], None)], BodyDone None, CtlDone None) /\
  (forall v, normalize v = None -> Start v = inr ErrInvalidFunction).
Proof.
  split_and!; try (vm_compute; reflexivity).
  intros v Hv. unfold Start, launch, Create. by rewrite Hv.
Qed.

(** ** More on the handoff *)

Lemma holding_zombie (zs : list ResumeFrame) :
  0 < sum_list_with holding zs -> exists i z, zs !! i = Some z /\ r_pc z = RSend.
Proof.
  induction zs as [|z zs IH]; simpl; [lia|]. intros Hs.
  destruct (r_pc z) eqn:Hz.
  - unfold holding in Hs at 1. rewrite Hz in Hs. destruct IH as (i & z' & ? & ?); [lia|].
    by exists (S i), z'.
  - unfold holding in Hs at 1. rewrite Hz in Hs. destruct IH as (i & z' & ? & ?); [lia|].
    by exists (S i), z'.
  - by exists 0, z.
Qed.

(** X2: a [Resume] under way never leaves the system stuck: while the
    controller is inside an untimed [Resume], the controller, the body or a
    closure left by an expired timeout can take a step. *)
Theorem pending_resume_can_move v p sched s0 s f k :
  launch v p = inl s0 -> run sched s0 = Some s -> ctl s = InResume f k ->
  exists t s', t <> TTimer /\ step t s = Some s'.
Proof.
  intros Hl Hr Hc. destruct (reachable_inv _ _ _ _ _ Hl Hr) as (Hp & Ht & _).
  destruct s as [c b ct zs tr]. unfold resumers_holding in *. simpl in *. subst ct.
  simpl in *. destruct f as [inp out pc].
  assert (Hctl : pc = RSwitch \/
            (pc = RRecv /\ (buf (outputCh c) <> [] \/ closed (outputCh c) = true)) \/
            (pc = RSend /\ (closed (inputCh c) = true \/ buf (inputCh c) = [])) ->
          exists s', step TCtl (MkState c b (InResume (MkResumeFrame inp out pc) k) zs tr)
                       = Some s').
  { unfold step, step_ctl, Resume_step, Resume_closure, chan_recv, chan_send. simpl.
    intros [->|[[-> H]|[-> H]]]; simpl.
    - destruct (status c); simpl; eauto.
    - destruct (buf (outputCh c)); simpl; [|eauto].
      destruct H as [? | ->]; [done|eauto].
    - destruct (closed (inputCh c)) eqn:Hci; simpl; [eauto|].
      destruct H as [? | ->]; [done|]. simpl. eauto. }
  assert (Hbody : (exists s', step_body (MkState c b (InResume (MkResumeFrame inp out pc) k) zs tr)
                    = Some s') ->
          exists t s', t <> TTimer /\
            step t (MkState c b (InResume (MkResumeFrame inp out pc) k) zs tr) = Some s').
  { intros [s' Hs]. by exists TBody, s'. }
  assert (Hc' : (exists s', step TCtl (MkState c b (InResume (MkResumeFrame inp out pc) k) zs tr)
                       = Some s') ->
          exists t s', t <> TTimer /\
            step t (MkState c b (InResume (MkResumeFrame inp out pc) k) zs tr) = Some s').
  { intros [s' Hs]. by exists TCtl, s'. }
  unfold holding in Ht. simpl in Ht.
  destruct pc; [apply Hc'; apply Hctl; by left| |].
  - (* waiting for an output *)
    destruct (buf (outputCh c)) as [|o os] eqn:Hbo;
      [|apply Hc', Hctl; right; left; split; [done|by left]].
    destruct b as [[yo yi ypc] kb|r|r|r|e]; simpl in *.
    + destruct Hp as (Hci & Hco & Hp). destruct ypc.
      * apply Hbody. unfold step_body, Yield_step, Yield_closure. simpl.
        destruct (status c); simpl; eauto.
      * apply Hbody. unfold step_body, Yield_step, Yield_closure. simpl. eauto.
      * apply Hbody. unfold step_body, Yield_step, Yield_closure, chan_send. simpl.
        rewrite Hco, Hbo. simpl. eauto.
      * destruct (buf (inputCh c)) as [|i0 irest] eqn:Hbi.
        -- rewrite Hbo in Ht. simpl in Ht. destruct (holding_zombie zs) as (i & z & Hz & Hzpc); [unfold holding; lia|].
           exists (TZombie i). unfold step, step_zombie, Resume_step, Resume_closure, chan_send.
           simpl. rewrite Hz, Hzpc, Hci, Hbi. simpl. eauto.
        -- apply Hbody. unfold step_body, Yield_step, Yield_closure, chan_recv. simpl.
           rewrite Hbi. eauto.
      * apply Hbody. unfold step_body, Yield_step, Yield_closure. simpl. eauto.
    + apply Hbody. unfold step_body. simpl. eauto.
    + apply Hbody. unfold step_body, chan_close. simpl. destruct Hp as (-> & _). eauto.
    + apply Hbody. unfold step_body, chan_close. simpl. destruct Hp as (_ & -> & _). eauto.
    + apply Hc', Hctl. right; left. split; [done|]. right. by destruct Hp as (_ & ? & _).
  - (* about to send *)
    apply Hc', Hctl. right; right. split; [done|].
    destruct (closed (inputCh c)) eqn:Hci; [by left|right].
    destruct b as [[yo yi []] kb|r|r|r|e]; simpl in *; destruct_and?; try lia;
      try congruence.
    destruct (buf (inputCh c)); simpl in *; [done|lia].
Qed.

Lemma pending_resume_can_move_witness :
  launch HelloWorld HelloWorld_controller = inl HelloWorld_system /\
  exists s f k, run [TCtl] HelloWorld_system = Some s /\
    ctl s = InResume f k /\ r_pc f = RRecv /\ step TCtl s = None /\
    exists t s', t <> TTimer /\ step t s = Some s'.
Proof.
  split; [reflexivity|]. eexists _, _, _. split; [vm_compute; reflexivity|].
  split; [reflexivity|]. split; [reflexivity|]. split; [reflexivity|].
  exact (pending_resume_can_move HelloWorld HelloWorld_controller [TCtl] HelloWorld_system
           _ _ _ eq_refl eq_refl eq_refl).
Defined.

(** ** Outputs *)

Lemma outputs_at_quiet c b ct zs tr c' b' ct' zs' l :
  outputs_at (MkState c b ct zs tr) ->
  outputCh c' = outputCh c \/
    (buf (outputCh c') = buf (outputCh c) /\ closed (outputCh c') = true) ->
  omap ev_yielded l = [] -> omap ev_taken l = [] ->
  outputs_at (MkState c' b' ct' zs' (tr ++ l)).
Proof.
  unfold outputs_at, taken_log, yielded_log. simpl. intros (m & Hm & Hc) Ho Hy Ht.
  rewrite !omap_app, Hy, Ht, !app_nil_r. exists m.
  destruct Ho as [->|[-> Hcl]]; [done|]. split; [done|congruence].
Qed.

Lemma outputs_at_recv c b ct zs tr b' ct' zs' v ch :
  chan_recv (outputCh c) = Some (v, ch) ->
  outputs_at (MkState c b ct zs tr) ->
  outputs_at (MkState (set_outputCh c ch) b' ct' zs' (tr ++ [EvAction (ARecvOutput v)])).
Proof.
  unfold outputs_at, taken_log, yielded_log, chan_recv. simpl. intros Hr (m & Hm & Hc).
  rewrite !omap_app. simpl. rewrite app_nil_r.
  destruct (buf (outputCh c)) as [|w rest] eqn:Hb.
  - destruct (closed (outputCh c)) eqn:Hcl; simplify_eq/=. rewrite Hb. simpl.
    exists (S m). rewrite app_nil_r in *. rewrite Hm, <-app_assoc.
    split; [|rewrite Hcl; done]. f_equal. change (replicate (S m) (@nil any)) with ([] :: replicate m (@nil any)). by rewrite replicate_cons_app.
  - simplify_eq/=. exists m. by rewrite <-app_assoc.
Qed.

Lemma outputs_at_send c b ct zs tr b' ct' zs' v ch :
  chan_send (outputCh c) v = SendOk ch ->
  outputs_at (MkState c b ct zs tr) ->
  outputs_at (MkState (set_outputCh c ch) b' ct' zs' (tr ++ [EvAction (ASendOutput v)])).
Proof.
  unfold outputs_at, taken_log, yielded_log, chan_send. simpl. intros Hs (m & Hm & Hc).
  rewrite !omap_app. simpl. rewrite app_nil_r.
  destruct (closed (outputCh c)) eqn:Hcl; [done|]. case_decide; simplify_eq/=.
  rewrite (Hc eq_refl) in Hm. simpl in Hm. rewrite app_nil_r in Hm.
  exists 0. simpl. by rewrite app_nil_r, app_assoc, Hm.
Qed.

Lemma outputs_at_resumer c b ct zs tr f :
  outputs_at (MkState c b ct zs tr) ->
  forall b' ct' zs',
  match Resume_step c f with
  | Blocked => True
  | Goes a c' _ | Returns a c' _ _ | Panics a c' _ _ =>
      forall l, omap ev_yielded l = [] -> omap ev_taken l = [] ->
      outputs_at (MkState c' b' ct' zs' (tr ++ EvAction a :: l))
  end.
Proof.
  intros Ho b' ct' zs'. unfold Resume_step, Resume_closure.
  assert (Hcons : forall c' a l,
    outputs_at (MkState c' b' ct' zs' (tr ++ [EvAction a])) ->
    omap ev_yielded l = [] -> omap ev_taken l = [] ->
    outputs_at (MkState c' b' ct' zs' (tr ++ EvAction a :: l))).
  { intros c' a l H Hy Ht. rewrite (assoc_L (++) tr [EvAction a] l : tr ++ EvAction a :: l = _).
    apply (outputs_at_quiet _ _ _ _ _ _ _ _ _ _ H); [by left|done..]. }
  destruct (r_pc f); simpl.
  - destruct (status c); simpl; intros l Hy Ht; apply Hcons; try done;
      (apply (outputs_at_quiet _ _ _ _ _ _ _ _ _ _ Ho); [by left|done..]).
  - destruct (chan_recv (outputCh c)) as [[v ch]|] eqn:Hr; simpl; [|done].
    intros l Hy Ht; apply Hcons; try done. by apply (outputs_at_recv _ b ct zs).
  - unfold chan_send. destruct (closed (inputCh c)); simpl.
    + intros l Hy Ht; apply Hcons; try done. apply (outputs_at_quiet _ _ _ _ _ _ _ _ _ _ Ho); [by left|done..].
    + case_decide; simpl; [|done].
      intros l Hy Ht; apply Hcons; try done. apply (outputs_at_quiet _ _ _ _ _ _ _ _ _ _ Ho); [by left|done..].
Qed.

Lemma outputs_at_step t s s' : outputs_at s -> step t s = Some s' -> outputs_at s'.
Proof.
  destruct s as [c b ct zs tr]. intros Ho. destruct t; simpl.
  - unfold step_body. simpl. destruct b as [fy k|r|r|r|e]; simpl; try done.
    + unfold Yield_step, Yield_closure. destruct (y_pc fy); simpl.
      * destruct (status c); simpl; intros [= <-];
          (apply (outputs_at_quiet _ _ _ _ _ _ _ _ _ _ Ho); [by left|done..]).
      * intros [= <-]. apply (outputs_at_quiet _ _ _ _ _ _ _ _ _ _ Ho); [by left|done..].
      * destruct (chan_send (outputCh c) (y_output fy)) eqn:Hs; simpl; intros [= <-].
        -- by apply (outputs_at_send _ (InYield fy k) ct zs).
        -- apply (outputs_at_quiet _ _ _ _ _ _ _ _ _ _ Ho); [by left|done..].
      * destruct (chan_recv (inputCh c)) as [[v ch]|]; simpl; intros [= <-].
        apply (outputs_at_quiet _ _ _ _ _ _ _ _ _ _ Ho); [by left|done..].
      * intros [= <-]. apply (outputs_at_quiet _ _ _ _ _ _ _ _ _ _ Ho); [by left|done..].
    + intros [= <-]. apply (outputs_at_quiet _ _ _ _ _ _ _ _ _ _ Ho); [by left|done..].
    + unfold chan_close. destruct (closed (inputCh c)); intros [= <-].
      * apply (outputs_at_quiet _ _ _ _ _ _ _ _ _ _ Ho); [by left|done..].
      * rewrite <-(app_nil_r tr). apply (outputs_at_quiet _ _ _ _ _ _ _ _ _ _ Ho); [by left|done..].
    + unfold chan_close. destruct (closed (outputCh c)) eqn:Hcl; intros [= <-].
      * apply (outputs_at_quiet _ _ _ _ _ _ _ _ _ _ Ho); [by left|done..].
      * rewrite <-(app_nil_r tr). apply (outputs_at_quiet _ _ _ _ _ _ _ _ _ _ Ho); [by right|done..].
  - unfold step_ctl. simpl. destruct ct as [e|pv|f k|f k|f e k]; simpl; try done.
    + pose proof (outputs_at_resumer _ _ _ _ _ f Ho) as Hk.
      destruct (Resume_step c f); intros [= <-]; by apply Hk.
    + pose proof (outputs_at_resumer _ _ _ _ _ f Ho) as Hk.
      destruct (Resume_step c f); intros [= <-]; by apply Hk.
    + intros [= <-]. apply (outputs_at_quiet _ _ _ _ _ _ _ _ _ _ Ho); [by left|done..].
  - unfold step_timer. simpl. destruct ct as [e|pv|f k|f k|f e k]; simpl; try done;
      intros [= <-]; (apply (outputs_at_quiet _ _ _ _ _ _ _ _ _ _ Ho); [by left|done..]).
  - unfold step_zombie. simpl. destruct (zs !! i) as [f|]; [|done].
    pose proof (outputs_at_resumer _ _ _ _ _ f Ho) as Hk.
    destruct (Resume_step c f); intros [= <-]; by apply Hk.
Qed.

Lemma outputs_at_run sched s s' : outputs_at s -> run sched s = Some s' -> outputs_at s'.
Proof.
  revert s. induction sched as [|t sched IH]; intros s Hs Hr; simplify_eq/=; [done|].
  destruct (step t s) as [s1|] eqn:Hst; [|done]. eauto using outputs_at_step.
Qed.

(** X4: the outputs reach the [Resume] closures in the order of the [Yield]
    calls, none lost and none twice: what the closures took from the output
    channel, followed by what is still in it, is what the [Yield] calls sent,
    followed by one nil slice for each receive made after the body's
    goroutine closed the channel; before that there is none. *)
Theorem outputs_in_order v p sched s0 s :
  launch v p = inl s0 -> run sched s0 = Some s ->
  exists m, taken_log s ++ buf (outputCh (co s)) = yielded_log s ++ replicate m [] /\
            (closed (outputCh (co s)) = false -> m = 0).
Proof.
  intros Hl Hr. eapply (outputs_at_run sched s0 s); [|done].
  unfold launch, Create in Hl. destruct (normalize v); [|done]. simplify_eq/=.
  by exists 0.
Qed.

Lemma outputs_in_order_witness :
  launch HelloWorld HelloWorld_controller = inl HelloWorld_system /\
  exists s, run HelloWorld_schedule HelloWorld_system = Some s /\
    taken_log s = [[]; [AStr "Hello"]] /\ yielded_log s = [[]; [AStr "Hello"]] /\
    exists m, taken_log s ++ buf (outputCh (co s)) = yielded_log s ++ replicate m [] /\
              (closed (outputCh (co s)) = false -> m = 0).
Proof.
  split; [reflexivity|]. eexists. split; [vm_compute; reflexivity|].
  split; [vm_compute; reflexivity|]. split; [vm_compute; reflexivity|].
  refine (outputs_in_order HelloWorld HelloWorld_controller HelloWorld_schedule
            HelloWorld_system _ eq_refl _).
  vm_compute; reflexivity.
Defined.

(** ** The first resume *)

Lemma step_resume_log t s s' :
  step t s = Some s' -> exists l, resume_log s' = resume_log s ++ l.
Proof.
  assert (Hq : forall c b ct zs l, exists l',
    resume_log (MkState c b ct zs (trace s ++ l)) = resume_log s ++ l').
  { intros. unfold resume_log. simpl. rewrite omap_app. eauto. }
  destruct t; simpl.
  - unfold step_body. destruct (body s) as [fy k|r|r|r|e]; try done.
    + destruct (Yield_step (co s) fy); intros [= <-]; apply Hq.
    + intros [= <-]; apply Hq.
    + destruct (chan_close _); intros [= <-]; [exists []; by rewrite app_nil_r|apply Hq].
    + destruct (chan_close _); intros [= <-]; [exists []; by rewrite app_nil_r|apply Hq].
  - unfold step_ctl. destruct (ctl s) as [e|pv|f k|f k|f e k]; try done.
    + destruct (Resume_step (co s) f); intros [= <-]; apply Hq.
    + destruct (Resume_step (co s) f); intros [= <-]; apply Hq.
    + intros [= <-]; apply Hq.
  - unfold step_timer. destruct (ctl s) as [e|pv|f k|f k|f e k]; try done;
      intros [= <-]; apply Hq.
  - unfold step_zombie. destruct (zombies s !! i) as [f|]; [|done].
    destruct (Resume_step (co s) f); intros [= <-]; apply Hq.
Qed.

Lemma first_resume_at_step t s s' :
  first_resume_at s -> step t s = Some s' -> first_resume_at s'.
Proof.
  intros Hi Hs. unfold first_resume_at in Hi.
  destruct (resume_log s) as [|r rest] eqn:Hlog.
  2:{ destruct (step_resume_log _ _ _ Hs) as [l Hl]. unfold first_resume_at.
      rewrite Hl, Hlog. done. }
  destruct Hi as (f & k & fy & kb & Hc & Hz & Hb & Hyo & Hpc & Hst & Hci & Hbi & Hco & Hbo & Hro).
  destruct s as [c b ct zs tr]. simpl in *. subst b ct zs.
  unfold first_resume_at. destruct t; simpl in Hs.
  - unfold step_body, Yield_step, Yield_closure in Hs. simpl in Hs.
    destruct fy as [yo yi ypc]. simpl in *. subst yo.
    destruct Hpc as [->|[->| ->]]; simpl in Hs.
    + rewrite Hst in Hs. simplify_eq/=. unfold resume_log in *; simpl in *; rewrite omap_app, Hlog; simpl.
      eexists _, _, _, _. simpl. split_and!; eauto.
    + unfold chan_send in Hs. rewrite Hco in Hs. case_decide; simplify_eq/=.
      unfold resume_log in *; simpl in *; rewrite omap_app, Hlog; simpl.
      eexists _, _, _, _. simpl. split_and!; eauto.
      rewrite Forall_app, Forall_singleton. done.
    + unfold chan_recv in Hs. rewrite Hbi, Hci in Hs. done.
  - unfold step_ctl, Resume_step, Resume_closure in Hs. simpl in Hs.
    destruct f as [ri ro rpc]. simpl in *. destruct rpc; simpl in Hs.
    + rewrite Hst in Hs. simplify_eq/=. unfold resume_log in *; simpl in *; rewrite omap_app, Hlog; simpl.
      eexists _, _, _, _. simpl. split_and!; eauto. done.
    + unfold chan_recv in Hs. destruct (buf (outputCh c)) as [|o os] eqn:Hb.
      * rewrite Hco in Hs. done.
      * simplify_eq/=. unfold resume_log in *; simpl in *; rewrite omap_app, Hlog; simpl.
        apply Forall_cons_1 in Hbo as [-> Hos].
        eexists _, _, _, _. simpl. split_and!; eauto.
    + unfold chan_send in Hs. rewrite Hci, Hbi in Hs. simpl in Hs. simplify_eq/=.
      unfold resume_log in *. simpl in *. rewrite omap_app, Hlog. simpl.
      by rewrite (Hro eq_refl).
  - unfold step_timer in Hs. simpl in Hs. done.
  - unfold step_zombie in Hs. simpl in Hs. done.
Qed.

Lemma first_resume_at_run sched s s' :
  first_resume_at s -> run sched s = Some s' -> first_resume_at s'.
Proof.
  revert s. induction sched as [|t sched IH]; intros s Hs Hr; simplify_eq/=; [done|].
  destruct (step t s) as [s1|] eqn:Hst; [|done]. eauto using first_resume_at_step.
Qed.

Lemma first_resume_at_launch v input k s0 :
  launch v (CResume input k) = inl s0 -> first_resume_at s0.
Proof.
  unfold launch, Create. destruct (normalize v); [|done]. intros [= <-].
  unfold first_resume_at. simpl. eexists _, _, _, _. simpl. split_and!; eauto.
Qed.

(** X5: when the controller begins with a [Resume], that call goes through on
    some schedule, and on every schedule it returns no output and a nil
    error: it takes the empty output of the [Yield] that the goroutine of
    [Create] starts with, whatever the function is and does. *)
Theorem first_resume_returns_empty v input k s0 :
  launch v (CResume input k) = inl s0 ->
  (exists s, run First_schedule s0 = Some s /\ resume_log s = [([], None)]) /\
  (forall sched s r rest, run sched s0 = Some s -> resume_log s = r :: rest -> r = ([], None)).
Proof.
  intros Hl. split.
  - unfold launch, Create in Hl. destruct (normalize v); [|done]. simplify_eq/=.
    eexists. split; reflexivity.
  - intros sched s r rest Hr Hlog.
    pose proof (first_resume_at_run _ _ _ (first_resume_at_launch _ _ _ _ Hl) Hr) as Hi.
    unfold first_resume_at in Hi. by rewrite Hlog in Hi.
Qed.

Lemma first_resume_returns_empty_witness :
  launch HelloWorld HelloWorld_controller = inl HelloWorld_system /\
  exists s, run First_schedule HelloWorld_system = Some s /\ resume_log s = [([], None)].
Proof.
  split; [reflexivity|].
  exact (proj1 (first_resume_returns_empty HelloWorld [] _ HelloWorld_system eq_refl)).
Defined.

Lemma Start_at_step t s s' : Start_at s -> step t s = Some s' -> Start_at s'.
Proof.
  destruct s as [c b ct zs tr]. unfold Start_at. simpl.
  assert (Hq : forall c' b' ct' zs' l, omap ev_resume l = [] ->
    resume_log (MkState c' b' ct' zs' (tr ++ l)) = resume_log (MkState c b ct zs tr)).
  { intros. unfold resume_log. simpl. by rewrite omap_app, H, app_nil_r. }
  intros Hi Hs. destruct t; simpl in Hs.
  - unfold step_body in Hs. simpl in Hs.
    assert (exists tr', s' = MkState (co s') (body s') ct zs tr' /\
              resume_log s' = resume_log (MkState c b ct zs tr)) as (tr' & -> & Hlog).
    { destruct b as [fy k|r|r|r|e]; try done.
      - destruct (Yield_step c fy); simplify_eq/=; eexists; split; try done; by apply Hq.
      - simplify_eq/=. eexists; split; try done; by apply Hq.
      - destruct (chan_close _); simplify_eq/=; eexists; split; try done; by apply Hq.
      - destruct (chan_close _); simplify_eq/=; eexists; split; try done; by apply Hq. }
    simpl. by rewrite Hlog.
  - unfold step_ctl in Hs. simpl in Hs.
    destruct Hi as [(f & -> & Hlog)|(o & err & -> & Hlog)]; [|done].
    pose proof (Resume_step_no_panic c f) as Hnp.
    destruct (Resume_step c f) as [|a c' f'|a c' f' err|a c' f' pv]; simplify_eq/=.
    + left. eexists. split; [done|]. rewrite <-Hlog. by apply Hq.
    + right. eexists _, _. split; [done|]. unfold resume_log in *. simpl in *.
      rewrite omap_app, Hlog. done.
    + by destruct (Hnp a c' f' pv).
  - unfold step_timer in Hs. simpl in Hs.
    by destruct Hi as [(f & -> & Hlog)|(o & err & -> & Hlog)].
  - unfold step_zombie in Hs. simpl in Hs. destruct (zs !! i) as [f|]; [|done].
    pose proof (Resume_step_no_panic c f) as Hnp.
    destruct (Resume_step c f) as [|a c' f'|a c' f' err|a c' f' pv]; simplify_eq/=.
    + by rewrite Hq.
    + by rewrite Hq.
    + by destruct (Hnp a c' f' pv).
Qed.

Lemma Start_at_run sched s s' : Start_at s -> run sched s = Some s' -> Start_at s'.
Proof.
  revert s. induction sched as [|t sched IH]; intros s Hs Hr; simplify_eq/=; [done|].
  destruct (step t s) as [s1|] eqn:Hst; [|done]. eauto using Start_at_step.
Qed.

(** X6: [Start] returns the error of [Create] for a value of no supported shape.
    For every other value its [Resume] returns on some schedule, and whenever
    [Start] returns, it returns nil: what the function does later, an error
    or a panic included, is not reported by [Start]. *)
Theorem Start_returns_nil v :
  (normalize v = None /\ Start v = inr ErrInvalidFunction) \/
  (exists s0, Start v = inl s0 /\
     (exists s, run First_schedule s0 = Some s /\ ctl s = CtlDone None) /\
     (forall sched s err, run sched s0 = Some s -> ctl s = CtlDone err -> err = None)).
Proof.
  unfold Start. destruct (normalize v) as [fn|] eqn:Hn.
  - right. unfold launch, Create. rewrite Hn. eexists. split; [done|]. split.
    + eexists. split; reflexivity.
    + intros sched s err Hr Hc.
      set (s0 := system _ _ _) in Hr.
      assert (Hl : launch v (CResume [ANil] (fun _ err => CReturn err)) = inl s0).
      { unfold launch, Create. by rewrite Hn. }
      pose proof (first_resume_at_run _ _ _ (first_resume_at_launch _ _ _ _ Hl) Hr) as Hi.
      assert (Hs0 : Start_at s0). { left. by eexists. }
      destruct (Start_at_run _ _ _ Hs0 Hr) as [(f & Hf & _)|(o & err' & Hd & Hlog)];
        [congruence|].
      unfold first_resume_at in Hi. rewrite Hlog in Hi. congruence.
  - left. split; [done|]. unfold launch, Create. by rewrite Hn.
Qed.

Lemma Start_returns_nil_witness :
  exists s0, Start HelloWorld = inl s0 /\
    exists s, run First_schedule s0 = Some s /\ ctl s = CtlDone None.
Proof.
  destruct (Start_returns_nil HelloWorld) as [[Hn _]|(s0 & Hs & Hr & _)]; [discriminate Hn|].
  exists s0. split; [exact Hs|exact Hr].
Defined.

Lemma ctl_untimed_run_ctl p : untimed p -> ctl_untimed (run_ctl p).
Proof. by intros [err|input k Hk]. Qed.

(** ** The names of the statuses *)

Lemma String_cases (n : Z) :
  (n = 0%Z /\ Status_String_int n = "Created") \/ (n = 1%Z /\ Status_String_int n = "Running") \/
  (n = 2%Z /\ Status_String_int n = "Suspended") \/ (n = 3%Z /\ Status_String_int n = "Closed") \/
  ((n < 0 \/ 3 < n)%Z /\ Status_String_int n = "Unknown Status: " +:+ pretty n).
Proof.
  unfold Status_String_int, statusStringMap. simpl.
  destruct (decide (n = 0%Z)) as [->|]; [by left|].
  destruct (decide (n = 1%Z)) as [->|]; [by right; left|].
  destruct (decide (n = 2%Z)) as [->|]; [by right; right; left|].
  destruct (decide (n = 3%Z)) as [->|]; [by right; right; right; left|].
  do 4 right. split; [lia|]. rewrite !lookup_insert_ne by done. by rewrite lookup_singleton_ne.
Qed.

(** X8: [String] on a [Status] gives the four constants their names, as
    [Status_String] has them, and every other number the text
    "Unknown Status: " followed by the number in decimal; no two numbers get
    the same text, so a status can be told from its name. *)
Theorem String_names_apart :
  (forall s : Status, Status_String_int (Status_code s) = Status_String s) /\
  (forall n : Z, (n < 0 \/ 3 < n)%Z -> Status_String_int n = "Unknown Status: " +:+ pretty n) /\
  (forall a b : Z, Status_String_int a = Status_String_int b -> a = b).
Proof.
  split_and!.
  - by intros [].
  - intros n Hn. destruct (String_cases n) as [[-> _]|[[-> _]|[[-> _]|[[-> _]|[_ ?]]]]];
      try lia. done.
  - intros a b Hab.
    destruct (String_cases a) as [[-> Ha]|[[-> Ha]|[[-> Ha]|[[-> Ha]|[_ Ha]]]]];
      destruct (String_cases b) as [[-> Hb]|[[-> Hb]|[[-> Hb]|[[-> Hb]|[_ Hb]]]]];
      try done; rewrite Ha in Hab; rewrite ?Hb in Hab; try done.
    apply (inj (String.app "Unknown Status: ")) in Hab. by apply (inj pretty).
Qed.

Lemma String_names_apart_witness : Status_String_int 7 = "Unknown Status: 7".
Proof. exact (proj1 (proj2 String_names_apart) 7%Z (or_intror eq_refl)). Defined.



(** ** The calls of the registry variant *)

Section calls.
Import Registry Calls.

Lemma texec_through {R : Type} (p : Prog R) tr gs st p' :
  texec p tr gs st p' -> through p = false.
Proof. by intros [w st0 [] a st1 p1 gs1 Hs|w st0 [] a st1 p1 gs1 tr' gs' st2 p2 Hs _]. Qed.

Lemma run_alone_texec {R : Type} ws st (p : Prog R) tr st' p' gs :
  ws <> [] -> run_alone ws st p = Some (tr, st', p', gs) -> texec p tr gs st' p'.
Proof.
  revert st p tr gs. induction ws as [|w ws IH]; intros st p tr gs Hws Hr; [done|].
  simpl in Hr. destruct (tstep w st p) as [[[[a st1] p1] gs1]|] eqn:Hs; [|done]. simpl in Hr.
  destruct ws as [|w' ws].
  - simpl in Hr. simplify_eq/=. rewrite app_nil_r. by apply (texec_last w st).
  - destruct (run_alone (w' :: ws) st1 p1) as [[[[tr2 st2] p2] gs2]|] eqn:Hr2; [|done].
    simplify_eq/=. apply (texec_cons w st _ _ st1 p1); [done|]. by eapply IH.
Qed.

Ltac tstep_inv Hs :=
  simpl in Hs;
  repeat first
    [ progress simplify_eq
    | apply bind_Some in Hs as (? & ? & Hs); simpl in Hs
    | match type of Hs with
      | context [match ?x with _ => _ end] => destruct x eqn:?; simpl in Hs
      end ].

Ltac unfold_calls H :=
  unfold Resume, TryResume, Yield, Status, Wrap, Call, Create, Start, AsyncResume,
    mbind, Prog_bind, bind, finally, catch, findCoroutine, readSyncStatus, resume, yield,
    suspended_timeout, Coroutine_String, writeSyncStatus, mbind, Prog_bind, bind in H;
  simpl in H.

Ltac expose H :=
  repeat (progress unfold_calls H);
  repeat match type of H with
    | context [match decide ?P with _ => _ end] => destruct (decide P); simpl in H
    | context [match ?x with _ => _ end] => destruct x eqn:?; simpl in H
    end.

Ltac texec_inv H :=
  let Hs := fresh "Hs" in
  let Hr := fresh "Hr" in
  inversion H as [? ? ? ? ? ? ? Hs|? ? ? ? ? ? ? ? ? ? ? Hs Hr]; subst; clear H;
  tstep_inv Hs;
  first
    [ assert_succeeds (clear Hr); expose Hr; try (apply texec_through in Hr; by simpl in Hr)
    | match goal with Ht : through _ = true |- _ => expose Ht; try done end ].

Ltac pick :=
  lazymatch goal with
  | |- _ \/ _ => first [ solve [left; pick] | solve [right; pick] ]
  | |- _ /\ _ => split; pick
  | |- exists _, _ => eexists; pick
  | |- _ => first [ done | reflexivity | by apply dec_stable ]
  end.

Ltac head_of t :=
  lazymatch t with
  | ?f _ => head_of f
  | _ => t
  end.

Ltac texec_all :=
  repeat match goal with
    | H : texec _ _ _ _ _ |- _ =>
        expose H;
        lazymatch type of H with
        | texec ?q _ _ _ _ => let h := head_of q in is_constructor h
        end;
        texec_inv H
    end.

Lemma closes_through {R : Type} id (p : Prog R) : closes id p -> through p = false.
Proof. by destruct p. Qed.

Lemma handle_closes {A B : Type} id (p : Prog A) (k : A + thrown -> Prog B) :
  (forall o, closes id (k o)) -> closes id (handle p k).
Proof. intros Hk. induction p; simpl; eauto. Qed.

Ltac solve_closes :=
  unfold mbind, Prog_bind, bind, catch, finally; simpl;
  apply handle_closes; intros [?|?]; simpl; left; eauto.

Lemma closes_step {R : Type} id w st (p : Prog R) a st' p' gs :
  closes id p -> tstep w st p = Some (a, st', p', gs) ->
  closes id p' \/ (a = SDelete id /\ (exists r, p' = Ret r) /\ coroutines st' !! id = None).
Proof.
  intros Hc Hs. destruct p; simpl in Hc; tstep_inv Hs; eauto using handle_closes.
  destruct Hc as [[-> Hr]|Hc]; [right|by left].
  split_and!; try done. simpl. by simplify_map_eq.
Qed.

Lemma closes_texec {R : Type} id (q : Prog R) tr gs st p :
  closes id q -> texec q tr gs st p -> through p = true ->
  exists tr' r, tr = tr' ++ [SDelete id] /\ p = Ret r /\ coroutines st !! id = None.
Proof.
  intros Hc He Ht. induction He as [w st0 q a st1 p1 gs1 Hs|w st0 q a st1 p1 gs1 tr gs' st2 p2 Hs He IH].
  - destruct (closes_step _ _ _ _ _ _ _ _ Hc Hs) as [Hc'|(-> & [r ->] & Hl)].
    + apply closes_through in Hc'. congruence.
    + by exists [], r.
  - destruct (closes_step _ _ _ _ _ _ _ _ Hc Hs) as [Hc'|(-> & [r ->] & Hl)].
    + destruct (IH Hc' Ht) as (tr' & r & -> & -> & Hl). by exists (a :: tr'), r.
    + apply texec_through in He. done.
Qed.

Lemma handle_through {A B : Type} (p : Prog A) (k : A + thrown -> Prog B) :
  through (handle p k) = true -> through p = true.
Proof. by destruct p. Qed.

(** *** Code inside handlers *)

Lemma inside_through {A B : Type} (K : A + thrown -> Prog B) q p :
  inside K q p -> through q = true -> exists o, q = ended o /\ p = K o.
Proof.
  induction 1 as [q|C f k1 k2 _ IH]; intros Ht.
  - destruct q; try done; [by eexists (inl _)|by eexists (inr _)].
  - pose proof (handle_through _ _ Ht) as Hf.
    destruct f; try done; simpl in *; by apply IH.
Qed.

Lemma inside_not_through {A B : Type} (K : A + thrown -> Prog B) q p :
  inside K q p -> through q = false -> through p = false.
Proof.
  induction 1 as [q|C f k1 k2 _ IH]; intros Ht.
  - by destruct q.
  - destruct f; try done; simpl in *; by apply IH.
Qed.

Ltac inside_step Hs :=
  simpl in Hs |- *;
  repeat match type of Hs with
    | context [match ?x with _ => _ end] => destruct x; simpl in Hs |- *
    | context [mbind _ ?x] => destruct x; simpl in Hs |- *
    end;
  simplify_eq; eexists; (split; [reflexivity|]).

Lemma inside_tstep {A B : Type} (K : A + thrown -> Prog B) q p w st a st' p' gs :
  inside K q p -> through q = false -> tstep w st p = Some (a, st', p', gs) ->
  exists q', tstep w st q = Some (a, st', q', gs) /\ inside K q' p'.
Proof.
  intros Hi. revert p' a st' gs.
  induction Hi as [q|C f k1 k2 Hk IH]; intros p' a st' gs Ht Hs.
  - destruct q; try done; inside_step Hs; try apply inside_here.
    apply inside_handle. intros o'. apply inside_here.
  - destruct f; try (simpl in *; by eapply IH); inside_step Hs;
      try (by apply inside_handle).
    apply inside_handle. intros o'. by apply inside_handle.
Qed.

(** A run of [q] inside [K] to its end is a run of [q] to its end, then a
    run of [K] on how [q] ended. *)
Lemma texec_inside {A B : Type} (K : A + thrown -> Prog B) q p0 tr gs st p :
  inside K q p0 -> texec p0 tr gs st p -> through p = true ->
  exists tr1 tr2 o,
    tr = tr1 ++ tr2 /\ runs q tr1 o /\
    ((tr2 = [] /\ K o = p) \/ exists gs2, texec (K o) tr2 gs2 st p).
Proof.
  intros Hi He Ht. revert q Hi.
  induction He as [w st0 p0 a st1 p1 gs1 Hs|w st0 p0 a st1 p1 gs1 tr gs' st2 p2 Hs He IH];
    intros q Hi.
  - destruct (through q) eqn:Hq.
    + destruct (inside_through _ _ _ Hi Hq) as (o & -> & ->).
      exists [], [a], o. split_and!; [done|by left|].
      right. eexists. by eapply texec_last.
    + destruct (inside_tstep _ _ _ _ _ _ _ _ _ Hi Hq Hs) as (q' & Hs' & Hi').
      destruct (through q') eqn:Hq'.
      * destruct (inside_through _ _ _ Hi' Hq') as (o & -> & ->).
        exists [a], [], o. split_and!; [done| |by left].
        right. eexists _, _. by eapply texec_last.
      * apply (inside_not_through _ _ _ Hi') in Hq'. congruence.
  - destruct (through q) eqn:Hq.
    + destruct (inside_through _ _ _ Hi Hq) as (o & -> & ->).
      exists [], (a :: tr), o. split_and!; [done|by left|].
      right. eexists. by eapply texec_cons.
    + destruct (inside_tstep _ _ _ _ _ _ _ _ _ Hi Hq Hs) as (q' & Hs' & Hi').
      destruct (IH Ht q' Hi') as (tr1 & tr2 & o & -> & Hruns & Hrest).
      exists (a :: tr1), tr2, o. split_and!; [done| |done].
      right. destruct Hruns as [[-> ->]|(gs0 & st0' & Hruns)].
      * eexists _, _. by eapply texec_last.
      * eexists _, _. by eapply texec_cons.
Qed.

Lemma texec_handle {A B : Type} (q : Prog A) (K : A + thrown -> Prog B) tr gs st p :
  texec (handle q K) tr gs st p -> through p = true ->
  exists tr1 tr2 o,
    tr = tr1 ++ tr2 /\ runs q tr1 o /\
    ((tr2 = [] /\ K o = p) \/ exists gs2, texec (K o) tr2 gs2 st p).
Proof. apply texec_inside, inside_here. Qed.

Lemma ended_inj {A : Type} (o1 o2 : A + thrown) : ended o1 = ended o2 -> o1 = o2.
Proof. destruct o1, o2; simpl; congruence. Qed.

Lemma inside_tstep_on {A B : Type} (K : A + thrown -> Prog B) q p w st a st' q' gs :
  inside K q p -> tstep w st q = Some (a, st', q', gs) ->
  exists p', tstep w st p = Some (a, st', p', gs) /\ inside K q' p'.
Proof.
  intros Hi. revert q' a st' gs.
  induction Hi as [q|C f k1 k2 Hk IH]; intros q' a st' gs Hs.
  - destruct q; try done; inside_step Hs; try apply inside_here.
    apply inside_handle. intros o'. apply inside_here.
  - destruct f; try (simpl in *; by eapply IH); inside_step Hs;
      try (by apply inside_handle).
    apply inside_handle. intros o'. by apply inside_handle.
Qed.

Lemma run_alone_inside {A B : Type} (K : A + thrown -> Prog B) q p ws st tr st' r gs :
  inside K q p -> run_alone ws st q = Some (tr, st', ended r, gs) ->
  run_alone ws st p = Some (tr, st', K r, gs).
Proof.
  revert q p st tr gs. induction ws as [|w ws IH]; intros q p st tr gs Hi Hr; simpl in *.
  - simplify_eq. destruct (inside_through _ _ _ Hi) as (o & Ho & ->); [by destruct r|].
    by apply ended_inj in Ho as ->.
  - destruct (tstep w st q) as [[[[a st1] q1] gs1]|] eqn:Hs; [|done]. simpl in Hr.
    destruct (inside_tstep_on _ _ _ _ _ _ _ _ _ Hi Hs) as (p1 & -> & Hi1). simpl.
    destruct (run_alone ws st1 q1) as [[[[tr2 st2] q2] gs2]|] eqn:Hr2; [|done].
    simplify_eq/=. by rewrite (IH _ _ _ _ _ Hi1 Hr2).
Qed.

(** Alone, [q] inside a handler runs as [q] does, and the handler goes on
    from how [q] ended. *)
Lemma run_alone_handle {A B : Type} (q : Prog A) (K : A + thrown -> Prog B) ws st tr st' r gs :
  run_alone ws st q = Some (tr, st', ended r, gs) ->
  run_alone ws st (handle q K) = Some (tr, st', K r, gs).
Proof. apply run_alone_inside, inside_here. Qed.

Lemma run_alone_app {R : Type} ws1 ws2 st (p : Prog R) tr1 st1 p1 gs1 tr2 st2 p2 gs2 :
  run_alone ws1 st p = Some (tr1, st1, p1, gs1) ->
  run_alone ws2 st1 p1 = Some (tr2, st2, p2, gs2) ->
  run_alone (ws1 ++ ws2) st p = Some (tr1 ++ tr2, st2, p2, gs1 ++ gs2).
Proof.
  revert st p tr1 gs1. induction ws1 as [|w ws1 IH]; intros st p tr1 gs1 H1 H2; simpl in *.
  - by simplify_eq.
  - destruct (tstep w st p) as [[[[a sta] pa] gsa]|]; [|done]. simpl in *.
    destruct (run_alone ws1 sta pa) as [[[[tr' st'] p'] gs']|] eqn:Hr; [|done].
    simplify_eq/=. rewrite (IH _ _ _ _ Hr H2). simpl. by rewrite app_assoc.
Qed.

(** X9: every run of [Resume] to its end, whatever the other goroutines do in
    between, is one of these.  The identifier is missing: the lookup
    panics, before the mutex is touched.  Or the lookup found the struct [c]
    and the run locks [c.mutexResume], reads the status, and: the status is
    Dead, and it returns no output and [false]; or it takes an output and
    sends its input, and returns the output and [true]; or the timer of one
    of the two [select]s won, and it panics.  In each case the mutex is
    released by the last statement, the status is only read, and no
    goroutine is started. *)
Theorem Resume_runs id inData tr gs st p :
  texec (Resume id inData) tr gs st p -> through p = true ->
  gs = [] /\
  ((tr = [SLoad id None] /\ p = Throw (missing id)) \/
   exists c s,
     (tr = [SLoad id (Some c); SLock c; SGetStatus c s; SUnlock c] /\
      p = Ret ([], false) /\ s = Dead) \/
     (exists i,
        tr = [SLoad id (Some c); SLock c; SGetStatus c s; SRecv (OutCh c) None;
              SGetId c i; SUnlock c] /\
        p = Throw (timed_out i) /\ s <> Dead) \/
     (exists outData,
        tr = [SLoad id (Some c); SLock c; SGetStatus c s; SRecv (OutCh c) (Some outData);
              SSend (InCh c) inData Sent; SUnlock c] /\
        p = Ret (outData, true) /\ s <> Dead) \/
     (exists outData i,
        tr = [SLoad id (Some c); SLock c; SGetStatus c s; SRecv (OutCh c) (Some outData);
              SSend (InCh c) inData TimerWon; SGetId c i; SUnlock c] /\
        p = Throw (timed_out i) /\ s <> Dead) \/
     (exists outData,
        tr = [SLoad id (Some c); SLock c; SGetStatus c s; SRecv (OutCh c) (Some outData);
              SSend (InCh c) inData ClosedChannel; SUnlock c] /\
        p = Throw send_on_closed /\ s <> Dead)).
Proof.
  intros H Ht. unfold_calls H. texec_all; pick.
Qed.

Lemma Resume_runs_witness :
  exists st,
    texec (Resume "a" [AStr "World"])
      [SLoad "a" (Some 0); SLock 0; SGetStatus 0 Suspended;
       SRecv (OutCh 0) (Some [AStr "Hello"]); SSend (InCh 0) [AStr "World"] Sent; SUnlock 0]
      [] st (Ret ([AStr "Hello"], true)) /\
    @nil (Prog unit) = [].
Proof.
  eexists.
  assert (H : forall tr st,
    run_alone (replicate 6 CaseChannel) waiting_store (Resume "a" [AStr "World"]) =
      Some (tr, st, Ret ([AStr "Hello"], true), []) ->
    texec (Resume "a" [AStr "World"]) tr [] st (Ret ([AStr "Hello"], true)) /\
    @nil (Prog unit) = []).
  { intros tr st Hr. apply run_alone_texec in Hr; [|done]. split; [done|].
    exact (proj1 (Resume_runs _ _ _ _ _ _ Hr eq_refl)). }
  apply H. vm_compute. reflexivity.
Defined.

(** X10: [TryResume] runs as [Resume] does, but for the test of the status: it
    goes on to the two [select]s only when the status it reads is exactly
    Suspended; with any other status, Created and Running included, it
    returns no output and [false], having touched no channel.  The mutex
    is released by the last statement in every case. *)
Theorem TryResume_runs id inData tr gs st p :
  texec (TryResume id inData) tr gs st p -> through p = true ->
  gs = [] /\
  ((tr = [SLoad id None] /\ p = Throw (missing id)) \/
   exists c s,
     (tr = [SLoad id (Some c); SLock c; SGetStatus c s; SUnlock c] /\
      p = Ret ([], false) /\ s <> Suspended) \/
     (exists i,
        tr = [SLoad id (Some c); SLock c; SGetStatus c s; SRecv (OutCh c) None;
              SGetId c i; SUnlock c] /\
        p = Throw (timed_out i) /\ s = Suspended) \/
     (exists outData,
        tr = [SLoad id (Some c); SLock c; SGetStatus c s; SRecv (OutCh c) (Some outData);
              SSend (InCh c) inData Sent; SUnlock c] /\
        p = Ret (outData, true) /\ s = Suspended) \/
     (exists outData i,
        tr = [SLoad id (Some c); SLock c; SGetStatus c s; SRecv (OutCh c) (Some outData);
              SSend (InCh c) inData TimerWon; SGetId c i; SUnlock c] /\
        p = Throw (timed_out i) /\ s = Suspended) \/
     (exists outData,
        tr = [SLoad id (Some c); SLock c; SGetStatus c s; SRecv (OutCh c) (Some outData);
              SSend (InCh c) inData ClosedChannel; SUnlock c] /\
        p = Throw send_on_closed /\ s = Suspended)).
Proof.
  intros H Ht. unfold_calls H. texec_all; pick.
Qed.

Lemma TryResume_runs_witness :
  exists st,
    texec (TryResume "a" [AStr "World"])
      [SLoad "a" (Some 0); SLock 0; SGetStatus 0 Running; SUnlock 0]
      [] st (Ret ([], false)) /\
    @nil (Prog unit) = [].
Proof.
  eexists.
  assert (H : forall tr st,
    run_alone (replicate 4 CaseChannel) running_store (TryResume "a" [AStr "World"]) =
      Some (tr, st, Ret ([], false), []) ->
    texec (TryResume "a" [AStr "World"]) tr [] st (Ret ([], false)) /\
    @nil (Prog unit) = []).
  { intros tr st Hr. apply run_alone_texec in Hr; [|done]. split; [done|].
    exact (proj1 (TryResume_runs _ _ _ _ _ _ Hr eq_refl)). }
  apply H. vm_compute. reflexivity.
Defined.

(** X11: every run of [Yield] to its end is one of these.  The identifier is
    missing: the lookup panics.  Or it sets the status to Suspended, sends
    its output, receives its input, sets the status to Running and returns
    the input.  Or the timer of one of the two [select]s won: it sets the
    status to Dead and panics, and the status is not set back.  The status
    is written by no other statement. *)
Theorem Yield_runs id outData tr gs st p :
  texec (Yield id outData) tr gs st p -> through p = true ->
  gs = [] /\
  ((tr = [SLoad id None] /\ p = Throw (missing id)) \/
   exists c,
     (exists inData,
        tr = [SLoad id (Some c); SSetStatus c Suspended; SSend (OutCh c) outData Sent;
              SRecv (InCh c) (Some inData); SSetStatus c Running] /\
        p = Ret inData) \/
     (exists i,
        tr = [SLoad id (Some c); SSetStatus c Suspended; SSend (OutCh c) outData TimerWon;
              SSetStatus c Dead; SGetId c i] /\
        p = Throw (timed_out i)) \/
     (exists i,
        tr = [SLoad id (Some c); SSetStatus c Suspended; SSend (OutCh c) outData Sent;
              SRecv (InCh c) None; SSetStatus c Dead; SGetId c i] /\
        p = Throw (timed_out i)) \/
     (tr = [SLoad id (Some c); SSetStatus c Suspended;
            SSend (OutCh c) outData ClosedChannel] /\
      p = Throw send_on_closed)).
Proof.
  intros H Ht. unfold_calls H. texec_all; pick.
Qed.

Lemma Yield_runs_witness :
  exists st,
    texec (Yield "a" [AStr "Hello"])
      [SLoad "a" (Some 0); SSetStatus 0 Suspended; SSend (OutCh 0) [AStr "Hello"] Sent;
       SRecv (InCh 0) None; SSetStatus 0 Dead; SGetId 0 "a"]
      [] st (Throw (timed_out "a")) /\
    @nil (Prog unit) = [].
Proof.
  eexists.
  assert (H : forall tr st,
    run_alone [CaseChannel; CaseChannel; CaseChannel; CaseTimer; CaseChannel; CaseChannel]
        running_store (Yield "a" [AStr "Hello"]) =
      Some (tr, st, Throw (timed_out "a"), []) ->
    texec (Yield "a" [AStr "Hello"]) tr [] st (Throw (timed_out "a")) /\
    @nil (Prog unit) = []).
  { intros tr st Hr. apply run_alone_texec in Hr; [|done]. split; [done|].
    exact (proj1 (Yield_runs _ _ _ _ _ _ Hr eq_refl)). }
  apply H. vm_compute. reflexivity.
Defined.

(** X12: [Status] never waits and never panics: for an identifier that is not
    in the registry it returns Dead, otherwise the status it reads in the
    struct it found. *)
Theorem Status_runs id tr gs st p :
  texec (Status id) tr gs st p -> through p = true ->
  gs = [] /\
  ((tr = [SLoad id None] /\ p = Ret Dead) \/
   exists c s, tr = [SLoad id (Some c); SGetStatus c s] /\ p = Ret s).
Proof.
  intros H Ht. unfold_calls H. texec_all; pick.
Qed.

Lemma Status_runs_witness :
  exists st,
    texec (Status "a") [SLoad "a" (Some 0); SGetStatus 0 Running] [] st (Ret Running) /\
    @nil (Prog unit) = [].
Proof.
  eexists.
  assert (H : forall tr st,
    run_alone [CaseChannel; CaseChannel] running_store (Status "a") =
      Some (tr, st, Ret Running, []) ->
    texec (Status "a") tr [] st (Ret Running) /\ @nil (Prog unit) = []).
  { intros tr st Hr. apply run_alone_texec in Hr; [|done]. split; [done|].
    exact (proj1 (Status_runs _ _ _ _ _ Hr eq_refl)). }
  apply H. vm_compute. reflexivity.
Defined.

(** X13: [Wrap] on its own makes a struct in status Created with two empty
    channels, puts it in the registry under its identifier and starts
    nothing; [Status] of that identifier is then Created, the other
    identifiers are where they were, and the structs made before are
    untouched. *)
Theorem Wrap_then_Status st id fn w1 w2 w3 w4 :
  exists st',
    run_alone [w1; w2] st (Wrap id fn) =
      Some ([SNew (length (heap st)); SStore id (length (heap st))], st', Ret id, []) /\
    run_alone [w3; w4] st' (Status id) =
      Some ([SLoad id (Some (length (heap st))); SGetStatus (length (heap st)) Created],
            st', Ret Created, []) /\
    heap st' = heap st ++ [MkObject (MkCoroutine id Created make_chan make_chan) fn false] /\
    (forall id', id' <> id -> coroutines st' !! id' = coroutines st !! id').
Proof.
  eexists. split; [reflexivity|]. simpl. split_and!.
  - rewrite lookup_insert, decide_True by done. simpl.
    by rewrite list_lookup_middle.
  - done.
  - intros id' Hid. by rewrite lookup_insert_ne.
Qed.

Lemma Wrap_then_Status_witness :
  exists st',
    run_alone [CaseChannel; CaseChannel] empty_store (Wrap "a" (fun _ _ => Ret None)) =
      Some ([SNew 0; SStore "a" 0], st', Ret "a", []) /\
    coroutines st' !! "b" = None.
Proof.
  destruct (Wrap_then_Status empty_store "a" (fun _ _ => Ret None)
              CaseChannel CaseChannel CaseChannel CaseChannel) as (st' & H1 & _ & _ & H4).
  exists st'. split; [exact H1|]. exact (H4 "b" ltac:(done)).
Defined.

(** X14: [Call] panics when the identifier is missing.  Otherwise it sets the
    status to Running and calls the function of the struct that it found,
    and whatever the function does, [Call] returns: the error that the
    function returned, or, when the function panicked, the value of the
    panic as an error ([cast.ToError]).  The last statement of [Call] deletes
    the identifier from the registry, after the function has ended.  On its
    own, on a registry that holds the identifier, [Call] runs the function
    of that struct as the function runs by itself once the status is
    Running, and returns what it returned, or the value of its panic as an
    error, with the identifier deleted from the registry that the function
    left. *)
Theorem Call_removes_entry id args :
  (forall tr gs st p,
     texec (Call id args) tr gs st p -> through p = true ->
     (tr = [SLoad id None] /\ p = Throw (missing id)) \/
     exists c o body r,
       tr = SLoad id (Some c) :: SSetStatus c Running :: SCallFn c :: body ++ [SDelete id] /\
       runs (fn o id args) body r /\
       p = Ret (match r with inl err => err | inr t => Some (ToError t) end) /\
       coroutines st !! id = None) /\
  (forall st c o ws body st' r gs,
     coroutines st !! id = Some c -> heap st !! c = Some o ->
     run_alone ws
       (set_heap st
          (<[c:=set_obj o (MkCoroutine (Registry.id (obj o)) Running (inCh (obj o))
                             (outCh (obj o)))]> (heap st)))
       (fn o id args) = Some (body, st', ended r, gs) ->
     run_alone (replicate 3 CaseChannel ++ ws ++ [CaseChannel]) st (Call id args) =
       Some (SLoad id (Some c) :: SSetStatus c Running :: SCallFn c :: body ++ [SDelete id],
             set_coroutines st' (delete id (coroutines st')),
             Ret (match r with inl err => err | inr t => Some (ToError t) end), gs)).
Proof.
  split.
  - intros tr gs st p H Ht. unfold_calls H. texec_all.
    + by left.
    + rewrite (closes_through id) in Ht; [done|solve_closes].
    + match goal with He : texec _ _ _ _ _ |- _ =>
        apply texec_handle in He as (tr1 & tr2 & r & -> & Hruns & Hrest); [|done]
      end.
      right.
      destruct r as [e|t]; simpl in Hrest;
        (destruct Hrest as [[_ <-]|[gs2 Hrest]]; [done|]); texec_all;
        (eexists _, _, tr1, _; split_and!; [reflexivity|exact Hruns|done|]);
        simpl; by simplify_map_eq.
  - intros st c o ws body st' r gs Hid Hc Hfn.
    assert (Hlt : c < length (heap st)) by (by eapply lookup_lt_Some).
    apply (run_alone_handle _
             (fun o' => handle (handle (ended o') (fun o'' => MapDelete id (ended o'')))
                          (fun o'' => match o'' with
                                      | inl e => Ret e
                                      | inr t => Ret (Some (ToError t))
                                      end))) in Hfn.
    assert (Hend : run_alone [CaseChannel] st'
              (handle (handle (ended r) (fun o'' => MapDelete id (ended o'')))
                 (fun o'' => match o'' with
                             | inl e => Ret e
                             | inr t => Ret (Some (ToError t))
                             end)) =
            Some ([SDelete id], set_coroutines st' (delete id (coroutines st')),
                  Ret (match r with inl err => err | inr t => Some (ToError t) end), [])).
    { by destruct r. }
    pose proof (run_alone_app _ _ _ _ _ _ _ _ _ _ _ _ Hfn Hend) as Hrest.
    rewrite app_nil_r in Hrest.
    refine (run_alone_app (replicate 3 CaseChannel) _ _ _
              [SLoad id (Some c); SSetStatus c Running; SCallFn c] _ _ [] _ _ _ _ _ Hrest).
    unfold Call, findCoroutine, writeSyncStatus, mbind, Prog_bind, bind, finally, catch,
      replicate. simpl. rewrite Hid. simpl. rewrite Hc. simpl.
    rewrite list_lookup_insert_eq by done. simpl. reflexivity.
Qed.

Lemma Call_removes_entry_witness :
  exists st,
    texec (Call "a" [])
      [SLoad "a" (Some 0); SSetStatus 0 Running; SCallFn 0; SDelete "a"] [] st
      (Ret (Some (ErrRecovered (PUser (AStr "boom"))))) /\
    coroutines st !! "a" = None.
Proof.
  eexists.
  assert (H : forall tr st,
    run_alone (replicate 4 CaseChannel) panicking_store (Call "a" []) =
      Some (tr, st, Ret (Some (ErrRecovered (PUser (AStr "boom")))), []) ->
    texec (Call "a" []) tr [] st (Ret (Some (ErrRecovered (PUser (AStr "boom"))))) /\
    coroutines st !! "a" = None).
  { intros tr st Hr. apply run_alone_texec in Hr; [|done]. split; [done|].
    destruct (proj1 (Call_removes_entry _ _) _ _ _ _ Hr eq_refl)
      as [[_ [=]]|(c & o & body & r & _ & _ & _ & Hl)].
    exact Hl. }
  apply H. vm_compute. reflexivity.
Defined.

(** X15: [Create] never waits and never panics: it makes the struct, puts it in
    the registry, starts one goroutine and returns the identifier.  The
    goroutine runs [Call]: when it is through it has returned, a panic of the
    function included, and its last statement has deleted the identifier;
    only a missing identifier at its first statement makes it panic. *)
Theorem Create_runs id fn tr gs st p :
  texec (Create id fn) tr gs st p -> through p = true ->
  exists c g,
    tr = [SNew c; SStore id c; SGo] /\ p = Ret id /\ gs = [g] /\
    forall tr' gs' st' p',
      texec g tr' gs' st' p' -> through p' = true ->
      (tr' = [SLoad id None] /\ p' = Throw (missing id)) \/
      exists c' rest,
        tr' = SLoad id (Some c') :: SSetStatus c' Running :: SCallFn c' ::
              rest ++ [SDelete id] /\
        p' = Ret tt /\ coroutines st' !! id = None.
Proof.
  intros H Ht. unfold_calls H. texec_all.
  eexists _, _. split_and!; try done.
  intros tr' gs' st' p' H' Ht'. unfold_calls H'. texec_all.
  - by left.
  - rewrite (closes_through id) in Ht'; [done|solve_closes].
  - match goal with He : texec _ _ _ _ _ |- _ =>
      eapply (closes_texec id) in He as (tr' & [] & -> & -> & Hl); [|solve_closes|done]
    end.
    right. by eexists _, _.
Qed.

Lemma Create_runs_witness :
  exists tr gs st,
    texec (Create "a" (fun _ _ => Ret None)) tr gs st (Ret "a") /\ length gs = 1 /\
    (g ← head gs;
     (fun r => (r.1.1.1, r.1.2)) <$>
       run_alone (replicate 6 CaseChannel ++ [CaseTimer] ++ replicate 3 CaseChannel) st g) =
      Some ([SLoad "a" (Some 0); SSetStatus 0 Running; SCallFn 0; SLoad "a" (Some 0);
             SSetStatus 0 Suspended; SSend (OutCh 0) [] Sent; SRecv (InCh 0) None;
             SSetStatus 0 Dead; SGetId 0 "a"; SDelete "a"], Ret tt).
Proof.
  assert (H : forall tr gs st,
    run_alone (replicate 3 CaseChannel) empty_store (Create "a" (fun _ _ => Ret None)) =
      Some (tr, st, Ret "a", gs) ->
    texec (Create "a" (fun _ _ => Ret None)) tr gs st (Ret "a") /\ length gs = 1).
  { intros tr gs st Hr. apply run_alone_texec in Hr; [|done]. split; [done|].
    destruct (Create_runs _ _ _ _ _ _ Hr eq_refl) as (c & g & _ & _ & -> & _). done. }
  eexists _, _, _. apply and_assoc. split; [apply H; vm_compute; reflexivity|].
  vm_compute. reflexivity.
Defined.

(** X16: [AsyncResume] never waits and never panics: it makes the channel, starts
    one goroutine and returns the channel.  The goroutine never panics
    either, whatever the callback does: a missing identifier, a coroutine
    whose status is Dead, a timer that won and a panic of the callback are
    recovered and sent on the channel, after the mutex is released.  When the
    handoff went through, the goroutine runs the callback on the output to
    its end and releases the mutex; it then sends the value of the
    callback's panic on the channel, as an error, and sends nothing when the
    callback returned. *)
Theorem AsyncResume_reports id fn inData tr gs st p :
  texec (AsyncResume id fn inData) tr gs st p -> through p = true ->
  exists errCh g,
    tr = [SMakeErrCh errCh; SGo] /\ p = Ret errCh /\ gs = [g] /\
    forall tr' gs' st' p',
      texec g tr' gs' st' p' -> through p' = true ->
      p' = Ret tt /\
      (tr' = [SLoad id None; SSendErr errCh (ToError (missing id))] \/
       exists c s,
         (exists i,
            tr' = [SLoad id (Some c); SLock c; SGetStatus c s; SGetId c i; SUnlock c;
                   SSendErr errCh (ToError (is_dead i))] /\ s = Dead) \/
         (exists i,
            tr' = [SLoad id (Some c); SLock c; SGetStatus c s; SRecv (OutCh c) None;
                   SGetId c i; SUnlock c; SSendErr errCh (ToError (timed_out i))] /\
            s <> Dead) \/
         (exists outData i,
            tr' = [SLoad id (Some c); SLock c; SGetStatus c s;
                   SRecv (OutCh c) (Some outData); SSend (InCh c) inData TimerWon;
                   SGetId c i; SUnlock c; SSendErr errCh (ToError (timed_out i))] /\
            s <> Dead) \/
         (exists outData,
            tr' = [SLoad id (Some c); SLock c; SGetStatus c s;
                   SRecv (OutCh c) (Some outData); SSend (InCh c) inData ClosedChannel;
                   SUnlock c; SSendErr errCh (ToError send_on_closed)] /\
            s <> Dead) \/
         (exists outData body r,
            tr' = SLoad id (Some c) :: SLock c :: SGetStatus c s ::
                  SRecv (OutCh c) (Some outData) :: SSend (InCh c) inData Sent ::
                  body ++ SUnlock c ::
                  match r with
                  | inl _ => []
                  | inr t => [SSendErr errCh (ToError t)]
                  end /\
            runs (fn outData) body r /\ s <> Dead)).
Proof.
  intros H Ht. unfold_calls H. texec_all.
  eexists _, _. split_and!; try done.
  intros tr' gs' st' p' H' Ht'. unfold_calls H'. texec_all; try pick.
  - pose proof (handle_through _ _ (handle_through _ _ Ht')) as Hf.
    destruct (fn _); done.
  - match goal with He : texec _ _ _ _ _ |- _ =>
      apply texec_handle in He as (tr1 & tr2 & r1 & -> & Hruns & Hrest); [|done]
    end.
    destruct Hruns as [[_ Hq]|(gs0 & st0' & Hruns)].
    { apply (f_equal through) in Hq. destruct (fn _); simpl in Hq; by destruct r1. }
    apply texec_handle in Hruns as (body & tr1b & r & -> & Hbody & Hunlock);
      [|by destruct r1].
    destruct Hunlock as [[_ Hq]|[gs2 Hunlock]]; [by destruct r1|].
    inversion Hunlock as [? ? ? ? ? ? ? Hs|? ? ? ? ? ? ? ? ? ? ? Hs Hr]; subst; clear Hunlock;
      tstep_inv Hs;
      [|apply texec_through in Hr; by destruct r].
    match goal with Hq : ended _ = ended _ |- _ => apply ended_inj in Hq as -> end.
    destruct r1 as [[]|t]; simpl in Hrest.
    + destruct Hrest as [[-> <-]|[gs3 Hrest]]; [|by apply texec_through in Hrest].
      split; [done|]. right. eexists _, _. do 4 right.
      eexists _, _, (inl tt).
      split_and!; [by rewrite app_nil_r|exact Hbody|done].
    + destruct Hrest as [[_ <-]|[gs3 Hrest]]; [done|]. texec_all.
      split; [done|]. right. eexists _, _. do 4 right.
      eexists _, _, (inr t).
      split_and!; [by rewrite <-app_assoc|exact Hbody|done].
Qed.

Lemma AsyncResume_reports_witness :
  exists tr gs st,
    texec (AsyncResume "a" (fun _ => Throw (ThrownValue (AStr "boom"))) []) tr gs st (Ret 0) /\
    length gs = 1 /\
    (g ← head gs;
     (fun r => (r.1.1.1, r.1.2)) <$> run_alone (replicate 7 CaseChannel) st g) =
      Some ([SLoad "a" (Some 0); SLock 0; SGetStatus 0 Suspended;
             SRecv (OutCh 0) (Some [AStr "Hello"]); SSend (InCh 0) [] Sent; SUnlock 0;
             SSendErr 0 (ErrRecovered (PUser (AStr "boom")))], Ret tt).
Proof.
  assert (H : forall tr gs st,
    run_alone (replicate 2 CaseChannel) waiting_store
        (AsyncResume "a" (fun _ => Throw (ThrownValue (AStr "boom"))) []) =
      Some (tr, st, Ret 0, gs) ->
    texec (AsyncResume "a" (fun _ => Throw (ThrownValue (AStr "boom"))) []) tr gs st (Ret 0) /\
    length gs = 1).
  { intros tr gs st Hr. apply run_alone_texec in Hr; [|done]. split; [done|].
    destruct (AsyncResume_reports _ _ _ _ _ _ _ Hr eq_refl) as (c & g & _ & _ & -> & _).
    done. }
  eexists _, _, _. apply and_assoc. split; [apply H; vm_compute; reflexivity|].
  vm_compute. reflexivity.
Defined.

(** X17: [Start] makes the struct, puts it in the registry and runs [Call] on
    the goroutine of its caller: when it is through it has returned the error
    that the function of the struct found returned, or the value of its panic
    as an error, and its last statement has deleted the identifier.  Only
    when another goroutine took the identifier out of the registry between
    the two does it panic.  On its own, [Start] runs its function as the
    function runs by itself on the registry with the new struct in status
    Running, and returns the error that the function returned, or the value
    of its panic as an error ([cast.ToError]). *)
Theorem Start_removes_entry id fn :
  (forall tr gs st p,
     texec (Start id fn) tr gs st p -> through p = true ->
     exists c,
       (tr = [SNew c; SStore id c; SLoad id None] /\ p = Throw (missing id)) \/
       exists c' o body r,
         tr = SNew c :: SStore id c :: SLoad id (Some c') :: SSetStatus c' Running ::
              SCallFn c' :: body ++ [SDelete id] /\
         runs (Calls.fn o id []) body r /\
         p = Ret (match r with inl err => err | inr t => Some (ToError t) end) /\
         coroutines st !! id = None) /\
  (forall st ws body st' r gs,
     run_alone ws
       (MkStore
          (heap st ++ [MkObject (MkCoroutine id Running make_chan make_chan)
                         (fun id' _ => fn id') false])
          (<[id:=length (heap st)]> (coroutines st)) (errchs st))
       (fn id) = Some (body, st', ended r, gs) ->
     run_alone (replicate 5 CaseChannel ++ ws ++ [CaseChannel]) st (Start id fn) =
       Some (SNew (length (heap st)) :: SStore id (length (heap st)) ::
             SLoad id (Some (length (heap st))) :: SSetStatus (length (heap st)) Running ::
             SCallFn (length (heap st)) :: body ++ [SDelete id],
             set_coroutines st' (delete id (coroutines st')),
             Ret (match r with inl err => err | inr t => Some (ToError t) end), gs)).
Proof.
  split.
  - intros tr gs st p H Ht. unfold_calls H. texec_all.
    + eexists. by left.
    + rewrite (closes_through id) in Ht; [done|solve_closes].
    + match goal with He : texec _ _ _ _ _ |- _ =>
        apply texec_handle in He as (tr1 & tr2 & r & -> & Hruns & Hrest); [|done]
      end.
      eexists. right.
      destruct r as [e|t]; simpl in Hrest;
        (destruct Hrest as [[_ <-]|[gs2 Hrest]]; [done|]); texec_all;
        (eexists _, _, tr1, _; split_and!; [reflexivity|exact Hruns|done|]);
        simpl; by simplify_map_eq.
  - intros st ws body st' r gs Hfn.
    apply (run_alone_handle _
             (fun o' => handle (handle (ended o') (fun o'' => MapDelete id (ended o'')))
                          (fun o'' => match o'' with
                                      | inl e => Ret e
                                      | inr t => Ret (Some (ToError t))
                                      end))) in Hfn.
    assert (Hend : run_alone [CaseChannel] st'
              (handle (handle (ended r) (fun o'' => MapDelete id (ended o'')))
                 (fun o'' => match o'' with
                             | inl e => Ret e
                             | inr t => Ret (Some (ToError t))
                             end)) =
            Some ([SDelete id], set_coroutines st' (delete id (coroutines st')),
                  Ret (match r with inl err => err | inr t => Some (ToError t) end), [])).
    { by destruct r. }
    pose proof (run_alone_app _ _ _ _ _ _ _ _ _ _ _ _ Hfn Hend) as Hrest.
    rewrite app_nil_r in Hrest.
    refine (run_alone_app (replicate 5 CaseChannel) _ _ _
              [SNew (length (heap st)); SStore id (length (heap st));
               SLoad id (Some (length (heap st))); SSetStatus (length (heap st)) Running;
               SCallFn (length (heap st))] _ _ [] _ _ _ _ _ Hrest).
    unfold Start, Wrap, Call, findCoroutine, writeSyncStatus, mbind, Prog_bind, bind,
      finally, catch, replicate. simpl.
    rewrite lookup_insert, decide_True by done. simpl.
    rewrite list_lookup_middle by done. simpl.
    rewrite list_lookup_insert_eq by (rewrite length_app; simpl; lia). simpl.
    rewrite insert_app_r_alt by done. rewrite Nat.sub_diag. simpl. reflexivity.
Qed.

Lemma Start_removes_entry_witness :
  exists tr st,
    texec (Start "a" (fun _ => Throw (ThrownValue (AStr "boom")))) tr [] st
      (Ret (Some (ErrRecovered (PUser (AStr "boom"))))) /\
    coroutines st !! "a" = None.
Proof.
  eexists _, _.
  assert (H : forall tr st,
    run_alone (replicate 6 CaseChannel) empty_store
        (Start "a" (fun _ => Throw (ThrownValue (AStr "boom")))) =
      Some (tr, st, Ret (Some (ErrRecovered (PUser (AStr "boom")))), []) ->
    texec (Start "a" (fun _ => Throw (ThrownValue (AStr "boom")))) tr [] st
      (Ret (Some (ErrRecovered (PUser (AStr "boom"))))) /\
    coroutines st !! "a" = None).
  { intros tr st Hr. apply run_alone_texec in Hr; [|done]. split; [done|].
    destruct (proj1 (Start_removes_entry _ _) _ _ _ _ Hr eq_refl)
      as (c & [[_ [=]]|(c' & o & body & r & _ & _ & _ & Hl)]).
    exact Hl. }
  apply H. vm_compute. reflexivity.
Defined.

Ltac unfold_goal :=
  unfold Resume, TryResume, Yield, Status, Wrap, Call, Create, Start, AsyncResume,
    mbind, Prog_bind, bind, finally, catch, findCoroutine, readSyncStatus, resume, yield,
    suspended_timeout, Coroutine_String, writeSyncStatus, mbind, Prog_bind, bind.

Ltac run_sym :=
  unfold_goal; unfold Calls.run, replicate, app;
  repeat (progress (simpl; unfold_goal; rewrite ?lookup_insert, ?decide_True by done)).

(** X18: right after [Create], whatever the function: when [TryResume] runs
    before the new goroutine has reached the [Yield] that it starts with, it
    finds the status Created and returns [false]; when [TryResume] runs after
    that [Yield] has sent, it returns [true] with no output, and the [Yield]
    then takes the input and sets the status to Running.  [Resume] in the
    first place does not give up: it waits for the output of that [Yield] and
    returns [true] once the goroutine has sent it. *)
Theorem TryResume_races_Create id fn inData :
  (exists s,
     run (replicate 7 (0, CaseChannel))
       (MkState empty_store (id' ← Create id fn; TryResume id' inData) []) = Some s /\
     main s = Ret ([], false)) /\
  (exists s s',
     run (replicate 3 (0, CaseChannel) ++ replicate 6 (1, CaseChannel) ++
          replicate 6 (0, CaseChannel))
       (MkState empty_store (id' ← Create id fn; TryResume id' inData) []) = Some s /\
     main s = Ret ([], true) /\
     run (replicate 2 (1, CaseChannel)) s = Some s' /\
     obj <$> heap (store s') = [MkCoroutine id Running make_chan make_chan]) /\
  (exists s s',
     run (replicate 6 (0, CaseChannel))
       (MkState empty_store (id' ← Create id fn; Resume id' inData) []) = Some s /\
     step 0 CaseChannel s = None /\
     run (replicate 6 (1, CaseChannel) ++ replicate 3 (0, CaseChannel)) s = Some s' /\
     main s' = Ret ([], true)).
Proof.
  split_and!.
  - eexists. split; [run_sym; reflexivity|reflexivity].
  - eexists _, _. split; [run_sym; reflexivity|]. split; [reflexivity|].
    split; [run_sym; reflexivity|reflexivity].
  - eexists _, _. split; [run_sym; reflexivity|]. split; [reflexivity|].
    split; [run_sym; reflexivity|reflexivity].
Qed.

Ltac heap_sym Hid Hc Hm Hi Ho Hlt :=
  unfold_goal; unfold Calls.run, replicate, app;
  repeat (progress (simpl;
    rewrite ?Hid, ?Hc, ?list_insert_insert_eq, ?Hm, ?Hi, ?Ho;
    rewrite ?list_lookup_insert_eq by (rewrite ?length_insert; exact Hlt))).

(** X19: one handoff, on a coroutine of the registry whose channels are empty
    and whose mutex is free: when [Yield] has sent its output, [Resume] takes
    it and sends its input, and [Yield] takes that.  [Resume] returns what
    [Yield] was given, with [true]; [Yield] returns what [Resume] was given.
    Afterwards the status is Running, both channels are empty again and the
    mutex is free; nothing else of the registry has changed. *)
Theorem Yield_Resume_handoff st id c o outData inData :
  coroutines st !! id = Some c -> heap st !! c = Some o -> mutexResume o = false ->
  inCh (obj o) = make_chan -> outCh (obj o) = make_chan ->
  (exists s,
     run (replicate 3 (1, CaseChannel) ++ replicate 6 (0, CaseChannel) ++
          replicate 2 (1, CaseChannel))
       (MkState st (Resume id inData) [Yield id outData;; Ret tt]) = Some s /\
     main s = Ret (outData, true) /\ goroutines s = [Ret tt] /\
     store s =
       set_heap st
         (<[c:=MkObject (MkCoroutine (Registry.id (obj o)) Running make_chan make_chan)
                 (fn o) false]> (heap st))) /\
  (exists s,
     run (replicate 3 (0, CaseChannel) ++ replicate 6 (1, CaseChannel) ++
          replicate 2 (0, CaseChannel))
       (MkState st (Yield id outData) [Resume id inData;; Ret tt]) = Some s /\
     main s = Ret inData /\ goroutines s = [Ret tt] /\
     store s =
       set_heap st
         (<[c:=MkObject (MkCoroutine (Registry.id (obj o)) Running make_chan make_chan)
                 (fn o) false]> (heap st))).
Proof.
  intros Hid Hc Hm Hi Ho.
  assert (Hlt : c < length (heap st)) by (by eapply lookup_lt_Some).
  split.
  - eexists. split; [heap_sym Hid Hc Hm Hi Ho Hlt; reflexivity|].
    split_and!; reflexivity.
  - eexists. split; [heap_sym Hid Hc Hm Hi Ho Hlt; reflexivity|].
    split_and!; reflexivity.
Qed.

Lemma Yield_Resume_handoff_witness :
  exists s,
    run (replicate 3 (1, CaseChannel) ++ replicate 6 (0, CaseChannel) ++
         replicate 2 (1, CaseChannel))
      (MkState running_store (Resume "a" [AStr "World"]) [Yield "a" [AStr "Hello"];; Ret tt])
      = Some s /\
    main s = Ret ([AStr "Hello"], true).
Proof.
  destruct (Yield_Resume_handoff running_store "a" 0 _ [AStr "Hello"] [AStr "World"]
              eq_refl eq_refl eq_refl eq_refl eq_refl) as [(s & Hr & Hm & _) _].
  exists s. split; [exact Hr|exact Hm].
Defined.

End calls.

(** ** Yields with a deadline *)

Section timed.
Import Timed.

Lemma Yield_step_not_closed c f :
  status c <> CLOSED ->
  match Yield_step c f with
  | Goes _ c' _ | Returns _ c' _ _ => status c' <> CLOSED
  | Blocked => True
  | Panics _ _ _ _ => False
  end.
Proof.
  intros Hc. unfold Yield_step, Yield_closure, chan_recv, chan_send.
  destruct f as [yo yi []]; simpl.
  - by destruct (status c) eqn:E; simpl; rewrite ?E.
  - done.
  - destruct (closed (outputCh c)); simpl; [done|]. by case_decide; simpl.
  - by destruct (buf (inputCh c)), (closed (inputCh c)); simpl.
  - done.
Qed.

(** *** Closed, and no closure left *)

Lemma settled_step t s s' : settled s -> step t s = Some s' -> settled s'.
Proof.
  destruct s as [c b ct zs lt tr]. unfold settled. simpl. intros Hi Hs.
  destruct t as [| |i| | |i]; simpl in Hs.
  - unfold step_body in Hs. simpl in Hs.
    destruct b as [f k|f k|f e k|r|r|r|e]; simpl in *.
    + assert (Hn : status c <> CLOSED) by tauto.
      pose proof (Yield_step_not_closed c f Hn) as Hq.
      destruct (Yield_step c f); simplify_eq/=; done.
    + assert (Hn : status c <> CLOSED) by tauto.
      pose proof (Yield_step_not_closed c f Hn) as Hq.
      destruct (Yield_step c f); simplify_eq/=; done.
    + simplify_eq/=. tauto.
    + by simplify_eq/=.
    + destruct (chan_close (inputCh c)); by simplify_eq/=.
    + destruct (chan_close (outputCh c)); by simplify_eq/=.
    + done.
  - unfold step_body_timer in Hs. simpl in Hs.
    destruct b as [f k|f k|f e k|r|r|r|e]; simplify_eq/=; tauto.
  - unfold step_late in Hs. simpl in Hs. destruct (lt !! i) as [f|]; [|done].
    destruct (decide (status c = CLOSED)) as [Hc|Hn].
    + destruct (Yield_step c f); simplify_eq/=; auto.
    + pose proof (Yield_step_not_closed c f Hn) as Hq.
      destruct (Yield_step c f); simplify_eq/=; done.
  - unfold step_ctl in Hs. simpl in Hs.
    destruct ct as [e|v|f k|f k|f e k]; simpl in *; try done.
    + pose proof (Resume_step_quiet c f) as Hq.
      destruct (Resume_step c f); simplify_eq/=; try done; destruct Hq as [-> _]; done.
    + pose proof (Resume_step_quiet c f) as Hq.
      destruct (Resume_step c f); simplify_eq/=; try done; destruct Hq as [-> _]; done.
    + by simplify_eq/=.
  - unfold step_timer in Hs. simpl in Hs.
    destruct ct as [e|v|f k|f k|f e k]; by simplify_eq/=.
  - unfold step_zombie in Hs. simpl in Hs. destruct (zs !! i) as [f|]; [|done].
    pose proof (Resume_step_quiet c f) as Hq.
    destruct (Resume_step c f); simplify_eq/=; try done; destruct Hq as [-> _]; done.
Qed.

Lemma settled_run sched s s' : settled s -> run sched s = Some s' -> settled s'.
Proof.
  revert s. induction sched as [|t sched IH]; intros s Hs Hr; simplify_eq/=; [done|].
  destruct (step t s) as [s1|] eqn:Hst; [|done]. eauto using settled_step.
Qed.

Lemma settled_launch function p : settled (launch function p).
Proof. by unfold settled, launch. Qed.

(** On a closed handle with no closure of a [Yield] left, no step writes the
    status or leaves such a closure. *)
Lemma timed_closed_stays t s s' :
  settled s -> status (co s) = CLOSED -> late s = [] -> step t s = Some s' ->
  status (co s') = CLOSED /\ late s' = [] /\ status_log s' = status_log s.
Proof.
  destruct s as [c b ct zs lt tr]. unfold settled, status_log. simpl.
  intros Hi Hc -> Hs. specialize (Hi Hc). destruct t as [| |i| | |i]; simpl in Hs.
  - unfold step_body in Hs. simpl in Hs.
    destruct b as [f k|f k|f e k|r|r|r|e]; simpl in *; try done.
    + destruct (chan_close (inputCh c)); simplify_eq/=; rewrite ?omap_app; simpl;
        by rewrite ?app_nil_r.
    + destruct (chan_close (outputCh c)); simplify_eq/=; rewrite ?omap_app; simpl;
        by rewrite ?app_nil_r.
  - unfold step_body_timer in Hs. simpl in Hs. by destruct b.
  - done.
  - unfold step_ctl in Hs. simpl in Hs.
    destruct ct as [e|v|f k|f k|f e k]; simpl in *; try done.
    + pose proof (Resume_step_quiet c f) as Hq.
      destruct (Resume_step c f); simplify_eq/=; try done; rewrite ?omap_app; simpl;
        destruct Hq as [-> Hq]; destruct a; simplify_eq/=; by rewrite ?app_nil_r.
    + pose proof (Resume_step_quiet c f) as Hq.
      destruct (Resume_step c f); simplify_eq/=; try done; rewrite ?omap_app; simpl;
        destruct Hq as [-> Hq]; destruct a; simplify_eq/=; by rewrite ?app_nil_r.
    + simplify_eq/=. rewrite omap_app. simpl. by rewrite app_nil_r.
  - unfold step_timer in Hs. simpl in Hs.
    destruct ct as [e|v|f k|f k|f e k]; simplify_eq/=; rewrite omap_app; simpl;
      by rewrite app_nil_r.
  - unfold step_zombie in Hs. simpl in Hs. destruct (zs !! i) as [f|]; [|done].
    pose proof (Resume_step_quiet c f) as Hq.
    destruct (Resume_step c f); simplify_eq/=; try done; rewrite ?omap_app; simpl;
      destruct Hq as [-> Hq]; destruct a; simplify_eq/=; by rewrite ?app_nil_r.
Qed.

Lemma timed_closed_forever sched s s' :
  settled s -> status (co s) = CLOSED -> late s = [] -> run sched s = Some s' ->
  status (co s') = CLOSED /\ late s' = [] /\ status_log s' = status_log s.
Proof.
  revert s. induction sched as [|t sched IH]; intros s Hi Hc Hl Hr; simplify_eq/=; [done|].
  destruct (step t s) as [s1|] eqn:Hst; [|done].
  destruct (timed_closed_stays _ _ _ Hi Hc Hl Hst) as (Hc1 & Hl1 & Hs1).
  destruct (IH s1 (settled_step _ _ _ Hi Hst) Hc1 Hl1 Hr) as (? & ? & ?).
  split_and!; [done..|congruence].
Qed.

(** *** The handoff while every yield is in time *)

Lemma timed_tokens_at_eq c b K K' : K = K' -> tokens_at c b K -> tokens_at c b K'.
Proof. by intros ->. Qed.

Lemma timed_resumer_keeps c b K0 stl snt yl f :
  phase_at c b stl -> tokens_at c b (holding f + K0) -> fifo_at c b snt yl ->
  match Resume_step c f with
  | Blocked => True
  | Goes a c' f' =>
      phase_at c' b stl /\ tokens_at c' b (holding f' + K0) /\
      fifo_at c' b (snt ++ omap ev_sent [EvAction a]) yl /\ ev_status (EvAction a) = None
  | Returns a c' f' err =>
      phase_at c' b stl /\ tokens_at c' b K0 /\
      fifo_at c' b (snt ++ omap ev_sent [EvAction a]) yl /\ ev_status (EvAction a) = None
  | Panics _ _ _ _ => False
  end.
Proof.
  intros Hp Ht [Hf Hy]. unfold Resume_step, Resume_closure.
  destruct f as [inp out []]; simpl.
  - destruct (status c); simpl; rewrite ?app_nil_r; done.
  - unfold chan_recv.
    destruct (buf (outputCh c)) as [|v rest] eqn:Hb; [destruct (closed (outputCh c)) eqn:Hc|]; simpl.
    + unfold fifo_at, tokens_at, phase_at, holding in *.
      destruct b as [[yo yi []] k|[yo yi []] k|fd ed kd| | | |]; simpl in *; rewrite ?Hb in *;
        inv_auto.
    + done.
    + unfold fifo_at, tokens_at, phase_at, holding in *.
      destruct b as [[yo yi []] k|[yo yi []] k|fd ed kd| | | |]; simpl in *; rewrite ?Hb in *;
        simpl in *; inv_auto.
  - unfold chan_send.
    destruct (closed (inputCh c)) eqn:Hc; simpl.
    + unfold fifo_at, tokens_at, phase_at, holding in *.
      destruct b as [[yo yi []] k|[yo yi []] k|fd ed kd| | | |]; simpl in *; inv_auto.
    + case_decide as Hl; simpl; [|done]. unfold chan_cap in Hl.
      destruct (buf (inputCh c)) as [|? ?] eqn:Hb; simpl in Hl; [|lia].
      unfold fifo_at, tokens_at, phase_at, holding in *.
      destruct b as [[yo yi []] k|[yo yi []] k|fd ed kd| | | |]; simpl in *; rewrite ?Hb in *;
        simpl in *; inv_auto.
Qed.

Lemma timed_body_keeps s s' : handoff_inv s -> step_body s = Some s' -> handoff_inv s'.
Proof.
  destruct s as [c b ct zs lt tr]. unfold handoff_inv, step_body, status_log, sent_log,
    yield_log, resumers_holding. simpl.
  intros (-> & Hp & Ht & Hf & Hy) Hs.
  destruct b as [[yo yi pc] k|[yo yi pc] k|f e k|r|r|r|e]; simpl in *.
  - unfold Yield_step, Yield_closure in Hs. destruct pc; simpl in Hs.
    + destruct (status c) eqn:Hst; simplify_eq/=; rewrite !omap_app; simpl;
        unfold fifo_at; simpl; inv_auto.
    + simplify_eq/=. rewrite !omap_app; simpl. unfold fifo_at; simpl. inv_auto.
    + unfold chan_send in Hs. destruct Hp as (Hci & Hco & Hp). rewrite Hco in Hs.
      case_decide as Hl; simplify_eq/=. unfold chan_cap in Hl.
      destruct (buf (outputCh c)) as [|??] eqn:Hb; simpl in Hl; [|lia].
      rewrite !omap_app; simpl. unfold fifo_at; simpl. simpl in *. inv_auto.
    + unfold chan_recv in Hs. destruct Hp as (Hci & Hco & Hp). rewrite Hci in Hs.
      destruct (buf (inputCh c)) as [|v rest] eqn:Hb; simplify_eq/=.
      rewrite !omap_app; simpl. unfold fifo_at; simpl. inv_auto.
    + simplify_eq/=. rewrite !omap_app; simpl.
      assert (Hrun : closed (inputCh c) = false /\ closed (outputCh c) = false /\
                     living_log (omap ev_status tr ++ [RUNNING])).
      { destruct Hp as (? & ? & [[? Hl]|[? Hl]]); split_and!; try done;
          [rewrite Hl; apply living_after_created | by apply living_after_suspended]. }
      destruct Hrun as (Hci & Hco & Hl).
      unfold fifo_at. rewrite fmap_app, Forall_app, Forall_singleton. simpl.
      destruct (k yi None) as [e|v|out k'|out k']; simpl; unfold Yield_entry; simpl;
        rewrite <-?app_assoc; simpl; inv_auto.
  - unfold Yield_step, Yield_closure in Hs. destruct pc; simpl in Hs.
    + destruct (status c) eqn:Hst; simplify_eq/=; rewrite !omap_app; simpl;
        unfold fifo_at; simpl; inv_auto.
    + simplify_eq/=. rewrite !omap_app; simpl. unfold fifo_at; simpl. inv_auto.
    + unfold chan_send in Hs. destruct Hp as (Hci & Hco & Hp). rewrite Hco in Hs.
      case_decide as Hl; simplify_eq/=. unfold chan_cap in Hl.
      destruct (buf (outputCh c)) as [|??] eqn:Hb; simpl in Hl; [|lia].
      rewrite !omap_app; simpl. unfold fifo_at; simpl. simpl in *. inv_auto.
    + unfold chan_recv in Hs. destruct Hp as (Hci & Hco & Hp). rewrite Hci in Hs.
      destruct (buf (inputCh c)) as [|v rest] eqn:Hb; simplify_eq/=.
      rewrite !omap_app; simpl. unfold fifo_at; simpl. inv_auto.
    + simplify_eq/=. rewrite !omap_app; simpl.
      assert (Hrun : closed (inputCh c) = false /\ closed (outputCh c) = false /\
                     living_log (omap ev_status tr ++ [RUNNING])).
      { destruct Hp as (? & ? & [[? Hl]|[? Hl]]); split_and!; try done;
          [rewrite Hl; apply living_after_created | by apply living_after_suspended]. }
      destruct Hrun as (Hci & Hco & Hl).
      unfold fifo_at in *. simpl in *. rewrite ?app_nil_r. inv_auto.
  - simplify_eq/=. rewrite !omap_app; simpl. rewrite ?app_nil_r.
    destruct Hp as (Hci & Hco & -> & Hst & Hl).
    unfold fifo_at in *. rewrite fmap_app, Forall_app, Forall_singleton. simpl in *.
    destruct (k (y_input f) None) as [e'|v|out k'|out k']; simpl; unfold Yield_entry; simpl;
      rewrite <-?app_assoc; simpl; inv_auto.
  - simplify_eq/=. rewrite !omap_app; simpl. unfold fifo_at; simpl. inv_auto.
  - unfold chan_close in Hs. destruct Hp as (Hci & Hco & Hp). rewrite Hci in Hs.
    simplify_eq/=. unfold fifo_at; simpl. inv_auto.
  - unfold chan_close in Hs. destruct Hp as (Hci & Hco & Hp). rewrite Hco in Hs.
    simplify_eq/=. unfold fifo_at; simpl.
    destruct (buf (inputCh c)), (buf (outputCh c)); simpl in *; inv_auto.
  - done.
Qed.

Ltac timed_logs :=
  unfold handoff_inv, status_log, sent_log, yield_log, resumers_holding; simpl;
  rewrite ?omap_app; simpl.

Lemma timed_ctl_keeps s s' : handoff_inv s -> step_ctl s = Some s' -> handoff_inv s'.
Proof.
  destruct s as [c b ct zs lt tr]. unfold step_ctl. simpl.
  intros (Hl & Hp & Ht & Hf) Hs. unfold status_log, sent_log, yield_log, resumers_holding in *.
  simpl in *. subst lt.
  destruct ct as [e|v|f k|f k|f e k]; simpl in *; try done.
  - pose proof (timed_resumer_keeps _ _ _ _ _ _ f Hp Ht Hf) as Hk.
    destruct (Resume_step c f) as [|a c' f'|a c' f' err|]; simplify_eq/=;  try done;
      destruct Hk as (Hp' & Ht' & Hf' & Ha); timed_logs;
      rewrite ?ctl_holding_run_ctl;
      destruct a; simplify_eq/=; rewrite ?app_nil_r in *; done.
  - pose proof (timed_resumer_keeps _ _ _ _ _ _ f Hp Ht Hf) as Hk.
    destruct (Resume_step c f) as [|a c' f'|a c' f' err|]; simplify_eq/=;  try done;
      destruct Hk as (Hp' & Ht' & Hf' & Ha); timed_logs;
      destruct a; simplify_eq/=; rewrite ?app_nil_r in *; done.
  - simplify_eq/=. timed_logs. rewrite ?app_nil_r, ctl_holding_run_ctl. done.
Qed.

Lemma timed_timer_keeps s s' : handoff_inv s -> step_timer s = Some s' -> handoff_inv s'.
Proof.
  destruct s as [c b ct zs lt tr]. unfold step_timer. simpl.
  intros (Hl & Hp & Ht & Hf) Hs. unfold status_log, sent_log, yield_log, resumers_holding in *.
  simpl in *. subst lt.
  destruct ct as [e|v|f k|f k|f e k]; simplify_eq/=; timed_logs;
    rewrite ?app_nil_r, ctl_holding_run_ctl; split_and!; try done.
  eapply timed_tokens_at_eq; [|exact Ht]. rewrite sum_list_with_app. simpl. lia.
Qed.

Lemma timed_zombie_keeps i s s' : handoff_inv s -> step_zombie i s = Some s' -> handoff_inv s'.
Proof.
  destruct s as [c b ct zs lt tr]. unfold step_zombie. simpl.
  intros (Hl & Hp & Ht & Hf) Hs. unfold status_log, sent_log, yield_log, resumers_holding in *.
  simpl in *. subst lt.
  destruct (zs !! i) as [f|] eqn:Hi; [|done].
  eapply timed_tokens_at_eq in Ht;
    [|rewrite (holding_delete _ _ _ Hi), Nat.add_assoc, (Nat.add_comm (ctl_holding ct)),
        <-Nat.add_assoc; reflexivity].
  pose proof (timed_resumer_keeps _ _ _ _ _ _ f Hp Ht Hf) as Hk.
  destruct (Resume_step c f) as [|a c' f'|a c' f' err|]; simplify_eq/=;  try done;
    destruct Hk as (Hp' & Ht' & Hf' & Ha); timed_logs;
    rewrite ?(holding_insert _ _ _ _ Hi);
    destruct a; simplify_eq/=; rewrite ?app_nil_r in *; split_and!; try done;
    (eapply timed_tokens_at_eq; [|exact Ht']; lia).
Qed.

Lemma timed_step_keeps t s s' :
  handoff_inv s -> t <> TBodyTimer -> step t s = Some s' -> handoff_inv s'.
Proof.
  intros Hi Ht Hs. destruct t as [| |i| | |i]; simpl in Hs;
    eauto using timed_body_keeps, timed_ctl_keeps, timed_timer_keeps, timed_zombie_keeps; [done|].
  destruct Hi as [Hl _]. unfold step_late in Hs. by rewrite Hl in Hs.
Qed.

Lemma timed_run_keeps sched s s' :
  handoff_inv s -> in_time sched -> run sched s = Some s' -> handoff_inv s'.
Proof.
  unfold in_time. revert s. induction sched as [|t sched IH]; intros s Hs Ht Hr; simplify_eq/=;
    [done|].
  destruct (step t s) as [s1|] eqn:Hst; [|done].
  apply not_elem_of_cons in Ht as [Ht1 Ht2]. eauto using timed_step_keeps.
Qed.

Lemma timed_launch_inv function p : handoff_inv (launch function p).
Proof.
  unfold handoff_inv, launch, spawn, status_log, sent_log, yield_log,
    resumers_holding, fifo_at. simpl. rewrite ctl_holding_run_ctl. split_and!; auto.
Qed.

Lemma timed_phase_sublist c b stl : phase_at c b stl -> exists n, stl `sublist_of` lifecycle n.
Proof.
  assert (Hcreated : [CREATED] `sublist_of` lifecycle 0).
  { apply sublist_skip, sublist_nil_l. }
  assert (Hliving : forall l, living_log l -> exists n, l `sublist_of` lifecycle n).
  { intros l [n ->]. exists n. unfold lifecycle.
    do 2 apply sublist_skip. apply sublist_inserts_r. done. }
  assert (Hsusp : forall l, suspended_log l -> exists n, l `sublist_of` lifecycle n).
  { intros l [n ->]. exists (S n). unfold lifecycle. rewrite <-cycles_snoc, <-app_assoc.
    do 2 apply sublist_skip. apply sublist_app; [done|].
    apply sublist_skip, sublist_nil_l. }
  assert (Hclosed : forall l, closed_log l -> exists n, l `sublist_of` lifecycle n).
  { intros l [n ->]. by exists n. }
  unfold phase_at. destruct b as [[yo yi []] k|[yo yi []] k| | | | |]; simpl; intros H;
    destruct_and?; destruct_or?; destruct_and?; subst; eauto.
Qed.

Lemma closed_not_inside n : ~ [CLOSED; RUNNING] `sublist_of` cycles n ++ [CLOSED].
Proof.
  induction n as [|n IH]; simpl.
  - intros H. apply sublist_length in H. simpl in H. lia.
  - intros H. apply sublist_cons_r in H as [H|(? & ? & _)]; [|done].
    apply sublist_cons_r in H as [H|(? & ? & _)]; [|done]. auto.
Qed.

Lemma reopened_not_lifecycle l n : ~ l ++ [CLOSED; RUNNING] `sublist_of` lifecycle n.
Proof.
  intros H. assert (H' : [CLOSED; RUNNING] `sublist_of` lifecycle n).
  { etrans; [|exact H]. by apply sublist_inserts_l. }
  unfold lifecycle in H'.
  apply sublist_cons_r in H' as [H'|(? & ? & _)]; [|done].
  apply sublist_cons_r in H' as [H'|(? & ? & _)]; [|done].
  by apply closed_not_inside in H'.
Qed.

(** *** The arguments of the calls *)

Lemma after_snoc p rl o e i k :
  after p rl = CResume i k \/ after p rl = CResumeWithTimeout i k ->
  after p (rl ++ [(o, e)]) = k o e.
Proof.
  revert p. induction rl as [|[o1 e1] rl IH]; intros p Hp; simpl in *.
  - by destruct Hp as [-> | ->].
  - destruct p as [err|i1 k1|i1 k1]; [by destruct Hp|by apply IH..].
Qed.

Lemma asked_snoc p rl o e i k :
  after p rl = CResume i k \/ after p rl = CResumeWithTimeout i k ->
  asked p (rl ++ [(o, e)]) = asked p rl ++ argument (k o e).
Proof.
  revert p. induction rl as [|[o1 e1] rl IH]; intros p Hp; simpl in *.
  - destruct Hp as [-> | ->]; simpl; destruct (k o e); by simpl.
  - destruct p as [err|i1 k1|i1 k1]; [by destruct Hp|..]; simpl; f_equal; by apply IH.
Qed.

Lemma answered_snoc p rl o e i k :
  after p rl = CResume i k \/ after p rl = CResumeWithTimeout i k ->
  answered p (rl ++ [(o, e)]) = answered p rl ++ match e with None => [i] | Some _ => [] end.
Proof.
  revert p. induction rl as [|[o1 e1] rl IH]; intros p Hp; simpl in *.
  - destruct Hp as [-> | ->]; simpl; destruct (k o e), e; by simpl.
  - destruct p as [err|i1 k1|i1 k1]; [by destruct Hp|..]; simpl;
      rewrite <-app_assoc; f_equal; by apply IH.
Qed.

Lemma Resume_step_input c f :
  match Resume_step c f with
  | Goes a _ f' => r_input f' = r_input f /\ ev_sent (EvAction a) = None
  | Returns a _ f' err =>
      r_input f' = r_input f /\
      ((a = ASendInput (r_input f) /\ err = None) \/
       (ev_sent (EvAction a) = None /\ err <> None))
  | Blocked => True
  | Panics _ _ _ _ => False
  end.
Proof.
  unfold Resume_step, Resume_closure, chan_recv, chan_send.
  destruct f as [inp out []]; simpl.
  - destruct (status c) eqn:E; simpl; auto.
  - by destruct (buf (outputCh c)), (closed (outputCh c)) eqn:E; simpl.
  - destruct (closed (inputCh c)) eqn:E; simpl; [auto|]. case_decide; simpl; auto.
Qed.

Lemma Yield_step_silent c f :
  match Yield_step c f with
  | Goes a _ _ | Returns a _ _ _ => ev_sent (EvAction a) = None
  | Blocked => True
  | Panics _ _ _ _ => False
  end.
Proof.
  unfold Yield_step, Yield_closure, chan_recv, chan_send.
  destruct f as [yo yi []]; simpl; try done.
  - by destruct (status c).
  - destruct (closed (outputCh c)); simpl; [done|]. by case_decide.
  - by destruct (buf (inputCh c)), (closed (inputCh c)).
Qed.

(** The steps of the body's side leave the controller's side alone. *)
Lemma body_side_quiet t s s' :
  t = TBody \/ t = TBodyTimer \/ (exists i, t = TLate i) -> step t s = Some s' ->
  ctl s' = ctl s /\ zombies s' = zombies s /\ resume_log s' = resume_log s /\
  sent_log s' = sent_log s.
Proof.
  destruct s as [c b ct zs lt tr]. unfold resume_log, sent_log. simpl.
  intros [-> |[-> |[i ->]]] Hs; simpl in Hs.
  - unfold step_body in Hs. simpl in Hs.
    destruct b as [f k|f k|f e k|r|r|r|e]; simpl in *.
    + pose proof (Yield_step_silent c f) as Hq.
      destruct (Yield_step c f); simplify_eq/=; rewrite ?omap_app; simpl; rewrite ?Hq;
        by rewrite ?app_nil_r.
    + pose proof (Yield_step_silent c f) as Hq.
      destruct (Yield_step c f); simplify_eq/=; rewrite ?omap_app; simpl; rewrite ?Hq;
        by rewrite ?app_nil_r.
    + simplify_eq/=. rewrite ?omap_app; simpl. by rewrite ?app_nil_r.
    + simplify_eq/=. rewrite ?omap_app; simpl. by rewrite ?app_nil_r.
    + destruct (chan_close (inputCh c)); simplify_eq/=; rewrite ?omap_app; simpl;
        by rewrite ?app_nil_r.
    + destruct (chan_close (outputCh c)); simplify_eq/=; rewrite ?omap_app; simpl;
        by rewrite ?app_nil_r.
    + done.
  - unfold step_body_timer in Hs. simpl in Hs.
    destruct b as [f k|f k|f e k|r|r|r|e]; simplify_eq/=; rewrite ?omap_app; simpl;
      by rewrite ?app_nil_r.
  - unfold step_late in Hs. simpl in Hs. destruct (lt !! i) as [f|]; [|done].
    pose proof (Yield_step_silent c f) as Hq.
    destruct (Yield_step c f); simplify_eq/=; rewrite ?omap_app; simpl; rewrite ?Hq;
      by rewrite ?app_nil_r.
Qed.

Lemma unsent_run_ctl q :
  match run_ctl q with
  | InResume f _ | InTimed f _ => [r_input f]
  | _ => []
  end = argument q.
Proof. by destruct q. Qed.

Lemma ctl_at_run_ctl p rl q c b zs lt tr :
  after p rl = q -> omap ev_resume tr = rl -> ctl_at p (MkState c b (run_ctl q) zs lt tr).
Proof. unfold ctl_at, resume_log. simpl. intros <- ->. by destruct (after p rl). Qed.

Lemma calls_at_step t s s' p : calls_at p s -> step t s = Some s' -> calls_at p s'.
Proof.
  intros [Hc [failed Hperm]] Hs.
  destruct t as [| |i| | |i];
    try (match type of Hs with
         | step ?t _ = _ =>
             destruct (body_side_quiet t _ _ ltac:(eauto) Hs) as (Hct & Hz & Hrl & Hsl)
         end;
         unfold calls_at, ctl_at, unsent in *; rewrite Hct, Hz, Hrl, Hsl; by eauto).
  - (* a step of the call in progress *)
    destruct s as [c b ct zs lt tr]. unfold ctl_at, unsent, resume_log, sent_log in *.
    simpl in *. unfold step_ctl in Hs. simpl in Hs.
    destruct ct as [e|v|f k|f k|f e k]; simpl in *; try done.
    + pose proof (Resume_step_input c f) as Hq.
      destruct (Resume_step c f) as [|a c' f'|a c' f' err|]; simplify_eq/=; try done.
      * destruct Hq as [Hin Ha]. split.
        -- unfold ctl_at, resume_log. simpl. rewrite omap_app. simpl.
           by rewrite ?app_nil_r, Hin.
        -- exists failed. unfold unsent, resume_log, sent_log. simpl.
           rewrite !omap_app. simpl. rewrite Ha, ?app_nil_r, Hin. done.
      * destruct Hq as [Hin Ha]. split.
        -- eapply ctl_at_run_ctl; [|reflexivity]. rewrite !omap_app. simpl.
           rewrite ?app_nil_r. by eapply after_snoc; left.
        -- unfold unsent, resume_log, sent_log. simpl. rewrite !omap_app. simpl.
           destruct Ha as [[-> ->]|[Ha He]]; simpl.
           ++ exists failed.
              rewrite ?app_nil_r, (asked_snoc _ _ _ _ _ _ (or_introl Hc)), unsent_run_ctl, Hperm.
              solve_Permutation.
           ++ exists (r_input f :: failed).
              rewrite Ha, ?app_nil_r, (asked_snoc _ _ _ _ _ _ (or_introl Hc)), unsent_run_ctl,
                Hperm.
              solve_Permutation.
    + pose proof (Resume_step_input c f) as Hq.
      destruct (Resume_step c f) as [|a c' f'|a c' f' err|]; simplify_eq/=; try done.
      * destruct Hq as [Hin Ha]. split.
        -- unfold ctl_at, resume_log. simpl. rewrite omap_app. simpl.
           by rewrite ?app_nil_r, Hin.
        -- exists failed. unfold unsent, resume_log, sent_log. simpl.
           rewrite !omap_app. simpl. rewrite Ha, ?app_nil_r, Hin. done.
      * destruct Hq as [Hin Ha]. split.
        -- unfold ctl_at, resume_log. simpl. rewrite omap_app. simpl.
           by rewrite ?app_nil_r, Hin.
        -- unfold unsent, resume_log, sent_log. simpl. rewrite !omap_app. simpl.
           destruct Ha as [[-> ->]|[Ha He]]; simpl.
           ++ exists failed. rewrite ?app_nil_r, Hperm. solve_Permutation.
           ++ exists (r_input f :: failed). rewrite Ha, ?app_nil_r, Hperm. solve_Permutation.
    + simplify_eq/=. split.
      * eapply ctl_at_run_ctl; [|reflexivity]. rewrite !omap_app. simpl.
        by eapply after_snoc; right.
      * unfold unsent, resume_log, sent_log. simpl. rewrite !omap_app. simpl.
        exists failed.
        rewrite ?app_nil_r, (asked_snoc _ _ _ _ _ _ (or_intror Hc)), unsent_run_ctl, Hperm.
        solve_Permutation.
  - (* the timer of a resume *)
    destruct s as [c b ct zs lt tr]. unfold ctl_at, unsent, resume_log, sent_log in *.
    simpl in *. unfold step_timer in Hs. simpl in Hs.
    destruct ct as [e|v|f k|f k|f e k]; simplify_eq/=; (split;
      [ eapply ctl_at_run_ctl; [|reflexivity]; rewrite !omap_app; simpl;
        by eapply after_snoc; right
      | unfold unsent, resume_log, sent_log; simpl; rewrite !omap_app; simpl;
        exists failed;
        rewrite ?app_nil_r, (asked_snoc _ _ _ _ _ _ (or_intror Hc)), unsent_run_ctl, Hperm,
          ?fmap_app; simpl;
        solve_Permutation ]).
  - (* a closure left by a timed-out resume *)
    destruct s as [c b ct zs lt tr]. unfold ctl_at, unsent, resume_log, sent_log in *.
    simpl in *. unfold step_zombie in Hs. simpl in Hs.
    destruct (zs !! i) as [f|] eqn:Hi; [|done].
    pose proof (Resume_step_input c f) as Hq.
    destruct (Resume_step c f) as [|a c' f'|a c' f' err|]; simplify_eq/=; try done.
    + destruct Hq as [Hin Ha]. split.
      * unfold ctl_at, resume_log. simpl. rewrite omap_app. simpl. by rewrite ?app_nil_r.
      * exists failed. unfold unsent, resume_log, sent_log. simpl.
        rewrite !omap_app. simpl. rewrite Ha, ?app_nil_r, list_fmap_insert, Hin.
        rewrite list_insert_id; [done|]. by rewrite list_lookup_fmap, Hi.
    + destruct Hq as [Hin Ha]. split.
      * unfold ctl_at, resume_log. simpl. rewrite omap_app. simpl. by rewrite ?app_nil_r.
      * unfold unsent, resume_log, sent_log. simpl. rewrite !omap_app. simpl.
        assert (Hz : r_input <$> zs ≡ₚ r_input f :: (r_input <$> delete i zs)).
        { rewrite (delete_Permutation zs i f Hi) at 1. done. }
        destruct Ha as [[-> ->]|[Ha He]]; simpl.
        -- exists failed. rewrite ?app_nil_r, Hperm, Hz. solve_Permutation.
        -- exists (r_input f :: failed). rewrite Ha, ?app_nil_r, Hperm, Hz. solve_Permutation.
Qed.

Lemma calls_at_run sched s s' p : calls_at p s -> run sched s = Some s' -> calls_at p s'.
Proof.
  revert s. induction sched as [|t sched IH]; intros s Hs Hr; simplify_eq/=; [done|].
  destruct (step t s) as [s1|] eqn:Hst; [|done]. eauto using calls_at_step.
Qed.

Lemma calls_at_launch function p : calls_at p (launch function p).
Proof.
  split.
  - unfold ctl_at, launch, resume_log. simpl. by destruct p.
  - exists []. unfold unsent, launch, resume_log, sent_log. simpl.
    rewrite unsent_run_ctl. destruct p; simpl; done.
Qed.

Lemma answered_at_step t s s' p :
  ctl_at p s -> answered_at p s -> step t s = Some s' -> answered_at p s'.
Proof.
  intros Hc (Hu & Hz & Ha) Hs.
  destruct t as [| |i| | |i];
    try (match type of Hs with
         | step ?t _ = _ =>
             destruct (body_side_quiet t _ _ ltac:(eauto) Hs) as (Hct & Hz' & Hrl & Hsl)
         end;
         unfold answered_at; rewrite Hct, Hz', Hrl, Hsl; by eauto).
  - destruct s as [c b ct zs lt tr]. unfold answered_at, ctl_at, resume_log, sent_log in *.
    simpl in *. unfold step_ctl in Hs. simpl in Hs.
    destruct ct as [e|v|f k|f k|f e k]; simpl in *; try done.
    pose proof (Resume_step_input c f) as Hq.
    destruct (Resume_step c f) as [|a c' f'|a c' f' err|]; simplify_eq/=; try done.
    + destruct Hq as [Hin Hq]. rewrite !omap_app. simpl. rewrite Hq, ?app_nil_r. done.
    + destruct Hq as [Hin Hq]. rewrite !omap_app. simpl. rewrite ?app_nil_r.
      rewrite (answered_snoc _ _ _ _ _ _ (or_introl Hc)). split_and!.
      * by apply ctl_untimed_run_ctl.
      * done.
      * destruct Hq as [[-> ->]|[Hq He]]; simpl; [by rewrite Ha|].
        rewrite Hq, app_nil_r. destruct err; [|done]. by rewrite ?app_nil_r.
  - destruct s as [c b ct zs lt tr]. unfold step_timer in Hs. simpl in *.
    by destruct ct.
  - destruct s as [c b ct zs lt tr]. unfold step_zombie in Hs. simpl in *. by subst zs.
Qed.

Lemma answered_at_run sched s s' p :
  calls_at p s -> answered_at p s -> run sched s = Some s' -> answered_at p s'.
Proof.
  revert s. induction sched as [|t sched IH]; intros s Hc Hs Hr; simplify_eq/=; [done|].
  destruct (step t s) as [s1|] eqn:Hst; [|done].
  eapply IH; [by eapply calls_at_step| |done]. destruct Hc. by eapply answered_at_step.
Qed.

Lemma answered_at_launch function p : untimed p -> answered_at p (launch function p).
Proof.
  intros Hu. split_and!; [by apply ctl_untimed_run_ctl|done|].
  unfold launch, resume_log, sent_log. simpl. by destruct p.
Qed.

(** ** Closed handles *)

(** C5, amended: a [Resume] or a [Yield] that finds the status Closed, on any
    handle, returns at its first statement with [ErrCoroutineIsClosed] and no
    output, having only read the status: no channel is touched and the handle
    is the same after the call.  Once the deferred function of the body has
    written Closed and no closure of a [Yield] is left running ([late] is
    empty, as it is when no [YieldWithTimeout] ran into its deadline), the
    status stays Closed whatever runs afterwards, no such closure appears,
    and every later [Resume] of the controller fails in this way. *)
Theorem closed_handle_fails_fast :
  (forall c, status c = CLOSED ->
     (forall input,
        Resume_step c (Resume_entry input) =
          Returns (AReadStatus CLOSED) c (Resume_entry input) (Some ErrCoroutineIsClosed) /\
        r_output (Resume_entry input) = [] /\
        is_chan_action (AReadStatus CLOSED) = false) /\
     (forall output,
        Yield_step c (Yield_entry output) =
          Returns (AReadStatus CLOSED) c (Yield_entry output) (Some ErrCoroutineIsClosed) /\
        y_input (Yield_entry output) = [])) /\
  (forall function p sched s,
     Timed.run sched (Timed.launch function p) = Some s ->
     status (Timed.co s) = CLOSED -> Timed.late s = [] ->
     forall sched' s', Timed.run sched' s = Some s' ->
       status (Timed.co s') = CLOSED /\ Timed.late s' = [] /\
       (forall input k, Timed.ctl s' = InResume (Resume_entry input) k ->
          Timed.step Timed.TCtl s' =
            Some (Timed.MkState (Timed.co s') (Timed.body s')
                    (run_ctl (k [] (Some ErrCoroutineIsClosed))) (Timed.zombies s') []
                    (Timed.trace s' ++ [EvAction (AReadStatus CLOSED);
                                        EvResume [] (Some ErrCoroutineIsClosed)])))).
Proof.
  split.
  - intros c Hc. split.
    + intros input. unfold Resume_step, Resume_closure. simpl. by rewrite Hc.
    + intros output. unfold Yield_step, Yield_closure. simpl. by rewrite Hc.
  - intros function p sched s Hr Hc Hl sched' s' Hr'.
    pose proof (settled_run _ _ _ (settled_launch function p) Hr) as Hi.
    destruct (timed_closed_forever _ _ _ Hi Hc Hl Hr') as (Hc' & Hl' & _).
    split_and!; [done..|].
    intros input k Hk. destruct s' as [c b ct zs lt tr]. simpl in *. subst ct lt.
    unfold step_ctl, Resume_step, Resume_closure. simpl. by rewrite Hc'.
Qed.

Lemma closed_handle_fails_fast_witness :
  exists s,
    Timed.run Timed.In_time_schedule Timed.In_time_system = Some s /\
    status (Timed.co s) = CLOSED /\ Timed.late s = [] /\
    (Timed.resume_log <$> Timed.step Timed.TCtl s) =
      Some [([], None); ([AStr "x"], None); ([], Some ErrCoroutineIsClosed)].
Proof.
  eexists. split; [vm_compute; reflexivity|].
  split; [reflexivity|]. split; [reflexivity|].
  match goal with
  | |- context [Timed.step _ ?s] =>
      pose proof (proj2 closed_handle_fails_fast Timed.Impatient_function
                    Timed.Losing_controller Timed.In_time_schedule s
                    ltac:(vm_compute; reflexivity) eq_refl eq_refl [] s eq_refl) as H
  end.
  destruct H as (_ & _ & Hstep). rewrite (Hstep _ _ eq_refl). reflexivity.
Defined.

(** C5, as stated, fails: a closure that a deadline left behind writes
    Running over Closed.  The body waits with [YieldWithTimeout]; the
    deadline passes, the body returns and its deferred function closes the
    handle.  The closure then receives from the closed input channel and
    sets the status to Running, and the next [Resume], on a handle whose body
    has returned, takes the output left in the channel and returns it with
    the recovered fault of its send, not with [ErrCoroutineIsClosed]. *)
Lemma reopened_handle_counterexample :
  exists s1 s2,
    Timed.run Timed.Impatient_schedule Timed.Impatient_system = Some s1 /\
    status (Timed.co s1) = CLOSED /\
    Timed.body s1 = Timed.BodyDone (Some ErrDeadlineExceeded) /\
    Timed.run Timed.Late_schedule s1 = Some s2 /\
    status (Timed.co s2) = RUNNING /\
    (Timed.resume_log <$> Timed.run [Timed.TCtl; Timed.TCtl; Timed.TCtl] s2) =
      Some [([], None); ([AStr "x"], Some (ErrRecovered PSendOnClosedChannel))].
Proof.
  eexists _, _. split; [vm_compute; reflexivity|].
  split; [reflexivity|]. split; [reflexivity|].
  split; [vm_compute; reflexivity|]. split; reflexivity.
Qed.

(** ** The sequence of statuses *)

(** C8, amended: as long as no [YieldWithTimeout] of the body runs into its
    deadline, so that no closure of a [Yield] is left behind, the statuses
    written to a handle, in order, are a subsequence of
    Created, Running, (Suspended, Running)*, Closed, whatever the function of
    the body, the controller and the schedule; and once the status is Closed
    no step of any goroutine changes it or writes it again. *)
Theorem status_sequence function p sched s :
  Timed.run sched (Timed.launch function p) = Some s -> Timed.in_time sched ->
  (exists n, Timed.status_log s `sublist_of` lifecycle n) /\
  (status (Timed.co s) = CLOSED ->
   forall sched' s', Timed.run sched' s = Some s' ->
     status (Timed.co s') = CLOSED /\ Timed.status_log s' = Timed.status_log s).
Proof.
  intros Hr Ht.
  destruct (timed_run_keeps _ _ _ (timed_launch_inv function p) Ht Hr) as (Hl & Hp & _). split.
  - by eapply timed_phase_sublist.
  - intros Hc sched' s' Hr'.
    pose proof (settled_run _ _ _ (settled_launch function p) Hr) as Hi.
    by destruct (timed_closed_forever _ _ _ Hi Hc Hl Hr') as (? & _ & ?).
Qed.

Lemma status_sequence_witness :
  exists s, Timed.run Timed.In_time_schedule Timed.In_time_system = Some s /\
    Timed.in_time Timed.In_time_schedule /\
    Timed.status_log s = [CREATED; RUNNING; SUSPENDED; RUNNING; CLOSED] /\
    exists n, Timed.status_log s `sublist_of` lifecycle n.
Proof.
  eexists. split; [vm_compute; reflexivity|].
  assert (Ht : Timed.in_time Timed.In_time_schedule).
  { apply (bool_decide_unpack _). vm_compute. exact I. }
  split; [exact Ht|]. split; [reflexivity|].
  refine (proj1 (status_sequence Timed.Impatient_function Timed.Losing_controller
                   Timed.In_time_schedule _ _ Ht)).
  vm_compute; reflexivity.
Defined.

(** C8, as stated, fails: with a deadline of [YieldWithTimeout] that passes,
    the statuses written are Created, Running, Suspended, Closed, Running:
    the closure left behind writes Running after the deferred function has
    written Closed.  This is a subsequence of no lifecycle, and the status
    has changed after Closed. *)
Lemma late_yield_counterexample :
  exists s,
    Timed.run (Timed.Impatient_schedule ++ Timed.Late_schedule) Timed.Impatient_system = Some s /\
    Timed.status_log s = [CREATED; RUNNING; SUSPENDED; CLOSED; RUNNING] /\
    status (Timed.co s) = RUNNING /\
    ~ exists n, Timed.status_log s `sublist_of` lifecycle n.
Proof.
  eexists. split; [vm_compute; reflexivity|].
  split; [reflexivity|]. split; [reflexivity|].
  intros [n H]. by apply (reopened_not_lifecycle [CREATED; RUNNING; SUSPENDED] n).
Qed.

(** ** Inputs reach the body *)

(** C4, amended: as long as no [YieldWithTimeout] of the body runs into its
    deadline, the inputs returned by the calls of [Yield] and
    [YieldWithTimeout] of the body are, in order and one for one, the inputs
    that closures of [Resume] put on the input channel: nothing is lost,
    doubled or swapped, at most one input is waiting, and no such call
    fails.  Each input sent is the [input] argument of a call of the
    controller, a different call for each.  When the controller calls
    [Resume] only, never with a timeout, the inputs sent are exactly, in the
    order of the calls, the arguments of the calls that returned a nil
    error.  An input that waits in the channel is what the call in progress
    in the body returns as soon as the body runs. *)
Theorem resume_input_reaches_yield function p sched s :
  Timed.run sched (Timed.launch function p) = Some s -> Timed.in_time sched ->
  (Timed.yield_log s).*1 `prefix_of` Timed.sent_log s /\
  length (Timed.sent_log s) <= S (length (Timed.yield_log s)) /\
  Forall (fun r => r.2 = None) (Timed.yield_log s) /\
  Timed.sent_log s ⊆+ asked p (Timed.resume_log s) /\
  (untimed p -> Timed.sent_log s = answered p (Timed.resume_log s)) /\
  (forall x, buf (inputCh (Timed.co s)) = [x] ->
     exists n s', n <= 3 /\ Timed.run (replicate n Timed.TBody) s = Some s' /\
       Timed.yield_log s' = Timed.yield_log s ++ [(x, None)] /\
       Timed.sent_log s' = Timed.sent_log s).
Proof.
  intros Hr Hin.
  destruct (timed_run_keeps _ _ _ (timed_launch_inv function p) Hin Hr) as (Hl & Hp & Ht & Hf & Hy).
  pose proof (calls_at_run _ _ _ _ (calls_at_launch function p) Hr) as [Hc [failed Hperm]].
  split_and!.
  - rewrite Hf. by eexists.
  - rewrite Hf, !length_app, length_fmap. unfold tokens_at, received in *.
    destruct (body s) as [[yo yi []] k|[yo yi []] k|f e k| | | |]; destruct_and?; simpl in *;
      repeat match goal with H : buf _ = [] |- _ => rewrite H end; simpl; lia.
  - done.
  - rewrite Hperm. by apply submseteq_inserts_r.
  - intros Hu.
    by destruct (answered_at_run _ _ _ _ (calls_at_launch function p)
                   (answered_at_launch function p Hu) Hr) as (_ & _ & ?).
  - intros x Hx. destruct s as [c b ct zs lt tr].
    unfold status_log, sent_log, yield_log, resumers_holding in *. simpl in *.
    unfold tokens_at, phase_at in *. rewrite Hx in *.
    destruct b as [[yo yi []] k|[yo yi []] k|f e k| | | |]; destruct_and?; simpl in *;
      try lia; try done.
    + exists 2. eexists. split; [lia|]. simpl.
      unfold step_body, Yield_step, Yield_closure, chan_recv. simpl. rewrite Hx. simpl.
      split; [reflexivity|]. simpl. rewrite !omap_app. simpl. rewrite !app_nil_r.
      by destruct (k x None).
    + exists 3. eexists. split; [lia|]. simpl.
      unfold step_body, Yield_step, Yield_closure, chan_recv. simpl. rewrite Hx. simpl.
      split; [reflexivity|]. simpl. rewrite !omap_app. simpl. rewrite !app_nil_r.
      by destruct (k x None).
Qed.

Lemma resume_input_reaches_yield_witness :
  exists s, Timed.run Timed.In_time_schedule Timed.Triple_system = Some s /\
    Timed.in_time Timed.In_time_schedule /\ untimed Timed.Triple_controller /\
    Timed.resume_log s = [([], None); ([AStr "x"], None)] /\
    answered Timed.Triple_controller (Timed.resume_log s) = [[]; [AStr "a"; AInt 1; ANil]] /\
    Timed.yield_log s = [([], None); ([AStr "a"; AInt 1; ANil], None)] /\
    Timed.sent_log s = answered Timed.Triple_controller (Timed.resume_log s).
Proof.
  eexists. split; [vm_compute; reflexivity|].
  assert (Ht : Timed.in_time Timed.In_time_schedule).
  { apply (bool_decide_unpack _). vm_compute. exact I. }
  assert (Hu : untimed Timed.Triple_controller).
  { repeat (constructor; intros). }
  split; [exact Ht|]. split; [exact Hu|].
  split; [reflexivity|]. split; [reflexivity|]. split; [reflexivity|].
  refine (proj1 (proj2 (proj2 (proj2 (proj2
    (resume_input_reaches_yield Timed.Impatient_function Timed.Triple_controller
       Timed.In_time_schedule _ _ Ht))))) Hu).
  vm_compute; reflexivity.
Defined.

(** C4, as stated, fails: a closure left behind by a deadline takes an input
    away from the body.  The body calls [YieldWithTimeout("x")], whose
    deadline passes while the closure waits for its input, and then
    [Yield("y")].  The second [Resume] takes ["x"] and sends ["v"]; the
    closure left behind receives it.  The third [Resume] takes ["y"] and
    sends ["w"], which the [Yield] of the body returns.  The three calls
    return a nil error, and no [Yield] of the body returns the ["v"] of the
    second. *)
Lemma lost_input_counterexample :
  exists s, Timed.run Timed.Losing_schedule Timed.Losing_system = Some s /\
    Timed.resume_log s = [([], None); ([AStr "x"], None); ([AStr "y"], None)] /\
    answered Timed.Losing_controller (Timed.resume_log s) = [[]; [AStr "v"]; [AStr "w"]] /\
    Timed.yield_log s = [([], None); ([], Some ErrDeadlineExceeded); ([AStr "w"], None)] /\
    Timed.late s = [].
Proof.
  eexists. split; [vm_compute; reflexivity|]. split_and!; reflexivity.
Qed.

(** ** The handoff in time *)

Lemma timed_holding_le_resumers s f : resuming s f -> holding f <= resumers_holding s.
Proof.
  unfold resuming, resumers_holding. intros [[k [-> | ->]]|Hin]; simpl; try lia.
  pose proof (sum_list_with_in _ holding _ Hin). lia.
Qed.

(** X1: as long as no [YieldWithTimeout] of the body runs into its deadline, at
    most one message is in the two channels together, and a send never
    waits: when a closure of [Yield] reaches its send the output channel is
    empty and open, and when a closure of [Resume] reaches its send, be it
    that of the call in progress or one left behind by an expired
    [ResumeWithTimeout], the input channel is empty, so the send goes
    through, or it is closed, so the send faults and the call returns. *)
Theorem sends_never_block function p sched s :
  Timed.run sched (Timed.launch function p) = Some s -> Timed.in_time sched ->
  length (buf (inputCh (Timed.co s))) + length (buf (outputCh (Timed.co s))) <= 1 /\
  (forall f k,
     Timed.body s = Timed.InYield f k \/ Timed.body s = Timed.InTimedYield f k ->
     y_pc f = YSend ->
     Yield_step (Timed.co s) f =
       Goes (ASendOutput (y_output f))
         (set_outputCh (Timed.co s) (Chan [y_output f] false)) (y_at f YRecv)) /\
  (forall f, Timed.resuming s f -> r_pc f = RSend ->
     Resume_step (Timed.co s) f =
       Returns (ASendInput (r_input f))
         (set_inputCh (Timed.co s) (Chan [r_input f] false)) f None \/
     Resume_step (Timed.co s) f =
       Returns AFault (Timed.co s) f (Some (ErrRecovered PSendOnClosedChannel))).
Proof.
  intros Hr Hin.
  destruct (timed_run_keeps _ _ _ (timed_launch_inv function p) Hin Hr) as (_ & Hp & Ht & _).
  split_and!.
  - unfold tokens_at in Ht.
    destruct (body s) as [[yo yi []] k|[yo yi []] k|f e k| | | |]; simpl in *;
      destruct_and?; try lia.
    repeat match goal with H : buf _ = [] |- _ => rewrite H end. simpl. lia.
  - intros f k Hb Hpc.
    assert (Hco : closed (outputCh (co s)) = false /\
                  length (buf (outputCh (co s))) + length (buf (inputCh (co s))) +
                    resumers_holding s = 0).
    { destruct Hb as [Hb|Hb]; rewrite Hb in Hp, Ht; simpl in *; rewrite Hpc in Ht;
        by destruct Hp as (_ & ? & _). }
    destruct Hco as [Hco Hz]. destruct f as [yo yi pc]. simpl in *. subst pc.
    unfold Yield_step, Yield_closure, chan_send. simpl. rewrite Hco.
    destruct (buf (outputCh (co s))) eqn:Hb'; simpl in *; [|lia]. done.
  - intros f Hf Hpc. pose proof (timed_holding_le_resumers _ _ Hf) as Hh.
    unfold holding in Hh. rewrite Hpc in Hh.
    unfold Resume_step, Resume_closure, chan_send. rewrite Hpc.
    destruct (closed (inputCh (co s))) eqn:Hci; simpl; [by right|left].
    unfold tokens_at, phase_at in *.
    destruct (body s) as [[yo yi []] k|[yo yi []] k|fd ed kd| | | |]; simpl in *;
      destruct_and?; try lia; try congruence;
      (destruct (buf (inputCh (co s))) eqn:Hb'; simpl in *; [done|lia]).
Qed.

Lemma sends_never_block_witness :
  exists s, Timed.run Timed.Waiting_schedule Timed.Triple_system = Some s /\
    Timed.in_time Timed.Waiting_schedule /\
    buf (outputCh (Timed.co s)) = [[AStr "x"]] /\
    length (buf (inputCh (Timed.co s))) + length (buf (outputCh (Timed.co s))) <= 1.
Proof.
  eexists. split; [vm_compute; reflexivity|].
  assert (Ht : Timed.in_time Timed.Waiting_schedule).
  { apply (bool_decide_unpack _). vm_compute. exact I. }
  split; [exact Ht|]. split; [reflexivity|].
  refine (proj1 (sends_never_block Timed.Impatient_function Timed.Triple_controller
                   Timed.Waiting_schedule _ _ Ht)).
  vm_compute; reflexivity.
Defined.

(** X3: as long as no [YieldWithTimeout] of the body has run into its deadline:
    when the function of the body has returned or panicked, the three
    deferred statements of its goroutine run without waiting and without a
    fault: they set the status to Closed and close both channels, which are
    empty at that moment, so that no message is lost; the goroutine ends with
    the error of the function, or with its recovered panic. *)
Theorem body_end_closes_handle function p sched s r :
  Timed.run sched (Timed.launch function p) = Some s -> Timed.in_time sched ->
  Timed.body s = Timed.DeferStatus r ->
  exists s', Timed.run [Timed.TBody; Timed.TBody; Timed.TBody] s = Some s' /\
    Timed.body s' = Timed.BodyDone (exit_error r) /\
    Timed.co s' = MkCoroutine CLOSED (Chan [] true) (Chan [] true) /\
    Timed.status_log s' = Timed.status_log s ++ [CLOSED] /\
    Timed.ctl s' = Timed.ctl s /\ Timed.zombies s' = Timed.zombies s.
Proof.
  intros Hr Hin Hb.
  destruct (timed_run_keeps _ _ _ (timed_launch_inv function p) Hin Hr) as (_ & Hp & Ht & _).
  destruct s as [[st [bi ci] [bo co]] b ct zs lt tr]. simpl in *. subst b. simpl in *.
  destruct Hp as (-> & -> & _). destruct bi, bo; simpl in *; try lia.
  eexists. split; [reflexivity|]. unfold status_log. simpl.
  rewrite omap_app. done.
Qed.

Lemma body_end_closes_handle_witness :
  exists s, Timed.run Timed.Returning_schedule Timed.Triple_system = Some s /\
    Timed.in_time Timed.Returning_schedule /\
    Timed.body s = Timed.DeferStatus (ExitReturn None) /\
    exists s', Timed.run [Timed.TBody; Timed.TBody; Timed.TBody] s = Some s' /\
      Timed.body s' = Timed.BodyDone None.
Proof.
  eexists. split; [vm_compute; reflexivity|].
  assert (Ht : Timed.in_time Timed.Returning_schedule).
  { apply (bool_decide_unpack _). vm_compute. exact I. }
  split; [exact Ht|]. split; [reflexivity|].
  match goal with
  | |- exists s', Timed.run _ ?s = _ /\ _ =>
      destruct (body_end_closes_handle Timed.Impatient_function Timed.Triple_controller
                  Timed.Returning_schedule s _ ltac:(vm_compute; reflexivity) Ht eq_refl)
        as (s' & Hs' & Hb' & _)
  end.
  exists s'. by split.
Defined.

Lemma timed_returns_at_step t s s' :
  handoff_inv s -> returns_at s -> t <> TBodyTimer -> step t s = Some s' -> returns_at s'.
Proof.
  destruct s as [c b ct zs lt tr].
  intros (Hl & Hp & Ht & _) (Hu & Hz & Hr & Hf & Ho) Hnt Hs.
  unfold returns_at, returned_log, held, resume_log, yielded_log, resumers_holding in *.
  simpl in *. subst zs lt. simpl in *.
  destruct t as [| |i| | |i]; simpl in Hs; [|done|done|..].
  - (* the body *)
    unfold step_body in Hs. simpl in Hs.
    destruct b as [[yo yi ypc] kb|[yo yi ypc] kb|fd ed kd|r|r|r|e]; simpl in *; try done.
    + unfold Yield_step, Yield_closure in Hs. simpl in Hs. destruct ypc; simpl in Hs.
      * destruct (status c); simplify_eq/=; rewrite !omap_app; simpl;
          rewrite ?app_nil_r; split_and!; eauto.
      * simplify_eq/=. rewrite !omap_app; simpl. rewrite ?app_nil_r; split_and!; eauto.
      * destruct (chan_send (outputCh c) yo) eqn:Hsend; simplify_eq/=.
        -- unfold chan_send in Hsend. destruct (closed (outputCh c)); [done|].
           case_decide; simplify_eq/=. rewrite !omap_app; simpl.
           rewrite ?app_nil_r, <-Hr, <-!app_assoc. split_and!; eauto.
        -- rewrite !omap_app; simpl. rewrite ?app_nil_r; split_and!; eauto.
      * destruct (chan_recv (inputCh c)) as [[v ch]|] eqn:Hrecv; simplify_eq/=.
        unfold chan_recv in Hrecv. destruct Hp as (Hci & _). rewrite Hci in *.
        destruct (buf (inputCh c)); simplify_eq/=.
        rewrite !omap_app; simpl. rewrite ?app_nil_r; split_and!; eauto.
      * simplify_eq/=. rewrite !omap_app; simpl. rewrite ?app_nil_r; split_and!; eauto.
    + unfold Yield_step, Yield_closure in Hs. simpl in Hs. destruct ypc; simpl in Hs.
      * destruct (status c); simplify_eq/=; rewrite !omap_app; simpl;
          rewrite ?app_nil_r; split_and!; eauto.
      * simplify_eq/=. rewrite !omap_app; simpl. rewrite ?app_nil_r; split_and!; eauto.
      * destruct (chan_send (outputCh c) yo) eqn:Hsend; simplify_eq/=.
        -- unfold chan_send in Hsend. destruct (closed (outputCh c)); [done|].
           case_decide; simplify_eq/=. rewrite !omap_app; simpl.
           rewrite ?app_nil_r, <-Hr, <-!app_assoc. split_and!; eauto.
        -- rewrite !omap_app; simpl. rewrite ?app_nil_r; split_and!; eauto.
      * destruct (chan_recv (inputCh c)) as [[v ch]|] eqn:Hrecv; simplify_eq/=.
        unfold chan_recv in Hrecv. destruct Hp as (Hci & _). rewrite Hci in *.
        destruct (buf (inputCh c)); simplify_eq/=.
        rewrite !omap_app; simpl. rewrite ?app_nil_r; split_and!; eauto.
      * simplify_eq/=. rewrite !omap_app; simpl. rewrite ?app_nil_r; split_and!; eauto.
    + simplify_eq/=. rewrite !omap_app; simpl. rewrite ?app_nil_r; split_and!; eauto.
    + simplify_eq/=. rewrite !omap_app; simpl. rewrite ?app_nil_r; split_and!; eauto.
    + unfold chan_close in Hs. destruct Hp as (Hci & _). rewrite Hci in *.
      simplify_eq/=. split_and!; eauto.
      * rewrite <-Hr. do 2 f_equal. destruct ct as [| |f k| |]; try done.
        unfold ctl_holding, holding in Ht. destruct (r_pc f); simpl in *; try done; lia.
      * intros f k -> _. apply (Ho f k eq_refl). left.
        unfold ctl_holding, holding in Ht. destruct (r_pc f); simpl in *; try done; lia.
    + unfold chan_close in Hs. destruct Hp as (Hci & Hco & _). rewrite Hco in *.
      simplify_eq/=. split_and!; eauto.
  - (* the controller *)
    unfold step_ctl in Hs. simpl in Hs.
    destruct ct as [e|pv|f k|f k|f e k]; simpl in *; try done.
    unfold Resume_step, Resume_closure in Hs. destruct f as [ri ro rpc]. simpl in *.
    destruct rpc; simpl in *.
    + assert (ro = []) as -> by (apply (Ho _ k eq_refl); by left).
      destruct (status c); simplify_eq/=; rewrite !omap_app; simpl;
        rewrite ?app_nil_r; split_and!; eauto using ctl_untimed_run_ctl;
        try (intros f k' [= <- <-] _; done);
        try (intros f k' Hf' _; by destruct (k [] (Some ErrCoroutineIsClosed)); simplify_eq/=).
      * destruct (k [] (Some ErrCoroutineIsClosed)); simpl; by rewrite ?app_nil_r.
      * rewrite Forall_app, Forall_singleton. done.
    + unfold chan_recv in Hs. destruct (buf (outputCh c)) as [|o os] eqn:Hbo.
      * destruct (closed (outputCh c)) eqn:Hco; simplify_eq/=.
        assert (Hci : closed (inputCh c) = true).
        { unfold phase_at in Hp.
          destruct b as [[yo yi ypc] kb|[yo yi ypc] kb|fd ed kd|r|r|r|e]; simpl in *;
            destruct_and?; congruence. }
        simpl in Hr. rewrite ?app_nil_r in Hr.
        rewrite Hbo, Hci. rewrite !omap_app; simpl. rewrite ?app_nil_r.
        split_and!; eauto. intros f k' [= <- <-] _. done.
      * simplify_eq/=.
        assert (Hci : closed (inputCh c) = false).
        { unfold tokens_at, phase_at, holding in *.
          destruct b as [[yo yi ypc] kb|[yo yi ypc] kb|fd ed kd|r|r|r|e]; simpl in *;
            rewrite ?Hbo in *; simpl in *; destruct_and?; try done; try lia. }
        rewrite Hci. rewrite !omap_app; simpl. rewrite ?app_nil_r.
        split_and!; eauto. intros f k' [= <- <-] [?|?]; done.
    + unfold chan_send in Hs. destruct (closed (inputCh c)) eqn:Hci; simplify_eq/=.
      * assert (ro = []) as -> by (apply (Ho _ k eq_refl); by right).
        rewrite !omap_app; simpl. rewrite ?app_nil_r.
        split_and!; eauto using ctl_untimed_run_ctl.
        -- rewrite <-Hr. f_equal.
           destruct (k [] (Some (ErrRecovered PSendOnClosedChannel))); simpl; done.
        -- rewrite Forall_app, Forall_singleton. done.
        -- intros f k' Hf' _.
           by destruct (k [] (Some (ErrRecovered PSendOnClosedChannel))); simplify_eq/=.
      * case_decide; simplify_eq/=.
        rewrite !omap_app; simpl. rewrite ?app_nil_r.
        split_and!; eauto using ctl_untimed_run_ctl.
        -- rewrite <-Hr, <-!app_assoc. simpl. f_equal.
           destruct (k ro None); simpl; done.
        -- rewrite Forall_app, Forall_singleton. done.
        -- intros f k' Hf' _. by destruct (k ro None); simplify_eq/=.
  - unfold step_timer in Hs. simpl in Hs. destruct ct; simpl in *; done.
  - unfold step_zombie in Hs. simpl in Hs. done.
Qed.

Lemma timed_returns_at_run sched s s' :
  handoff_inv s -> returns_at s -> in_time sched -> run sched s = Some s' -> returns_at s'.
Proof.
  unfold in_time. revert s.
  induction sched as [|t sched IH]; intros s Hi Hs Ht Hr; simplify_eq/=; [done|].
  destruct (step t s) as [s1|] eqn:Hst; [|done].
  apply not_elem_of_cons in Ht as [Ht1 Ht2].
  eauto using timed_returns_at_step, timed_step_keeps.
Qed.

(** X7: as long as no [YieldWithTimeout] of the body runs into its deadline and
    with a controller that only calls [Resume] (no timeout), the outputs that
    its calls returned with a nil error are, in order and one for one, the
    outputs that the closures of [Yield] sent; at most one more has been sent
    and is in the channel or with the call in progress.  A call that returns
    an error returns no output, and no closure of a [Resume] is left
    behind. *)
Theorem resume_outputs_are_yields function p sched s :
  untimed p -> Timed.run sched (Timed.launch function p) = Some s -> Timed.in_time sched ->
  Timed.returned_log s `prefix_of` Timed.yielded_log s /\
  length (Timed.yielded_log s) <= S (length (Timed.returned_log s)) /\
  Forall (fun r : slice * option error => r.2 <> None -> r.1 = []) (Timed.resume_log s) /\
  Timed.zombies s = [].
Proof.
  intros Hu Hr Hin.
  assert (H0 : returns_at (launch function p)).
  { unfold returns_at, returned_log, held, resume_log, yielded_log. simpl.
    split_and!; try done.
    - by apply ctl_untimed_run_ctl.
    - by destruct p.
    - intros f k Hf _. destruct p; by simplify_eq/=. }
  pose proof (timed_launch_inv function p) as Hi0.
  pose proof (timed_run_keeps _ _ _ Hi0 Hin Hr) as (_ & Hp & Ht & _).
  destruct (timed_returns_at_run _ _ _ Hi0 H0 Hin Hr) as (_ & Hz & Heq & Hf & _).
  split_and!; try done.
  - rewrite <-Heq. by eexists.
  - rewrite <-Heq, !length_app.
    assert (length (held s) + length (buf (outputCh (co s))) <= 1); [|lia].
    unfold held, resumers_holding, ctl_holding, tokens_at, holding in *. rewrite Hz in Ht.
    simpl in Ht.
    destruct (ctl s) as [| |f k| |]; simpl in *;
      try (destruct (r_pc f); simpl in *; try destruct (closed (inputCh (co s))) eqn:Hci);
      destruct (body s) as [[yo yi []] kb|[yo yi []] kb|fd ed kd| | | |]; simpl in *;
      destruct_and?;
      repeat match goal with H : buf _ = [] |- _ => rewrite H end; simpl; lia.
Qed.

Lemma resume_outputs_are_yields_witness :
  untimed Timed.Triple_controller /\
  exists s, Timed.run Timed.In_time_schedule Timed.Triple_system = Some s /\
    Timed.in_time Timed.In_time_schedule /\
    Timed.returned_log s = [[]; [AStr "x"]] /\
    Timed.returned_log s `prefix_of` Timed.yielded_log s.
Proof.
  assert (Hu : untimed Timed.Triple_controller).
  { repeat (constructor; intros). }
  assert (Ht : Timed.in_time Timed.In_time_schedule).
  { apply (bool_decide_unpack _). vm_compute. exact I. }
  split; [exact Hu|].
  eexists. split; [vm_compute; reflexivity|]. split; [exact Ht|].
  split; [vm_compute; reflexivity|].
  refine (proj1 (resume_outputs_are_yields Timed.Impatient_function Timed.Triple_controller
                   Timed.In_time_schedule _ Hu _ Ht)).
  vm_compute; reflexivity.
Defined.

End timed.
